(** * A shallow embedding of the [fsm] runtime (package github.com/orkestr8/fsm)

    The development follows the Go sources file by file:
    - the declarative data model (Index, Signal, Expiry, Limit, State, Options);
    - [spec.go]: the compiled specification and its lookups;
    - [instance.go]: the per-machine record and [update];
    - [runner.go]: the worker's transactions ([alloc], [handleEvent],
      [handleClockTick], [processDeadline], [processVisitLimit], [raise]);
    - [machines.go]: the facade.

    Go's [int], [int64] are modelled as [Z] with the two's complement
    wrap-around written out where the code does arithmetic; Go maps are
    [gmap]s (a nil map and an empty map behave alike for reads and [len]);
    pointers to instances are addresses into a store of instance objects. *)

From stdpp Require Import gmap list strings.
From Stdlib Require Import ZArith Lia.

Open Scope Z_scope.

(** ** Machine integers *)

(** Signed 64-bit wrap-around (Go [int], [int64], [Time], [Tick]). *)
Definition wrap64 (z : Z) : Z := (z + 2 ^ 63) mod 2 ^ 64 - 2 ^ 63.

(** Unsigned 64-bit wrap-around (Go [uint64], the type of [ID]). *)
Definition wrapU64 (z : Z) : Z := z mod 2 ^ 64.

Definition min_int64 : Z := - 2 ^ 63.

(** ** The declarative data model *)

Definition Index := Z.
Definition Signal := Z.
Definition Tick := Z.
Definition Time := Z.
Definition ID := Z.

(** Custom data attached through [Signal]: the variadic [...interface{}]
    arrives as a slice, [None] being the nil slice of a call without data.
    The payload values are opaque to the runtime. *)
Definition Data := list Z.

(** [type Action func(FSM) error].  An action observes the instance through
    the FSM interface (its id and attached data) and returns nil ([None]) or
    an error; [None] at type [Action] is the nil func value. *)
Definition ActionFn := ID → option Data → option string.
Definition Action := option ActionFn.

Record Expiry := mkExpiry { TTL : Tick; Expiry_Raise : Signal }.
Record Limit := mkLimit { Value : Z; Limit_Raise : Signal }.

Record State := mkState {
  State_Index : Index;
  Transitions : gmap Signal Index;
  Actions : gmap Signal Action;
  Errors : gmap Signal Index;
  State_TTL : Expiry;
  Visit : Limit
}.

(** The error values of the package.  [ErrUnknownSignal] carries the signal
    and a state index (the zero value when the literal leaves it out);
    the payload of [ErrNoTransitions] (a copy of the spec) is elided. *)
Inductive Err :=
| ErrDuplicateState (i : Index)
| ErrUnknownState (i : Index)
| ErrUnknownTransition (sig : Signal) (st : Index)
| ErrUnknownSignal (sig : Signal) (st : Index)
| ErrUnknownFSM (id : ID)
| ErrNilAction (sig : Signal)
| ErrNoTransitions.

Inductive ErrKind :=
| UnknownState | NoTransitions | UnknownSignal | UnknownTransition | OtherError.

Definition kind_of (e : Err) : ErrKind :=
  match e with
  | ErrUnknownState _ => UnknownState
  | ErrNoTransitions => NoTransitions
  | ErrUnknownSignal _ _ => UnknownSignal
  | ErrUnknownTransition _ _ => UnknownTransition
  | _ => OtherError
  end.

(** ** spec.go *)

(** Modelled from the spec: the [Flap] record (its declaration is not among
    the sources): an ordered pair of two indices, a count threshold and the
    signal to raise. *)
Record Flap := mkFlap { States : Index * Index; Count : Z; Flap_Raise : Signal }.

(** [type spec struct]; the optional name tables only feed log messages and
    are left out. *)
Record spec := mkSpec {
  states : gmap Index State;
  signals : gmap Signal Signal;
  flaps : gmap (Index * Index) Flap
}.

Definition newSpec : spec := mkSpec ∅ ∅ ∅.

(** [func (s *spec) expiry(current Index) (expiry *Expiry, err error)] *)
Definition expiry (s : spec) (current : Index) : option Expiry * option Err :=
  match states s !! current with
  | None => (None, Some (ErrUnknownState current))
  | Some state =>
      if decide (0 < TTL (State_TTL state)) then (Some (State_TTL state), None)
      else (None, None)
  end.

(** [func (s *spec) visit(next Index) (limit *Limit, err error)] *)
Definition visit (s : spec) (next : Index) : option Limit * option Err :=
  match states s !! next with
  | None => (None, Some (ErrUnknownState next))
  | Some state =>
      if decide (0 < Value (Visit state)) then (Some (Visit state), None)
      else (None, None)
  end.

(** [func (s *spec) error(current Index, signal Signal) (next Index, err error)];
    the named result [next] keeps its zero value on the error paths. *)
Definition error (s : spec) (current : Index) (signal : Signal) : Index * option Err :=
  match states s !! current with
  | None => (0, Some (ErrUnknownState current))
  | Some state =>
      match signals s !! signal with
      | None => (0, Some (ErrUnknownSignal signal current))
      | Some _ =>
          match Errors state !! signal with
          | None => (0, Some (ErrUnknownTransition signal current))
          | Some v => (v, None)
          end
      end
  end.

(** [func (s *spec) transition(current Index, signal Signal)
      (next Index, action Action, err error)] *)
Definition transition (s : spec) (current : Index) (signal : Signal)
  : Index * Action * option Err :=
  match states s !! current with
  | None => (-1, None, Some (ErrUnknownState current))
  | Some state =>
      if decide (size (Transitions state) = 0%nat)
      then (-1, None, Some ErrNoTransitions)
      else
        match signals s !! signal with
        | None => (-1, None, Some (ErrUnknownSignal signal 0))
        | Some _ =>
            match Transitions state !! signal with
            | None => (-1, None, Some (ErrUnknownTransition signal (State_Index state)))
            | Some n => (n, default None (Actions state !! signal), None)
            end
        end
  end.

(** Projections of the triple returned by [transition]. *)
Definition tr_next (r : Index * Action * option Err) : Index := r.1.1.
Definition tr_action (r : Index * Action * option Err) : Action := r.1.2.
Definition tr_err (r : Index * Action * option Err) : option Err := r.2.

(** Modelled from the spec: [flap(a, b)] (its body is not among the sources)
    looks up the oscillation detector registered for the ordered pair (a, b)
    in the spec's [flaps] table. *)
Definition flap (s : spec) (a b : Index) : option Flap := flaps s !! (a, b).

(** Loops with an early [return nil, err]: a fold in the error monad.  Go
    ranges over a map in an unspecified order; the embedding takes the order
    of [map_to_list].  The order only decides which error is reported when
    there are several, not whether the loop succeeds. *)
Fixpoint foldM {A B : Type} (f : B → A → Err + B) (b : B) (l : list A) : Err + B :=
  match l with
  | [] => inr b
  | x :: l' => match f b x with inl e => inl e | inr b' => foldM f b' l' end
  end.

(** First loop of [compile]: referential integrity of Transitions and Errors. *)
Definition register_transfer (m : gmap Index State) (sigs : gmap Signal Signal)
    (kv : Signal * Index) : Err + gmap Signal Signal :=
  match m !! kv.2 with
  | None => inl (ErrUnknownState kv.2)
  | Some _ => inr (<[kv.1 := kv.1]> sigs)
  end.

Definition register_state (m : gmap Index State) (sigs : gmap Signal Signal)
    (st : State) : Err + gmap Signal Signal :=
  foldM (λ sg (transfer : gmap Signal Index),
           foldM (register_transfer m) sg (map_to_list transfer))
        sigs [Transitions st; Errors st].

(** Second loop: every action key is a transition, no action is nil. *)
Definition check_action (sigs : gmap Signal Signal) (st : State) (_ : unit)
    (kv : Signal * Action) : Err + unit :=
  match Transitions st !! kv.1 with
  | None => inl (ErrUnknownTransition kv.1 (State_Index st))
  | Some _ =>
      match kv.2 with
      | None => inl (ErrNilAction kv.1)
      | Some _ =>
          match sigs !! kv.1 with
          | None => inl (ErrUnknownSignal kv.1 (State_Index st))
          | Some _ => inr tt
          end
      end
  end.

Definition check_actions (sigs : gmap Signal Signal) (_ : unit) (st : State)
    : Err + unit :=
  foldM (check_action sigs st) tt (map_to_list (Actions st)).

(** Third loop: what TTL and Visit raise must be a transition of the state,
    and becomes a known signal. *)
Definition register_raises (sigs : gmap Signal Signal) (st : State)
    : Err + gmap Signal Signal :=
  let after_ttl :=
    if decide (0 < TTL (State_TTL st)) then
      match Transitions st !! Expiry_Raise (State_TTL st) with
      | None => inl (ErrUnknownSignal (Expiry_Raise (State_TTL st)) (State_Index st))
      | Some _ => inr (<[Expiry_Raise (State_TTL st) := Expiry_Raise (State_TTL st)]> sigs)
      end
    else inr sigs in
  match after_ttl with
  | inl e => inl e
  | inr sigs' =>
      if decide (0 < Value (Visit st)) then
        match Transitions st !! Limit_Raise (Visit st) with
        | None => inl (ErrUnknownSignal (Limit_Raise (Visit st)) (State_Index st))
        | Some _ => inr (<[Limit_Raise (Visit st) := Limit_Raise (Visit st)]> sigs')
        end
      else inr sigs'
  end.

(** [func (s *spec) compile(m map[Index]State) (map[Signal]Signal, error)] *)
Definition compile (m : gmap Index State) : Err + gmap Signal Signal :=
  let sts := (map_to_list m).*2 in
  match foldM (register_state m) ∅ sts with
  | inl e => inl e
  | inr sigs =>
      match foldM (check_actions sigs) tt sts with
      | inl e => inl e
      | inr _ => foldM register_raises sigs sts
      end
  end.

(** The first loop of [build]: collect the states, refusing a duplicate index. *)
Definition add_state (sts : gmap Index State) (st : State) : Err + gmap Index State :=
  match sts !! State_Index st with
  | Some _ => inl (ErrDuplicateState (State_Index st))
  | None => inr (<[State_Index st := st]> sts)
  end.

(** [func (s *spec) build(state State, more ...State)], returning the spec and an error: on an
    error the receiver is returned as it was. *)
Definition build (s : spec) (state : State) (more : list State) : spec * option Err :=
  match foldM add_state {[State_Index state := state]} more with
  | inl e => (s, Some e)
  | inr sts =>
      match compile sts with
      | inl e => (s, Some e)
      | inr sigs => (mkSpec sts sigs (flaps s), None)
      end
  end.

(** Modelled from the spec: [compileFlapping] (its body is not among the
    sources).  For each supplied record both orderings of the state pair are
    indexed to the same record; a flap naming an unknown state is a fatal
    error, which leaves the spec as it was. *)
Definition register_flap (s : spec) (fl : gmap (Index * Index) Flap) (f : Flap)
    : Err + gmap (Index * Index) Flap :=
  match states s !! (States f).1, states s !! (States f).2 with
  | None, _ => inl (ErrUnknownState (States f).1)
  | _, None => inl (ErrUnknownState (States f).2)
  | Some _, Some _ =>
      inr (<[((States f).2, (States f).1) := f]> (<[((States f).1, (States f).2) := f]> fl))
  end.

Definition compileFlapping (s : spec) (checks : list Flap) : spec * option Err :=
  match foldM (register_flap s) (flaps s) checks with
  | inl e => (s, Some e)
  | inr fl => (mkSpec (states s) (signals s) fl, None)
  end.

(** What a successful [build] establishes (the "spec invariants verified at
    build time"), as far as the runner relies on it. *)
Record wf_spec (s : spec) : Prop := mkWf {
  wf_transitions : ∀ i st sig n,
    states s !! i = Some st → Transitions st !! sig = Some n → is_Some (states s !! n);
  wf_errors : ∀ i st sig n,
    states s !! i = Some st → Errors st !! sig = Some n → is_Some (states s !! n);
  wf_ttl_raise : ∀ i st,
    states s !! i = Some st → 0 < TTL (State_TTL st) →
    is_Some (signals s !! Expiry_Raise (State_TTL st));
  wf_visit_raise : ∀ i st,
    states s !! i = Some st → 0 < Value (Visit st) →
    is_Some (signals s !! Limit_Raise (Visit st))
}.

(** Known signals only grow through [compile]: every signal known to [m1] is
    known to [m2]. *)
Definition known_le (m1 m2 : gmap Signal Signal) : Prop :=
  ∀ k, is_Some (m1 !! k) → is_Some (m2 !! k).

(** ** instance.go *)

(** Modelled from the spec: the per-instance flap record (type [flaps], whose
    source is not among the files) is "a bounded event log per state-pair"
    with two operations used by the runner: [record] a transition and [count]
    the recorded oscillations of a pair.  The runner is verified against this
    interface, for every implementation of it. *)
Class FlapLog (F : Type) := {
  newFlaps : F;
  record : Index → Index → F → F;
  count : Index → Index → F → Z
}.

(** Modelled from the spec: one implementation of the interface, used for
    the concrete runs below: the log is the list of recorded transitions and
    [count] is the number of occurrences of the ordered pair. *)
Definition pair_log := list (Index * Index).

Definition pair_log_count (a b : Index) (l : pair_log) : Z :=
  Z.of_nat (length (filter (λ p, p = (a, b)) l)).

#[export] Instance pair_log_FlapLog : FlapLog pair_log := {|
  newFlaps := [];
  record a b l := (a, b) :: l;
  count := pair_log_count
|}.

(** [type instance struct]; the back pointer [parent], the never written
    [error] slot and the lock are left out. *)
Record instance (F : Type) := mkInstance {
  i_id : ID;
  i_state : Index;
  i_data : option Data;
  i_flaps : F;
  i_start : Time;
  i_deadline : Time;
  i_index : Z;
  i_visits : gmap Index Z
}.
Arguments mkInstance {F}.
Arguments i_id {F}.
Arguments i_state {F}.
Arguments i_data {F}.
Arguments i_flaps {F}.
Arguments i_start {F}.
Arguments i_deadline {F}.
Arguments i_index {F}.
Arguments i_visits {F}.

Section Instance.
Context {F : Type}.

(** [func (i *instance) update(next Index, now Time, ttl Tick)]; a missing
    key of [visits] reads as 0. *)
Definition update (i : instance F) (next : Index) (now : Time) (ttl : Tick)
    : instance F :=
  mkInstance (i_id i) next (i_data i) (i_flaps i) now
    (if decide (0 < ttl) then wrap64 (now + ttl) else 0)
    (i_index i)
    (<[next := wrap64 (default 0 (i_visits i !! next) + 1)]> (i_visits i)).

(** [func (i *instance) Data() interface{}] *)
Definition Data_of (i : instance F) : option Data := i_data i.

Definition set_index (k : Z) (i : instance F) : instance F :=
  mkInstance (i_id i) (i_state i) (i_data i) (i_flaps i) (i_start i)
    (i_deadline i) k (i_visits i).

Definition set_deadline (d : Time) (i : instance F) : instance F :=
  mkInstance (i_id i) (i_state i) (i_data i) (i_flaps i) (i_start i)
    d (i_index i) (i_visits i).

Definition set_data (d : option Data) (i : instance F) : instance F :=
  mkInstance (i_id i) (i_state i) d (i_flaps i) (i_start i)
    (i_deadline i) (i_index i) (i_visits i).

Definition set_flaps (f : F) (i : instance F) : instance F :=
  mkInstance (i_id i) (i_state i) (i_data i) f (i_start i)
    (i_deadline i) (i_index i) (i_visits i).

(** ** The deadline queue *)

(** Modelled from the spec: the deadline queue (type [queue], whose source is
    not among the files) is a min-heap over instances keyed by deadline.  It
    is embedded as the list of the addresses it holds, together with the
    store of instance objects it points into: [peek] returns an entry of
    minimal deadline (among ties the earliest in the list; the spec leaves
    ties open), each queued instance stores its current position in
    [i_index], and an instance that is not queued has index −1. *)
Fixpoint reindex (k : Z) (q : list nat) (h : list (instance F)) : list (instance F) :=
  match q with
  | [] => h
  | a :: q' => reindex (k + 1) q' (alter (set_index k) a h)
  end.

Definition deadline_at (h : list (instance F)) (a : nat) : Time :=
  from_option i_deadline 0 (h !! a).

Fixpoint q_min (h : list (instance F)) (q : list nat) : option nat :=
  match q with
  | [] => None
  | a :: q' =>
      match q_min h q' with
      | None => Some a
      | Some b => if decide (deadline_at h b < deadline_at h a) then Some b else Some a
      end
  end.

(** [peek]: the minimum, without removal; nil on an empty queue. *)
Definition peek (q : list nat) (h : list (instance F)) : option nat := q_min h q.

(** [enqueue]: adds the instance and sets its position. *)
Definition enqueue (a : nat) (q : list nat) (h : list (instance F))
    : list nat * list (instance F) :=
  (q ++ [a], reindex 0 (q ++ [a]) h).

(** [remove]: takes the instance out; it is no longer queued, so its index
    is −1, and the entries behind it move up. *)
Definition remove (a : nat) (q : list nat) (h : list (instance F))
    : list nat * list (instance F) :=
  let q' := filter (λ b, b ≠ a) q in
  (q', reindex 0 q' (alter (set_index (-1)) a h)).

(** [dequeue]: removes the minimum and clears its position to −1. *)
Definition dequeue (q : list nat) (h : list (instance F))
    : option nat * (list nat * list (instance F)) :=
  match q_min h q with
  | None => (None, (q, h))
  | Some a => (Some a, remove a q h)
  end.

(** [update]: re-establishes the order after the deadline of a queued
    instance changed.  The minimum is recomputed by [peek] in this
    representation, so the contents stay as they are. *)
Definition q_update (a : nat) (q : list nat) (h : list (instance F))
    : list nat * list (instance F) :=
  (q, reindex 0 q h).

End Instance.

(** ** runner.go *)

(** [type Options struct]; the name tables and the logger are left out (the
    log calls have no effect on the state). *)
Record Options := mkOptions {
  Limits : list Flap;
  BufferSize : Z;
  IgnoreUndefinedStates : bool;
  IgnoreUndefinedTransitions : bool;
  IgnoreUndefinedSignals : bool
}.

Definition defaultBufferSize : Z := Z.shiftl 1 8.

(** [func DefaultOptions() Options] *)
Definition DefaultOptions : Options := mkOptions [] defaultBufferSize true true true.

(** [type event struct]: [e_ref] is the pointer to the instance. *)
Record event := mkEvent {
  e_instance : ID;
  e_ref : nat;
  e_signal : Signal;
  e_data : option Data
}.

(** [type txn struct]: the closures posted on the transaction channel are one
    of three shapes: a clock tick, an event for the transition handler, and
    a read of the runner. *)
Inductive txn :=
| TxClockTick
| TxEvent (ev : event)
| TxRead.

(** How a call ends: with its results, or in a run-time panic. *)
Inductive outcome (A : Type) :=
| Returns (a : A)
| Panics.
Arguments Returns {A}.
Arguments Panics {A}.

(** [type runner struct].  [g_heap] is the store of the instance objects
    allocated so far (an [*instance] is an address into it); [g_events] and
    [g_transactions] are the contents of the two channels in FIFO order;
    [g_errors] lists the errors offered on the [errors] channel by the
    non-blocking send, which a reader gets if one is waiting.

    The transaction channel is made with [make(chan *txn, BufferSize)]: it
    holds at most [BufferSize (g_options g)] transactions, and the worker is
    its only receiver.  [g_blocked] tells that the worker is inside a send
    on that channel which found the buffer full: the send never completes,
    since nobody else receives, and the worker runs no code after it.  A
    handler result whose runner has [g_blocked] set stands for a call that
    has not returned.  [g_taken] is the transaction the worker has received
    from the channel and not yet run: the dispatcher may send in between. *)
Record runner (F : Type) := mkRunner {
  g_options : Options;
  g_spec : spec;
  g_now : Time;
  g_next : ID;
  g_deadlines : list nat;
  g_running : bool;
  g_heap : list (instance F);
  g_events : list event;
  g_transactions : list txn;
  g_errors : list Err;
  g_blocked : bool;
  g_taken : option txn
}.
Arguments mkRunner {F}.
Arguments g_options {F}.
Arguments g_spec {F}.
Arguments g_now {F}.
Arguments g_next {F}.
Arguments g_deadlines {F}.
Arguments g_running {F}.
Arguments g_heap {F}.
Arguments g_events {F}.
Arguments g_transactions {F}.
Arguments g_errors {F}.
Arguments g_blocked {F}.
Arguments g_taken {F}.

Section Runner.
Context {F : Type} `{!FlapLog F}.

Definition set_now (t : Time) (g : runner F) : runner F :=
  mkRunner (g_options g) (g_spec g) t (g_next g) (g_deadlines g) (g_running g)
    (g_heap g) (g_events g) (g_transactions g) (g_errors g) (g_blocked g) (g_taken g).

Definition set_next (n : ID) (g : runner F) : runner F :=
  mkRunner (g_options g) (g_spec g) (g_now g) n (g_deadlines g) (g_running g)
    (g_heap g) (g_events g) (g_transactions g) (g_errors g) (g_blocked g) (g_taken g).

Definition set_queue (qh : list nat * list (instance F)) (g : runner F) : runner F :=
  mkRunner (g_options g) (g_spec g) (g_now g) (g_next g) qh.1 (g_running g)
    qh.2 (g_events g) (g_transactions g) (g_errors g) (g_blocked g) (g_taken g).

Definition set_heap (h : list (instance F)) (g : runner F) : runner F :=
  mkRunner (g_options g) (g_spec g) (g_now g) (g_next g) (g_deadlines g) (g_running g)
    h (g_events g) (g_transactions g) (g_errors g) (g_blocked g) (g_taken g).

Definition set_running (b : bool) (g : runner F) : runner F :=
  mkRunner (g_options g) (g_spec g) (g_now g) (g_next g) (g_deadlines g) b
    (g_heap g) (g_events g) (g_transactions g) (g_errors g) (g_blocked g) (g_taken g).

Definition set_events (es : list event) (g : runner F) : runner F :=
  mkRunner (g_options g) (g_spec g) (g_now g) (g_next g) (g_deadlines g) (g_running g)
    (g_heap g) es (g_transactions g) (g_errors g) (g_blocked g) (g_taken g).

Definition set_transactions (ts : list txn) (g : runner F) : runner F :=
  mkRunner (g_options g) (g_spec g) (g_now g) (g_next g) (g_deadlines g) (g_running g)
    (g_heap g) (g_events g) ts (g_errors g) (g_blocked g) (g_taken g).

Definition set_errors (es : list Err) (g : runner F) : runner F :=
  mkRunner (g_options g) (g_spec g) (g_now g) (g_next g) (g_deadlines g) (g_running g)
    (g_heap g) (g_events g) (g_transactions g) es (g_blocked g) (g_taken g).

Definition set_blocked (b : bool) (g : runner F) : runner F :=
  mkRunner (g_options g) (g_spec g) (g_now g) (g_next g) (g_deadlines g) (g_running g)
    (g_heap g) (g_events g) (g_transactions g) (g_errors g) b (g_taken g).

Definition set_taken (t : option txn) (g : runner F) : runner F :=
  mkRunner (g_options g) (g_spec g) (g_now g) (g_next g) (g_deadlines g) (g_running g)
    (g_heap g) (g_events g) (g_transactions g) (g_errors g) (g_blocked g) t.

(** [func newRunner(spec *spec, clock *Clock, optional ...Options)], returning the runner or an error;
    [None] for the variadic argument left out.  The clock pointer is only
    stored.  [make(chan *txn, options.BufferSize)] panics at run time on a
    negative size (memory is taken as unbounded: a size too large to
    allocate is not modelled). *)
Definition newRunner (s : spec) (optional : option Options)
    : outcome (option (runner F) * option Err) :=
  let options := default (mkOptions [] 0 false false false) optional in
  let options :=
    if decide (BufferSize options = 0)
    then mkOptions (Limits options) defaultBufferSize (IgnoreUndefinedStates options)
           (IgnoreUndefinedTransitions options) (IgnoreUndefinedSignals options)
    else options in
  let '(s', err) :=
    if decide (0 < length (Limits options))%nat
    then compileFlapping s (Limits options) else (s, None) in
  match err with
  | Some e => Returns (None, Some e)
  | None =>
      if decide (BufferSize options < 0) then Panics
      else Returns (Some (mkRunner options s' 0 0 [] false [] [] [] [] false None), None)
  end.

(** [func (g *runner) Stop()] *)
Definition Stop (g : runner F) : runner F :=
  if g_running g then set_running false g else g.

(** [func (g *runner) handleError(tid int64, err error, ctx interface{})]:
    the three lookup errors are dropped when the matching option is set;
    otherwise the error is offered on the errors channel. *)
Definition handleError (g : runner F) (err : Err) : runner F :=
  let ignored :=
    match err with
    | ErrUnknownState _ => IgnoreUndefinedStates (g_options g)
    | ErrUnknownTransition _ _ => IgnoreUndefinedTransitions (g_options g)
    | ErrUnknownSignal _ _ => IgnoreUndefinedSignals (g_options g)
    | _ => false
    end in
  if ignored then g else set_errors (g_errors g ++ [err]) g.

Definition id_at (h : list (instance F)) (a : nat) : ID := from_option i_id 0 (h !! a).

(** [func (g *runner) signal(signal Signal, instance *instance, optionalData ...interface{}) error];
    the send on the events channel hands the event to the dispatcher. *)
Definition signal (g : runner F) (sig : Signal) (a : nat) (optionalData : option Data)
    : runner F * option Err :=
  match signals (g_spec g) !! sig with
  | None => (g, Some (ErrUnknownSignal sig 0))
  | Some _ =>
      (set_events (g_events g ++ [mkEvent (id_at (g_heap g) a) a sig optionalData]) g, None)
  end.

(** [func (g *runner) tick()] *)
Definition tick (g : runner F) : runner F := set_now (wrap64 (g_now g + 1)) g.

(** [func (g *runner) ct() Time] *)
Definition ct (g : runner F) : Time := g_now g.

(** There is room in the buffer of the transaction channel. *)
Definition room (g : runner F) : Prop :=
  Z.of_nat (length (g_transactions g)) < BufferSize (g_options g).

#[export] Instance room_dec g : Decision (room g).
Proof. unfold room. apply _. Defined.

(** The send [g.transactions <- t] made by the worker itself, from inside a
    transaction: with room in the buffer the transaction is appended; on a
    full buffer the send blocks, and for good, the worker being the only
    receiver of the channel. *)
Definition send (t : txn) (g : runner F) : runner F :=
  if decide (room g) then set_transactions (g_transactions g ++ [t]) g
  else set_blocked true g.

(** The state of the transaction channel: what it holds, and whether the
    worker is blocked on it. *)
Definition chan (g : runner F) : list txn * bool := (g_transactions g, g_blocked g).

(** [func (g *runner) raise(tid int64, instance *instance, signal Signal, current Index) (err error)]:
    places the event directly on the transaction queue. *)
Definition raise (g : runner F) (a : nat) (sig : Signal) (current : Index)
    : runner F * option Err :=
  match signals (g_spec g) !! sig with
  | None => (g, Some (ErrUnknownSignal sig 0))
  | Some _ => (send (TxEvent (mkEvent (id_at (g_heap g) a) a sig None)) g, None)
  end.

(** [func (g *runner) processDeadline(tid int64, instance *instance, state Index) error].
    The instance is read through its address; an address outside the store
    does not arise, since Go pointers to instances are always valid. *)
Definition processDeadline (g : runner F) (a : nat) (state : Index)
    : runner F * option Err :=
  let now := ct g in
  match expiry (g_spec g) state with
  | (_, Some err) => (g, Some err)
  | (exp, None) =>
      let ttl := from_option TTL 0 exp in
      let g := set_heap (alter (λ i, update i state now ttl) a (g_heap g)) g in
      match g_heap g !! a with
      | None => (g, None)
      | Some inst =>
          if decide (-1 < i_index inst) then
            if decide (0 < i_deadline inst)
            then (set_queue (q_update a (g_deadlines g) (g_heap g)) g, None)
            else (set_queue (remove a (g_deadlines g) (g_heap g)) g, None)
          else if decide (0 < i_deadline inst)
          then (set_queue (enqueue a (g_deadlines g) (g_heap g)) g, None)
          else (g, None)
      end
  end.

(** [func (g *runner) processVisitLimit(tid int64, instance *instance, state Index) error];
    the result of [raise] is not looked at. *)
Definition processVisitLimit (g : runner F) (a : nat) (state : Index)
    : runner F * option Err :=
  match visit (g_spec g) state with
  | (_, Some err) => (g, Some err)
  | (None, None) => (g, None)
  | (Some limit, None) =>
      match g_heap g !! a with
      | None => (g, None)
      | Some inst =>
          if decide (0 < Value limit ∧ default 0 (i_visits inst !! state) = Value limit)
          then ((raise g a (Limit_Raise limit) (i_state inst)).1, None)
          else (g, None)
      end
  end.

(** [func (g *runner) alloc(initial Index) (FSM, error)]: the FSM handle
    returned is the address of the new instance.  When [processDeadline]
    fails the new object is dropped; the id counter stays advanced. *)
Definition alloc (g : runner F) (initial : Index) : runner F * option nat * option Err :=
  let id := g_next g in
  let g := set_next (wrapU64 (id + 1)) g in
  let new := mkInstance id initial None newFlaps 0 0 (-1) {[initial := 1]} in
  let a := length (g_heap g) in
  match processDeadline (set_heap (g_heap g ++ [new]) g) a initial with
  | (_, Some err) => (g, None, Some err)
  | (g', None) => (g', Some a, None)
  end.

(** The loop of [handleClockTick].  Every iteration that does not return
    takes one entry out of the queue, so the loop runs at most once per
    queued entry: [n] is the number of entries, and [Len() > 0] fails when
    it reaches 0.  When the send of [raise] blocks, the loop goes no
    further: the entry it took out keeps its deadline. *)
Fixpoint drain (n : nat) (now : Time) (g : runner F) : runner F * option Err :=
  match n with
  | O => (g, None)
  | S n' =>
      match peek (g_deadlines g) (g_heap g) with
      | None => (g, None)
      | Some a =>
          if decide (now < deadline_at (g_heap g) a) then (g, None)
          else
            let g := set_queue (dequeue (g_deadlines g) (g_heap g)).2 g in
            match g_heap g !! a with
            | None => (g, None)
            | Some inst =>
                let reset (g : runner F) :=
                  set_heap (alter (λ i, set_index (-1) (set_deadline (-1) i)) a (g_heap g)) g in
                if decide (0 < i_deadline inst) then
                  match expiry (g_spec g) (i_state inst) with
                  | (_, Some err) => (g, Some err)
                  | (Some ttl, None) =>
                      let g := (raise g a (Expiry_Raise ttl) (i_state inst)).1 in
                      if g_blocked g then (g, None) else drain n' now (reset g)
                  | (None, None) => drain n' now (reset g)
                  end
                else drain n' now (reset g)
            end
      end
  end.

(** [func (g *runner) handleClockTick(tid int64) error] *)
Definition handleClockTick (g : runner F) : runner F * option Err :=
  let g := tick g in
  let now := ct g in
  drain (length (g_deadlines g)) now g.

(** [handleEvent], "Associate custom data": a non-nil [event.data] replaces
    the data of the instance. *)
Definition attach_data (g : runner F) (a : nat) (ev : event) : runner F :=
  match e_data ev with
  | Some d => set_heap (alter (set_data (Some d)) a (g_heap g)) g
  | None => g
  end.

(** [handleEvent], "call action before transition": a non-nil action is
    called on the instance; when it returns an error, [next] becomes the
    alternate given by [spec.error], or stays when that lookup fails, the
    lookup's error going to [handleError]. *)
Definition invoke_action (g : runner F) (a : nat) (ev : event) (current next : Index)
    (action : Action) : runner F * Index :=
  match action, g_heap g !! a with
  | Some act, Some inst =>
      match act (i_id inst) (i_data inst) with
      | Some _ =>
          match error (g_spec g) current (e_signal ev) with
          | (_, Some err) => (handleError g err, next)
          | (alternate, None) => (g, alternate)
          end
      | None => (g, next)
      end
  | _, _ => (g, next)
  end.

(** [handleEvent], "We landed in the new state": process the deadline, then
    the visit limit. *)
Definition land (g : runner F) (a : nat) (next : Index) : runner F * option Err :=
  match processDeadline g a next with
  | (g, Some err) => (g, Some err)
  | (g, None) => processVisitLimit g a next
  end.

(** The part of [handleEvent] after the flap check. *)
Definition complete (g : runner F) (a : nat) (ev : event) (current next : Index)
    (action : Action) : runner F * option Err :=
  let g := attach_data g a ev in
  let '(g, next) := invoke_action g a ev current next action in
  land g a next.

(** [func (g *runner) handleEvent(tid int64, instance *instance, event *event) error] *)
Definition handleEvent (g : runner F) (a : nat) (ev : event) : runner F * option Err :=
  match g_heap g !! a with
  | None => (g, None)
  | Some inst =>
      let current := i_state inst in
      match transition (g_spec g) current (e_signal ev) with
      | (_, _, Some err) => (g, Some err)
      | (next, action, None) =>
          match flap (g_spec g) current next with
          | Some limit =>
              if decide (0 < Count limit) then
                let g' := set_heap (alter (λ i, set_flaps (record current next (i_flaps i)) i)
                                      a (g_heap g)) g in
                let flaps := count current next (record current next (i_flaps inst)) in
                if decide (Count limit ≤ flaps)
                then ((raise g' a (Flap_Raise limit) (i_state inst)).1, None)
                else complete g' a ev current next action
              else complete g a ev current next action
          | None => complete g a ev current next action
          end
      end
  end.

(** The worker of [run]: a transaction is executed and its error, if any,
    goes to [handleError]. *)
Definition run_txn (g : runner F) (t : txn) : runner F :=
  let '(g', err) :=
    match t with
    | TxClockTick => handleClockTick g
    | TxEvent ev => handleEvent g (e_ref ev) ev
    | TxRead => (g, None)
    end in
  match err with
  | Some e => handleError g' e
  | None => g'
  end.

(** The moves of the system, each one atomic: a caller allocates or signals,
    the dispatcher forwards an event or a clock tick or a read to the
    transaction channel, the worker runs the next transaction, the runner is
    stopped.  The dispatcher's send waits for room in the buffer.  The
    worker receives the next transaction from the channel and then runs it,
    in two moves, since the dispatcher may send in between; it does neither
    while it is blocked in a send. *)
Inductive step : runner F → runner F → Prop :=
| step_alloc g initial :
    step g (alloc g initial).1.1
| step_signal g sig a inst d :
    g_heap g !! a = Some inst →
    step g (signal g sig a d).1
| step_forward_event g ev evs :
    g_events g = ev :: evs →
    room g →
    step g (set_transactions (g_transactions g ++ [TxEvent ev]) (set_events evs g))
| step_forward_tick g :
    room g →
    step g (set_transactions (g_transactions g ++ [TxClockTick]) g)
| step_forward_read g :
    room g →
    step g (set_transactions (g_transactions g ++ [TxRead]) g)
| step_worker_take g t ts :
    g_transactions g = t :: ts →
    g_taken g = None →
    g_blocked g = false →
    step g (set_taken (Some t) (set_transactions ts g))
| step_worker_run g t :
    g_taken g = Some t →
    g_blocked g = false →
    step g (set_taken None (run_txn g t))
| step_stop g :
    step g (Stop g).

(** The configurations a runner started on [s] can be in. *)
Inductive reachable (s : spec) (optional : option Options) : runner F → Prop :=
| reach_start g :
    newRunner s optional = Returns (Some g, None) →
    reachable s optional (set_running true g)
| reach_step g g' :
    reachable s optional g → step g g' → reachable s optional g'.






(** The TTL that [processDeadline] reads for a defined state. *)
Definition ttl_of (st : State) : Tick :=
  if decide (0 < TTL (State_TTL st)) then TTL (State_TTL st) else 0.

(** The visit-cap test of [processVisitLimit] on an instance. *)
Definition capped (st : State) (state : Index) (inst : instance F) : Prop :=
  0 < Value (Visit st) ∧ default 0 (i_visits inst !! state) = Value (Visit st).

#[export] Instance capped_dec st state inst : Decision (capped st state inst).
Proof. unfold capped. apply _. Defined.

Definition visit_event (st : State) (a : nat) (inst : instance F) : txn :=
  TxEvent (mkEvent (i_id inst) a (Limit_Raise (Visit st)) None).

(** The instance after the data-attachment step of [handleEvent]. *)
Definition attached (ev : event) (inst : instance F) : instance F :=
  match e_data ev with
  | Some d => set_data (Some d) inst
  | None => inst
  end.

(** Whether the action of a transition, called on the instance, returns an
    error; no action, no error. *)
Definition failed (action : Action) (inst : instance F) : bool :=
  match action with
  | Some act =>
      match act (i_id inst) (i_data inst) with
      | Some _ => true
      | None => false
      end
  | None => false
  end.

(** The state a completed transition lands in: [next], unless the action
    returned an error and the Errors map of the current state [st] has an
    alternate for the signal. *)
Definition landing (st : State) (sig : Signal) (next : Index) (failed : bool) : Index :=
  if failed then default next (Errors st !! sig) else next.

(** The flap test of [handleEvent]: a record with a positive count exists
    for the pair and the count after recording has reached it. *)
Definition flap_trips (s : spec) (current next : Index) (log : F) : Prop :=
  ∃ limit, flap s current next = Some limit ∧ 0 < Count limit ∧
           Count limit ≤ count current next (record current next log).

(** The instance after the flap bookkeeping of [handleEvent]. *)
Definition recorded (s : spec) (current next : Index) (inst : instance F) : instance F :=
  match flap s current next with
  | Some limit =>
      if decide (0 < Count limit)
      then set_flaps (record current next (i_flaps inst)) inst else inst
  | None => inst
  end.

Definition flap_event (limit : Flap) (a : nat) (inst : instance F) : txn :=
  TxEvent (mkEvent (i_id inst) a (Flap_Raise limit) None).


(** What the runner keeps true of the deadline queue between two moves: no
    instance is queued twice; a queued instance exists, has a position, a
    positive deadline and sits in a state with a TTL; an instance that is not
    queued has index −1. *)
Definition queued_ok (s : spec) (inst : instance F) : Prop :=
  0 ≤ i_index inst ∧ 0 < i_deadline inst ∧
  ∃ exp, expiry s (i_state inst) = (Some exp, None).

Record Inv (g : runner F) : Prop := mkInv {
  inv_nodup : NoDup (g_deadlines g);
  inv_queued : ∀ a, a ∈ g_deadlines g →
    ∃ inst, g_heap g !! a = Some inst ∧ queued_ok (g_spec g) inst;
  inv_idle : ∀ a inst, g_heap g !! a = Some inst → a ∉ g_deadlines g →
    i_index inst = -1
}.

End Runner.

(** ** machines.go *)

(** [type Clock struct] (clock.go).  Of a [*Clock] the calls below use only
    whether it is nil; the ticks a clock delivers are the moves
    [step_forward_tick] of the runner. *)
Inductive Clock := mkClock.

(** [type machines struct]: the spec, the options, the declared states, the
    clock and the runner, both nil until [Run]. *)
Record machines (F : Type) := mkMachines {
  m_spec : spec;
  m_Options : Options;
  m_States : list State;
  m_clock : option Clock;
  m_runner : option (runner F)
}.
Arguments mkMachines {F}.
Arguments m_spec {F}.
Arguments m_Options {F}.
Arguments m_States {F}.
Arguments m_clock {F}.
Arguments m_runner {F}.

Section Machines.
Context {F : Type} `{!FlapLog F}.

(** [func define(s State, more ...State) (m *machines, err error)] *)
Definition define (s : State) (more : list State) : option (machines F) * option Err :=
  match build newSpec s more with
  | (_, Some err) => (None, Some err)
  | (sp, None) =>
      (Some (mkMachines sp (mkOptions [] 0 false false false) (s :: more) None None), None)
  end.

(** [func (m *machines) New(initial Index) (FSM, error)]: [m.runner.alloc]
    reads [g.next] through the runner pointer, which is nil before [Run]. *)
Definition New (m : machines F) (initial : Index)
    : outcome (machines F * option nat * option Err) :=
  match m_runner m with
  | None => Panics
  | Some g =>
      let '(g', fsm, err) := alloc g initial in
      Returns (mkMachines (m_spec m) (m_Options m) (m_States m) (m_clock m) (Some g'),
               fsm, err)
  end.

(** [func (m *machines) Run(clock *Clock, options Options) error].  After
    [newRunner] has returned a runner, [m.runner.run()] starts the
    dispatcher, which reads [g.clock.C], and [m.clock.Start()] locks the
    clock: a nil clock is dereferenced, and the call panics; so does a call
    in which [newRunner] panics. *)
Definition Run (m : machines F) (clock : option Clock) (options : Options)
    : outcome (machines F * option Err) :=
  match newRunner (m_spec m) (Some options) with
  | Panics => Panics
  | Returns (_, Some err) =>
      Returns (mkMachines (m_spec m) options (m_States m) clock (m_runner m), Some err)
  | Returns (Some g, None) =>
      match clock with
      | None => Panics
      | Some _ =>
          Returns (mkMachines (g_spec g) options (m_States m) clock
                     (Some (set_running true g)), None)
      end
  | Returns (None, None) => Panics
  end.

(** [func (m *machines) Done()] *)
Definition Done (m : machines F) : outcome (machines F) :=
  match m_runner m with
  | None => Panics
  | Some g =>
      Returns (mkMachines (m_spec m) (m_Options m) (m_States m) (m_clock m) (Some (Stop g)))
  end.

End Machines.

(** ** Concrete machines, after the package's tests *)

(** A runner started on a spec, as [Run] leaves it. *)
Definition fresh (s : spec) (o : Options) : runner pair_log :=
  match newRunner s (Some o) with
  | Returns (Some g, _) => g
  | _ => mkRunner o s 0 0 [] false [] [] [] [] false None
  end.

Definition started (s : spec) (o : Options) : runner pair_log :=
  set_running true (fresh s o).

(** After TestActionErrors: up = 0, retrying = 1, down = 2, unavailable = 3;
    startup = 0, shutdown = 1, warn = 2, cordon = 3.  The action on [warn]
    in [down] is added here: it fails and has no entry in Errors. *)
Definition failing : ActionFn := λ _ _, Some "error"%string.

Definition st_up : State :=
  mkState 0 {[1 := 2]} ∅ ∅ (mkExpiry 0 0) (mkLimit 0 0).

Definition st_down : State :=
  mkState 2 {[0 := 0; 2 := 1; 3 := 3]} {[0 := Some failing; 2 := Some failing]}
    {[0 := 1]} (mkExpiry 0 0) (mkLimit 2 3).

Definition st_retrying : State :=
  mkState 1 {[2 := 1; 0 := 0; 3 := 3]} {[0 := Some failing]}
    {[0 := 1]} (mkExpiry 0 0) (mkLimit 2 3).

Definition st_unavailable : State :=
  mkState 3 ∅ ∅ ∅ (mkExpiry 0 0) (mkLimit 0 0).

Definition sp_act : spec :=
  (build newSpec st_up [st_down; st_retrying; st_unavailable]).1.

(** The options of the test: undefined transitions are not reported. *)
Definition opts_act : Options := mkOptions [] 0 false true false.

(** An instance allocated in [up] and signalled [shutdown]: it is in [down]. *)
Definition g_act0 : runner pair_log := started sp_act opts_act.
Definition g_act1 : runner pair_log := (alloc g_act0 0).1.1.
Definition g_act2 : runner pair_log := run_txn g_act1 (TxEvent (mkEvent 0 0%nat 1 None)).
Definition ev_startup : event := mkEvent 0 0%nat 0 None.
Definition ev_warn : event := mkEvent 0 0%nat 2 (Some [7]).

(** After [startup] has failed once the instance is in [retrying], visited once. *)
Definition g_act3 : runner pair_log := run_txn g_act2 (TxEvent ev_startup).

(** After TestUsage, cut down to the two states its flap rule names:
    running = 10 and down = 11, with healthy = 3 and unhealthy = 4; signal 0
    (signalSpecified) is used by no state.  The flap rule leaves Raise at its
    zero value, as the literal of the test does; its count is 1 here. *)
Definition st_running : State :=
  mkState 10 {[3 := 10; 4 := 11]} ∅ ∅ (mkExpiry 0 0) (mkLimit 0 0).

Definition st_down' : State :=
  mkState 11 {[3 := 10]} ∅ ∅ (mkExpiry 0 0) (mkLimit 0 0).

Definition sp_use : spec := (build newSpec st_running [st_down']).1.
Definition flap_use : Flap := mkFlap (10, 11) 1 0.
Definition opts_use : Options := mkOptions [flap_use] 0 true true true.
Definition g_use0 : runner pair_log := started sp_use opts_use.
Definition g_use : runner pair_log := (alloc g_use0 10).1.1.
Definition ev_unhealthy : event := mkEvent 0 0%nat 4 (Some [42]).

(** The same machine with a flap rule that raises a signal the spec knows. *)
Definition flap_known : Flap := mkFlap (10, 11) 1 3.
Definition opts_flap : Options := mkOptions [flap_known] 0 true true true.
Definition g_flap0 : runner pair_log := started sp_use opts_flap.
Definition g_flap : runner pair_log := (alloc g_flap0 10).1.1.

(** After TestSetDeadlineTransition: running = 0, wait = 1 with TTL {5, start}. *)
Definition st_wait : State :=
  mkState 1 {[0 := 0]} ∅ ∅ (mkExpiry 5 0) (mkLimit 0 0).

Definition st_run : State :=
  mkState 0 ∅ ∅ ∅ (mkExpiry 0 0) (mkLimit 0 0).

Definition sp_ttl : spec := (build newSpec st_wait [st_run]).1.
Definition g_ttl0 : runner pair_log := started sp_ttl DefaultOptions.
Definition g_ttl1 : runner pair_log := (alloc g_ttl0 1).1.1.
Definition g_ttl2 : runner pair_log := (alloc g_ttl1 1).1.1.

(** Three queued instances at time 4: one due at 5, one whose deadline was
    cleared to 0 while it is still queued (a stale entry), one due at 8. *)
Definition g_due : runner pair_log :=
  let g := (alloc (set_now 3 g_ttl2) 1).1.1 in
  set_now 4 (set_heap (alter (set_deadline 0) 1%nat (g_heap g)) g).

(** The facade on the same machine: defined, run, and stopped. *)
Definition m_ttl0 : machines pair_log :=
  mkMachines sp_ttl (mkOptions [] 0 false false false) [st_wait; st_run] None None.

Definition m_ttl1 : machines pair_log :=
  match Run m_ttl0 (Some mkClock) DefaultOptions with
  | Returns (m, _) => m
  | Panics => m_ttl0
  end.

Definition m_ttl2 : machines pair_log :=
  match Done m_ttl1 with
  | Returns m => m
  | Panics => m_ttl1
  end.

(** The instances of the runs above, as the store holds them. *)
Definition inst_act2 : instance pair_log :=
  mkInstance 0 2 None [] 0 0 (-1) {[0 := 2; 2 := 1]}.

Definition inst_act3 : instance pair_log :=
  mkInstance 0 1 None [] 0 0 (-1) {[0 := 2; 2 := 1; 1 := 1]}.

Definition inst_flap : instance pair_log :=
  mkInstance 0 10 None [] 0 0 (-1) {[10 := 2]}.

Definition inst_ttl1 : instance pair_log :=
  mkInstance 0 1 None [] 0 5 0 {[1 := 2]}.

(** ** What [build] checks *)

(** The checks of [compile] on one state, [defined] telling which indices
    are states of the machine: every target of Transitions and Errors is
    defined; every key of Actions is a key of Transitions and its action is
    not nil; a positive TTL or Visit limit raises a signal that is a key of
    Transitions. *)
Definition valid_state (defined : Index → Prop) (st : State) : Prop :=
  (∀ sig n, Transitions st !! sig = Some n → defined n) ∧
  (∀ sig n, Errors st !! sig = Some n → defined n) ∧
  (∀ sig (a : Action), Actions st !! sig = Some a →
     is_Some (Transitions st !! sig) ∧ is_Some a) ∧
  (0 < TTL (State_TTL st) → is_Some (Transitions st !! Expiry_Raise (State_TTL st))) ∧
  (0 < Value (Visit st) → is_Some (Transitions st !! Limit_Raise (Visit st))).

Definition valid_machine (m : gmap Index State) : Prop :=
  ∀ i st, m !! i = Some st → valid_state (λ n, is_Some (m !! n)) st.

(** The states a call of [build] is given, and the indices they declare. *)
Definition declared (l : list State) (n : Index) : Prop :=
  ∃ y, y ∈ l ∧ State_Index y = n.

Definition valid_states (l : list State) : Prop :=
  ∀ x, x ∈ l → valid_state (declared l) x.

(** A signal is used by a machine when it is a key of the Transitions or of
    the Errors of one of its states. *)
Definition used_signal (m : gmap Index State) (k : Signal) : Prop :=
  ∃ i st, m !! i = Some st ∧
    (is_Some (Transitions st !! k) ∨ is_Some (Errors st !! k)).

(** Every known signal is recorded under itself ([signals[signal] = signal]). *)
Definition ident (sg : gmap Signal Signal) : Prop := ∀ k v, sg !! k = Some v → v = k.

(** ** instance.go and spec.go: the remaining calls *)

(** The error of [SetAction], made by [fmt.Errorf("no such state %v", state)]. *)
Inductive SetActionErr := NoSuchState (state : Index).

(** A Go map value is a reference to a map object.  The lookups of spec.go
    and the runner only read the maps of a State, so for them a State is the
    value of its maps, as in [State] above.  [SetAction] writes into the
    Actions of a state, and every State that was declared with the same map
    sees the write: the States are stored as they are given, map references
    included.  For [SetAction] the Actions field is therefore what it is in
    Go: nil, or the address of a map object in a store, a list of maps. *)
Record StateP := mkStateP {
  P_Index : Index;
  P_Transitions : gmap Signal Index;
  P_Actions : option nat;
  P_Errors : gmap Signal Index;
  P_TTL : Expiry;
  P_Visit : Limit
}.

Record specP := mkSpecP {
  p_states : gmap Index StateP;
  p_signals : gmap Signal Signal;
  p_flaps : gmap (Index * Index) Flap
}.

(** The map a reference stands for; reading a nil map finds nothing. *)
Definition actions_at (h : list (gmap Signal Action)) (r : option nat) : gmap Signal Action :=
  match r with
  | Some p => default ∅ (h !! p)
  | None => ∅
  end.

(** The State and the spec that the lookups see in a store. *)
Definition State_at (h : list (gmap Signal Action)) (x : StateP) : State :=
  mkState (P_Index x) (P_Transitions x) (actions_at h (P_Actions x)) (P_Errors x)
    (P_TTL x) (P_Visit x).

Definition spec_at (h : list (gmap Signal Action)) (s : specP) : spec :=
  mkSpec (State_at h <$> p_states s) (p_signals s) (p_flaps s).

(** Every reference of the spec points into the store (Go has no dangling
    map reference). *)
Definition allocated (h : list (gmap Signal Action)) (s : specP) : Prop :=
  map_Forall (λ _ x, ∀ p, P_Actions x = Some p → (p < length h)%nat) (p_states s).

(** [func (s *spec) SetAction(state Index, signal Signal, action Action) error]:
    the state is copied out of the map; a nil Actions gets a new map object;
    the entry is written into the map object; the copy is written back. *)
Definition SetAction (h : list (gmap Signal Action)) (s : specP) (state : Index) (sig : Signal)
    (action : Action) : list (gmap Signal Action) * specP * option SetActionErr :=
  match p_states s !! state with
  | None => (h, s, Some (NoSuchState state))
  | Some st =>
      let '(h, st) :=
        match P_Actions st with
        | None =>
            (h ++ [∅],
             mkStateP (P_Index st) (P_Transitions st) (Some (length h)) (P_Errors st)
               (P_TTL st) (P_Visit st))
        | Some _ => (h, st)
        end in
      let h :=
        match P_Actions st with
        | Some p => alter (<[sig := action]>) p h
        | None => h
        end in
      (h, mkSpecP (<[state := st]> (p_states s)) (p_signals s) (p_flaps s), None)
  end.

(** Two states share their Actions when both hold the same reference. *)
Definition shares (s : specP) (state cur : Index) : bool :=
  match p_states s !! state, p_states s !! cur with
  | Some x, Some y =>
      match P_Actions x, P_Actions y with
      | Some p, Some q => bool_decide (p = q)
      | _, _ => false
      end
  | _, _ => false
  end.

(** The states whose Actions a [SetAction] on [state] writes. *)
Definition written (s : specP) (state cur : Index) : bool :=
  bool_decide (cur = state) || shares s state cur.

(** A State with one more entry in its Actions. *)
Definition with_action (sig : Signal) (action : Action) (y : State) : State :=
  mkState (State_Index y) (Transitions y) (<[sig := action]> (Actions y)) (Errors y)
    (State_TTL y) (Visit y).

(** Two states declared with one Actions map, and a third without actions. *)
Definition store_shared : list (gmap Signal Action) := [ {[0 := Some failing]} ].

Definition sp_shared : specP :=
  mkSpecP
    {[0 := mkStateP 0 {[0 := 1; 1 := 2]} (Some 0%nat) ∅ (mkExpiry 0 0) (mkLimit 0 0);
      1 := mkStateP 1 {[0 := 0; 1 := 2]} (Some 0%nat) ∅ (mkExpiry 0 0) (mkLimit 0 0);
      2 := mkStateP 2 {[1 := 0]} None ∅ (mkExpiry 0 0) (mkLimit 0 0)]}
    {[0 := 0; 1 := 1]} ∅.

(** An action that succeeds. *)
Definition succeeding : ActionFn := λ _ _, None.

(** [const invalidState Index = -99999] *)
Definition invalidState : Index := -99999.

(** [func IsInvalidState(s Index) bool] *)
Definition IsInvalidState (s : Index) : bool := bool_decide (s = invalidState).

Section InstanceCalls.
Context {F : Type}.

(** [func (i *instance) State() (result Index)]: [result] starts as
    [invalidState] and is set to [i.state] by the read transaction, which
    runs on the runner [g]. *)
Definition State_of (g : runner F) (a : nat) : Index :=
  from_option i_state invalidState (g_heap g !! a).

(** [func (i *instance) CanReceive(s Signal) bool] *)
Definition CanReceive (g : runner F) (a : nat) (s : Signal) : bool :=
  match tr_err (transition (g_spec g) (State_of g a) s) with
  | None => true
  | Some _ => false
  end.

(** The errors [handleError] drops, by the options of the runner. *)
Definition ignored (o : Options) (err : Err) : bool :=
  match err with
  | ErrUnknownState _ => IgnoreUndefinedStates o
  | ErrUnknownTransition _ _ => IgnoreUndefinedTransitions o
  | ErrUnknownSignal _ _ => IgnoreUndefinedSignals o
  | _ => false
  end.

(** How an operation treats the instances of the store: none is lost or
    moved, and the instance at address [b] changes within [R b]. *)
Definition keeps (R : nat → instance F → instance F → Prop)
    (h h' : list (instance F)) : Prop :=
  length h' = length h ∧
  ∀ b i, h !! b = Some i → ∃ i', h' !! b = Some i' ∧ R b i i'.

End InstanceCalls.

Section StoreRelations.
Context {F : Type}.

(** As [keeps], for an operation that may also add instances at the end. *)
Definition grows (R : nat → instance F → instance F → Prop)
    (h h' : list (instance F)) : Prop :=
  (length h ≤ length h')%nat ∧
  ∀ b i, h !! b = Some i → ∃ i', h' !! b = Some i' ∧ R b i i'.

(** Two instances that differ at most in deadline and queue position. *)
Definition same_but_schedule (i i' : instance F) : Prop :=
  i_id i' = i_id i ∧ i_state i' = i_state i ∧ i_data i' = i_data i ∧
  i_flaps i' = i_flaps i ∧ i_start i' = i_start i ∧ i_visits i' = i_visits i.

(** An instance is in a state the spec defines, and has counted it. *)
Definition in_defined_state (s : spec) (i : instance F) : Prop :=
  is_Some (states s !! i_state i) ∧ is_Some (i_visits i !! i_state i).

End StoreRelations.

Section RunnerRelations.
Context {F : Type}.

(** The fields of the runner no handler writes to. *)
Definition static (g : runner F) : spec * Options * ID * bool * list event :=
  (g_spec g, g_options g, g_next g, g_running g, g_events g).

(** The ids in use are distinct and below the id counter. *)
Definition ids_fresh (g : runner F) : Prop :=
  0 ≤ g_next g ∧
  NoDup (i_id <$> g_heap g) ∧
  ∀ inst, inst ∈ g_heap g → 0 ≤ i_id inst < g_next g.

End RunnerRelations.

(** The second instance allocated in [wait], as the store of [g_ttl2] holds
    it, and the [shutdown] event of TestActionErrors. *)
Definition inst_ttl2 : instance pair_log :=
  mkInstance 1 1 None [] 0 5 1 {[1 := 2]}.

Definition ev_shutdown : event := mkEvent 0 0%nat 1 None.

(** The moves of [step] as functions, to build configurations with: a
    caller signals, the dispatcher forwards a tick or a read or the next
    event, the worker receives the next transaction, the worker runs the
    transaction it holds. *)
Definition signalled (sig : Signal) (a : nat) (g : runner pair_log) : runner pair_log :=
  (signal g sig a None).1.

Definition forwarded (t : txn) (g : runner pair_log) : runner pair_log :=
  set_transactions (g_transactions g ++ [t]) g.

Definition forwarded_event (g : runner pair_log) : runner pair_log :=
  match g_events g with
  | ev :: evs => set_transactions (g_transactions g ++ [TxEvent ev]) (set_events evs g)
  | [] => g
  end.

Definition taken (g : runner pair_log) : runner pair_log :=
  match g_transactions g with
  | t :: ts => set_taken (Some t) (set_transactions ts g)
  | [] => g
  end.

Definition ran (g : runner pair_log) : runner pair_log :=
  match g_taken g with
  | Some t => set_taken None (run_txn g t)
  | None => g
  end.


Definition handled (sig : Signal) (a : nat) (g : runner pair_log) : runner pair_log :=
  ran (taken (forwarded_event (signalled sig a g))).



(** A transaction buffer of one.  Three instances in [wait], four ticks
    later, when the worker has received the fifth tick. *)
Definition opts_one : Options := mkOptions [] 1 false true false.




(** The machine of TestActionErrors with a buffer of one: the instance is
    taken from [up] to [down] and, [startup] failing, to [retrying]; then
    the worker has received a second [startup], and the dispatcher has
    forwarded a read, which fills the buffer. *)
Definition g_cap3 : runner pair_log :=
  handled 0 0%nat (handled 1 0%nat (alloc (started sp_act opts_one) 0).1.1).

Definition g_cap_full : runner pair_log :=
  forwarded TxRead (taken (forwarded_event (signalled 0 0%nat g_cap3))).

(** ** Theorems about the lookups *)

(** C1: [transition] fails with UnknownState iff [current] is not a defined
    state; otherwise with NoTransitions iff the state's Transitions map is
    empty; otherwise with UnknownSignal iff the signal is not a known signal
    of the spec; otherwise with UnknownTransition iff the state's Transitions
    map has no entry for the signal; otherwise it returns the mapped next
    index, the action declared for the signal (nil when none) and no error. *)
Theorem transition_error_ladder (s : spec) (current : Index) (signal : Signal) :
  let r := transition s current signal in
  (kind_of <$> tr_err r = Some UnknownState ↔ states s !! current = None) ∧
  (∀ state, states s !! current = Some state →
     (kind_of <$> tr_err r = Some NoTransitions ↔ Transitions state = ∅) ∧
     (Transitions state ≠ ∅ →
        (kind_of <$> tr_err r = Some UnknownSignal ↔ signals s !! signal = None) ∧
        (is_Some (signals s !! signal) →
           (kind_of <$> tr_err r = Some UnknownTransition
              ↔ Transitions state !! signal = None) ∧
           (∀ n, Transitions state !! signal = Some n →
              r = (n, default None (Actions state !! signal), None))))).
Proof.
  unfold transition. split.
  - destruct (states s !! current) as [state|] eqn:Hst; simpl; [|done].
    split; [|done].
    repeat (case_decide || case_match); simpl; congruence.
  - intros state Hst. rewrite Hst.
    assert (Hsz : size (Transitions state) = 0%nat ↔ Transitions state = ∅)
      by apply map_size_empty_iff.
    split.
    + case_decide as Hd; simpl; [tauto|].
      split; [|tauto].
      repeat case_match; simpl; congruence.
    + intros Hne. case_decide as Hd; [tauto|].
      split.
      * destruct (signals s !! signal) eqn:Hsig; simpl; [|done].
        split; [|done]. repeat case_match; simpl; congruence.
      * intros [x Hx]. rewrite Hx.
        split.
        -- destruct (Transitions state !! signal); simpl; split; congruence.
        -- intros n Hn. by rewrite Hn.
Qed.

(** ** The deadline queue and the instance store *)

Section QueueFacts.
Context {F : Type}.
Implicit Types (h : list (instance F)) (q : list nat) (i : instance F).

Lemma set_index_set_index k k' i : set_index k (set_index k' i) = set_index k i.
Proof. by destruct i. Qed.

Lemma reindex_length q : ∀ k h, length (reindex k q h) = length h.
Proof.
  induction q as [|a q IH]; intros k h; simpl; [done|].
  by rewrite IH, length_alter.
Qed.

Lemma reindex_lookup_notin q : ∀ k h b, b ∉ q → reindex k q h !! b = h !! b.
Proof.
  induction q as [|a q IH]; intros k h b Hb; simpl; [done|].
  apply not_elem_of_cons in Hb as [Hne Hb].
  rewrite IH by done. by apply list_lookup_alter_ne.
Qed.

(** Whatever the queue, [reindex] only rewrites index fields. *)
Lemma reindex_lookup q : ∀ k h b i,
  h !! b = Some i →
  ∃ k', reindex k q h !! b = Some (set_index k' i) ∧
        (b ∈ q → k ≤ k') ∧ (b ∉ q → k' = i_index i).
Proof.
  induction q as [|a q IH]; intros k h b i Hb; simpl.
  - exists (i_index i). split; [by destruct i|]. split; [|done].
    intros Hin. by apply elem_of_nil in Hin.
  - destruct (decide (a = b)) as [->|Hne].
    + destruct (IH (k + 1) (alter (set_index k) b h) b (set_index k i))
        as (k' & Hk' & Hin & Hout).
      { by rewrite list_lookup_alter_eq, Hb. }
      exists k'. rewrite Hk', set_index_set_index. split; [done|].
      split.
      * intros _. destruct (decide (b ∈ q)) as [Hq|Hq].
        -- specialize (Hin Hq). lia.
        -- rewrite (Hout Hq). simpl. lia.
      * intros Hn. exfalso. apply Hn. left.
    + destruct (IH (k + 1) (alter (set_index k) a h) b i) as (k' & Hk' & Hin & Hout).
      { by rewrite list_lookup_alter_ne. }
      exists k'. split; [done|]. split.
      * intros Hq. apply elem_of_cons in Hq as [->|Hq]; [done|].
        specialize (Hin Hq). lia.
      * intros Hq. apply Hout. intros Hq'. apply Hq. by right.
Qed.

Lemma reindex_lookup_None q : ∀ k h b, h !! b = None → reindex k q h !! b = None.
Proof.
  intros k h b Hb. apply lookup_ge_None. rewrite reindex_length.
  by apply lookup_ge_None.
Qed.




End QueueFacts.

(** ** The worker's operations *)

Section RunnerFacts.
Context {F : Type} `{!FlapLog F}.
Implicit Types (g : runner F) (i inst : instance F) (a b : nat) (q : list nat)
  (h : list (instance F)).

Lemma expiry_ttl_positive s state exp :
  expiry s state = (Some exp, None) → 0 < TTL exp.
Proof.
  unfold expiry. destruct (states s !! state); [|done].
  case_decide; [|done]. by intros [= <-].
Qed.


Lemma set_index_id i : set_index (i_index i) i = i.
Proof. by destruct i. Qed.

(** The queue operations only rewrite index fields of the store. *)
Lemma q_update_lookup a q h b i :
  h !! b = Some i → ∃ k, (q_update a q h).2 !! b = Some (set_index k i).
Proof.
  intros Hb. destruct (reindex_lookup q 0 h b i Hb) as (k & Hk & _). by exists k.
Qed.

Lemma enqueue_lookup a q h b i :
  h !! b = Some i → ∃ k, (enqueue a q h).2 !! b = Some (set_index k i).
Proof.
  intros Hb. destruct (reindex_lookup (q ++ [a]) 0 h b i Hb) as (k & Hk & _).
  by exists k.
Qed.

Lemma remove_lookup a q h b i :
  h !! b = Some i → ∃ k, (remove a q h).2 !! b = Some (set_index k i).
Proof.
  intros Hb. unfold remove. cbn [snd].
  destruct (decide (a = b)) as [->|Hne].
  - destruct (reindex_lookup (filter (λ c, c ≠ b) q) 0
                (alter (set_index (-1)) b h) b (set_index (-1) i)) as (k & Hk & _).
    { by rewrite list_lookup_alter_eq, Hb. }
    exists k. by rewrite Hk, set_index_set_index.
  - destruct (reindex_lookup (filter (λ c, c ≠ a) q) 0
                (alter (set_index (-1)) a h) b i) as (k & Hk & _).
    { by rewrite list_lookup_alter_ne. }
    by exists k.
Qed.

(** [processDeadline] on a live instance: the instance is updated, only its
    index may differ from [update]'s result, and nothing but the store and
    the queue changes. *)
Lemma processDeadline_lookup g a state exp inst :
  expiry (g_spec g) state = (exp, None) →
  g_heap g !! a = Some inst →
  ∃ g' k,
    processDeadline g a state = (g', None) ∧
    g_heap g' !! a = Some (set_index k (update inst state (g_now g) (from_option TTL 0 exp))) ∧
    g_spec g' = g_spec g ∧ g_options g' = g_options g ∧ g_now g' = g_now g ∧
    g_next g' = g_next g ∧ g_running g' = g_running g ∧ g_events g' = g_events g ∧
    chan g' = chan g ∧ g_errors g' = g_errors g.
Proof.
  intros Hexp Ha. unfold processDeadline. rewrite Hexp. cbn [set_heap g_heap].
  set (inst' := update inst state (ct g) (from_option TTL 0 exp)).
  set (h1 := alter _ a (g_heap g)).
  assert (Hl : h1 !! a = Some inst') by (subst h1; by rewrite list_lookup_alter_eq, Ha).
  rewrite Hl.
  destruct (q_update_lookup a (g_deadlines g) h1 a inst' Hl) as [k1 Hk1].
  destruct (remove_lookup a (g_deadlines g) h1 a inst' Hl) as [k2 Hk2].
  destruct (enqueue_lookup a (g_deadlines g) h1 a inst' Hl) as [k3 Hk3].
  repeat case_decide.
  - eexists _, k1. split; [reflexivity|]. split; [exact Hk1|done].
  - eexists _, k2. split; [reflexivity|]. split; [exact Hk2|done].
  - eexists _, k3. split; [reflexivity|]. split; [exact Hk3|done].
  - eexists _, (i_index inst'). split; [reflexivity|].
    split; [|done]. rewrite set_index_id. exact Hl.
Qed.

(** Other instances keep everything but their index. *)
Lemma processDeadline_lookup_other g a state b i :
  a ≠ b → g_heap g !! b = Some i →
  ∃ k, g_heap (processDeadline g a state).1 !! b = Some (set_index k i).
Proof.
  intros Hne Hb. unfold processDeadline.
  destruct (expiry (g_spec g) state) as [exp [err|]].
  { exists (i_index i). cbn. by rewrite Hb, set_index_id. }
  cbn [set_heap g_heap].
  set (h1 := alter _ a (g_heap g)).
  assert (Hl : h1 !! b = Some i) by (subst h1; by rewrite list_lookup_alter_ne).
  destruct (q_update_lookup a (g_deadlines g) h1 b i Hl) as [k1 Hk1].
  destruct (remove_lookup a (g_deadlines g) h1 b i Hl) as [k2 Hk2].
  destruct (enqueue_lookup a (g_deadlines g) h1 b i Hl) as [k3 Hk3].
  assert (Hid : h1 !! b = Some (set_index (i_index i) i)) by (by rewrite Hl, set_index_id).
  destruct (h1 !! a) as [inst'|]; [|by eexists].
  repeat case_decide; cbn; eauto.
Qed.

(** *** The queue invariant is kept by every operation *)

Lemma Inv_ext g g' :
  g_spec g' = g_spec g → g_deadlines g' = g_deadlines g → g_heap g' = g_heap g →
  Inv g → Inv g'.
Proof.
  intros Hs Hq Hh [Hnd Hin Hout]. split; rewrite ?Hs, ?Hq, ?Hh; done.
Qed.

(** Rewriting fields other than index, deadline and state is harmless. *)
Lemma Inv_alter g a (f : instance F → instance F) :
  (∀ i, i_index (f i) = i_index i ∧ i_deadline (f i) = i_deadline i ∧
        i_state (f i) = i_state i) →
  Inv g → Inv (set_heap (alter f a (g_heap g)) g).
Proof.
  intros Hf [Hnd Hin Hout]. split; cbn; [done|..].
  - intros b Hb. destruct (Hin b Hb) as (i & Hi & Hidx & Hdl & Hexp).
    destruct (decide (a = b)) as [->|Hne].
    + exists (f i). rewrite list_lookup_alter_eq, Hi. split; [done|].
      unfold queued_ok. destruct (Hf i) as (-> & -> & ->). done.
    + exists i. by rewrite list_lookup_alter_ne.
  - intros b i Hi Hb. destruct (decide (a = b)) as [->|Hne].
    + rewrite list_lookup_alter_eq in Hi.
      destruct (g_heap g !! b) as [j|] eqn:Hj; [|done].
      injection Hi as <-. destruct (Hf j) as (-> & _). eauto.
    + rewrite list_lookup_alter_ne in Hi by done. eauto.
Qed.

(** Re-establishing the invariant after the positions were recomputed. *)
Lemma Inv_reindex g q h :
  NoDup q →
  (∀ b, b ∈ q → ∃ i, h !! b = Some i ∧ 0 < i_deadline i ∧
                      ∃ exp, expiry (g_spec g) (i_state i) = (Some exp, None)) →
  (∀ b i, h !! b = Some i → b ∉ q → i_index i = -1) →
  Inv (set_queue (q, reindex 0 q h) g).
Proof.
  intros Hnd Hin Hout. split; cbn; [done|..].
  - intros b Hb. destruct (Hin b Hb) as (i & Hi & Hdl & Hexp).
    destruct (reindex_lookup q 0 h b i Hi) as (k & Hk & Hge & _).
    exists (set_index k i). split; [done|]. split; [cbn; auto|]. done.
  - intros b i Hi Hb. rewrite reindex_lookup_notin in Hi by done. eauto.
Qed.

Lemma update_fields inst state now ttl :
  i_index (update inst state now ttl) = i_index inst ∧
  i_state (update inst state now ttl) = state ∧
  i_deadline (update inst state now ttl) = (if decide (0 < ttl) then wrap64 (now + ttl) else 0).
Proof. done. Qed.

Lemma processDeadline_Inv g a state : Inv g → Inv (processDeadline g a state).1.
Proof.
  intros HI. pose proof HI as [Hnd Hin Hout]. unfold processDeadline.
  destruct (expiry (g_spec g) state) as [exp [err|]] eqn:Hexp; [done|].
  cbn [set_heap g_heap g_deadlines].
  set (f := λ i, update i state (ct g) (from_option TTL 0 exp)).
  set (h1 := alter f a (g_heap g)).
  assert (Hsame : ∀ b, b ≠ a → h1 !! b = g_heap g !! b).
  { intros b Hne. subst h1. by apply list_lookup_alter_ne. }
  destruct (g_heap g !! a) as [inst|] eqn:Ha.
  2:{ assert (Hl : h1 !! a = None) by (subst h1; by rewrite list_lookup_alter_eq, Ha).
      rewrite Hl. cbn.
      assert (Heq : h1 = g_heap g).
      { apply list_eq. intros b. destruct (decide (b = a)) as [->|Hne]; [congruence|auto]. }
      fold h1. rewrite Heq. by destruct g. }
  assert (Hl : h1 !! a = Some (f inst)) by (subst h1; by rewrite list_lookup_alter_eq, Ha).
  rewrite Hl.
  assert (Hok : 0 < i_deadline (f inst) →
                ∃ e, expiry (g_spec g) (i_state (f inst)) = (Some e, None)).
  { subst f. cbn. case_decide as Hd; [|lia]. intros _.
    destruct exp as [e|]; [by exists e|]. cbn in Hd. lia. }
  assert (Hidx : i_index (f inst) = i_index inst) by done.
  assert (Hqa : -1 < i_index inst → a ∈ g_deadlines g).
  { intros Hlt. destruct (decide (a ∈ g_deadlines g)) as [|Hn]; [done|].
    specialize (Hout a inst Ha Hn). lia. }
  assert (Hnqa : ¬ -1 < i_index inst → a ∉ g_deadlines g).
  { intros Hlt Hq. destruct (Hin a Hq) as (i & Hi & Hge & _).
    rewrite Ha in Hi. injection Hi as <-. lia. }
  rewrite Hidx.
  repeat case_decide.
  - (* update in place *)
    apply Inv_reindex; [done|..].
    + intros b Hb. destruct (decide (b = a)) as [->|Hne].
      * exists (f inst). auto.
      * rewrite Hsame by done. destruct (Hin b Hb) as (i & Hi & _ & Hd & He). eauto.
    + intros b i Hi Hb. rewrite Hsame in Hi by (intros ->; auto). eauto.
  - (* remove *)
    apply Inv_reindex.
    + by apply NoDup_filter.
    + intros b Hb. apply list_elem_of_filter in Hb as [Hne Hb].
      rewrite list_lookup_alter_ne, Hsame by done.
      destruct (Hin b Hb) as (i & Hi & _ & Hd & He). eauto.
    + intros b i Hi Hb. destruct (decide (b = a)) as [->|Hne].
      * rewrite list_lookup_alter_eq, Hl in Hi. by injection Hi as <-.
      * rewrite list_lookup_alter_ne, Hsame in Hi by done.
        apply (Hout b i Hi). intros Hq. apply Hb. by apply list_elem_of_filter.
  - (* enqueue *)
    apply Inv_reindex.
    + apply NoDup_app. split; [done|]. split; [|apply NoDup_singleton].
      intros b Hb ->%list_elem_of_singleton. by apply Hnqa.
    + intros b Hb. apply elem_of_app in Hb as [Hb| ->%list_elem_of_singleton].
      * assert (b ≠ a) by (intros ->; by apply Hnqa).
        rewrite Hsame by done. destruct (Hin b Hb) as (i & Hi & _ & Hd & He). eauto.
      * exists (f inst). auto.
    + intros b i Hi Hb. apply not_elem_of_app in Hb as [Hb Hne].
      rewrite Hsame in Hi; [eauto|]. intros ->. apply Hne. left.
  - (* nothing to do *)
    split; cbn; [done|..].
    + intros b Hb. assert (b ≠ a) by (intros ->; by apply Hnqa).
      fold f. fold h1. rewrite Hsame by done. auto.
    + intros b i Hi Hb. fold f in Hi. fold h1 in Hi.
      destruct (decide (b = a)) as [->|Hne].
      * rewrite Hl in Hi. injection Hi as <-. rewrite Hidx. eauto.
      * rewrite Hsame in Hi by done. eauto.
Qed.

Lemma remove_Inv g a :
  Inv g → Inv (set_queue (remove a (g_deadlines g) (g_heap g)) g).
Proof.
  intros [Hnd Hin Hout]. unfold remove. apply Inv_reindex.
  - by apply NoDup_filter.
  - intros b Hb. apply list_elem_of_filter in Hb as [Hne Hb].
    rewrite list_lookup_alter_ne by done.
    destruct (Hin b Hb) as (i & Hi & _ & Hd & He). eauto.
  - intros b i Hi Hb. destruct (decide (b = a)) as [->|Hne].
    + rewrite list_lookup_alter_eq in Hi.
      destruct (g_heap g !! a); [|done]. by injection Hi as <-.
    + rewrite list_lookup_alter_ne in Hi by done.
      apply (Hout b i Hi). intros Hq. apply Hb. by apply list_elem_of_filter.
Qed.

Lemma remove_not_elem a q h : a ∉ (remove a q h).1.
Proof. unfold remove. cbn. intros [Hne _]%list_elem_of_filter. done. Qed.

(** An instance that is not queued may change freely as long as its index
    stays −1. *)
Lemma Inv_alter_idle g a (f : instance F → instance F) :
  a ∉ g_deadlines g → (∀ i, i_index (f i) = -1) →
  Inv g → Inv (set_heap (alter f a (g_heap g)) g).
Proof.
  intros Ha Hf [Hnd Hin Hout]. split; cbn; [done|..].
  - intros b Hb. assert (a ≠ b) by (intros ->; done).
    rewrite list_lookup_alter_ne by done. auto.
  - intros b i Hi Hb. destruct (decide (a = b)) as [->|Hne].
    + rewrite list_lookup_alter_eq in Hi.
      destruct (g_heap g !! b); [|done]. injection Hi as <-. apply Hf.
    + rewrite list_lookup_alter_ne in Hi by done. eauto.
Qed.

Lemma send_frame (t : txn) g :
  let g' := send t g in
  g_spec g' = g_spec g ∧ g_options g' = g_options g ∧ g_now g' = g_now g ∧
  g_next g' = g_next g ∧ g_deadlines g' = g_deadlines g ∧
  g_running g' = g_running g ∧ g_heap g' = g_heap g ∧
  g_events g' = g_events g ∧ g_errors g' = g_errors g.
Proof. unfold send. by case_decide. Qed.

(** The outcome of a send depends on the runner through its channel and
    its options only. *)
Lemma send_chan_ext (t : txn) g1 g :
  chan g1 = chan g → g_options g1 = g_options g → chan (send t g1) = chan (send t g).
Proof.
  unfold chan. intros [= Ht Hb] Ho. unfold send.
  assert (Hiff : room g1 ↔ room g) by (unfold room; by rewrite Ht, Ho).
  destruct (decide (room g1)), (decide (room g)); cbn; try tauto; congruence.
Qed.

(** A send with room appends, and one without blocks the worker. *)
Lemma send_room (t : txn) g :
  room g → chan (send t g) = (g_transactions g ++ [t], g_blocked g).
Proof. intros Hr. unfold send. by rewrite decide_True. Qed.

Lemma send_full (t : txn) g :
  ¬ room g → chan (send t g) = (g_transactions g, true).
Proof. intros Hr. unfold send. by rewrite decide_False. Qed.

Lemma raise_frame g a sig current :
  let g' := (raise g a sig current).1 in
  g_spec g' = g_spec g ∧ g_options g' = g_options g ∧ g_now g' = g_now g ∧
  g_next g' = g_next g ∧ g_deadlines g' = g_deadlines g ∧
  g_running g' = g_running g ∧ g_heap g' = g_heap g ∧
  g_events g' = g_events g ∧ g_errors g' = g_errors g.
Proof.
  unfold raise, send. destruct (signals (g_spec g) !! sig); [|done].
  by case_decide.
Qed.

Lemma handleError_frame g err :
  let g' := handleError g err in
  g_spec g' = g_spec g ∧ g_options g' = g_options g ∧ g_now g' = g_now g ∧
  g_next g' = g_next g ∧ g_deadlines g' = g_deadlines g ∧
  g_running g' = g_running g ∧ g_heap g' = g_heap g ∧
  g_events g' = g_events g ∧ chan g' = chan g.
Proof. unfold handleError. by case_match. Qed.

Lemma raise_Inv g a sig current : Inv g → Inv (raise g a sig current).1.
Proof.
  pose proof (raise_frame g a sig current) as (? & _ & _ & _ & ? & _ & ? & _).
  by apply Inv_ext.
Qed.

Lemma handleError_Inv g err : Inv g → Inv (handleError g err).
Proof.
  pose proof (handleError_frame g err) as (? & _ & _ & _ & ? & _ & ? & _).
  by apply Inv_ext.
Qed.

Lemma processVisitLimit_Inv g a state : Inv g → Inv (processVisitLimit g a state).1.
Proof.
  intros HI. unfold processVisitLimit.
  destruct (visit (g_spec g) state) as [[limit|] [err|]]; try done.
  destruct (g_heap g !! a); [|done]. case_decide; [|done]. by apply raise_Inv.
Qed.

Lemma complete_Inv g a ev current next action :
  Inv g → Inv (complete g a ev current next action).1.
Proof.
  intros HI. unfold complete, land, invoke_action, attach_data.
  set (g1 := match e_data ev with Some d => _ | None => g end).
  assert (H1 : Inv g1).
  { subst g1. destruct (e_data ev); [|done]. by apply Inv_alter. }
  clearbody g1.
  set (p := match action with Some act => _ | None => _ end).
  assert (H2 : Inv p.1).
  { subst p. destruct action as [act|]; [|done].
    destruct (g_heap g1 !! a) as [i|]; [|done].
    destruct (act _ _); [|done].
    destruct (error _ _ _) as [alt [err|]]; [|done]. by apply handleError_Inv. }
  destruct p as [g2 next']. cbn in H2.
  pose proof (processDeadline_Inv g2 a next' H2) as H3.
  destruct (processDeadline g2 a next') as [g3 [err|]]; [done|].
  by apply processVisitLimit_Inv.
Qed.

Lemma handleEvent_Inv g a ev : Inv g → Inv (handleEvent g a ev).1.
Proof.
  intros HI. unfold handleEvent.
  destruct (g_heap g !! a) as [inst|]; [|done].
  destruct (transition _ _ _) as [[next action] [err|]]; [done|].
  destruct (flap _ _ _) as [limit|]; [|by apply complete_Inv].
  case_decide; [|by apply complete_Inv].
  assert (Inv (set_heap (alter (λ i, set_flaps (record (i_state inst) next (i_flaps i)) i)
                           a (g_heap g)) g)) by (by apply Inv_alter).
  case_decide; [by apply raise_Inv | by apply complete_Inv].
Qed.

Lemma drain_Inv n now : ∀ g, Inv g → Inv (drain n now g).1.
Proof.
  induction n as [|n IH]; intros g HI; cbn [drain]; [done|].
  destruct (peek (g_deadlines g) (g_heap g)) as [a|] eqn:Hp; [|done].
  case_decide; [done|].
  unfold dequeue. unfold peek in Hp. rewrite Hp. cbn [snd].
  pose proof (remove_Inv g a HI) as H1.
  pose proof (remove_not_elem a (g_deadlines g) (g_heap g)) as Hn.
  set (g1 := set_queue (remove a (g_deadlines g) (g_heap g)) g) in *.
  assert (Hreset : ∀ g', Inv g' → g_deadlines g' = g_deadlines g1 →
     Inv (set_heap (alter (λ i, set_index (-1) (set_deadline (-1) i)) a (g_heap g')) g')).
  { intros g' HI' Hq. apply Inv_alter_idle; [by rewrite Hq|done|done]. }
  destruct (g_heap g1 !! a) as [inst|]; [|done].
  case_decide.
  - destruct (expiry _ _) as [[ttl|] [err|]]; try done.
    + cbn zeta. destruct (g_blocked _); [cbn [fst]; by apply raise_Inv|].
      apply IH, Hreset; [by apply raise_Inv|].
      by pose proof (raise_frame g1 a (Expiry_Raise ttl) (i_state inst))
        as (_ & _ & _ & _ & ? & _).
    + by apply IH, Hreset.
  - by apply IH, Hreset.
Qed.

Lemma alloc_Inv g initial : Inv g → Inv (alloc g initial).1.1.
Proof.
  intros HI. unfold alloc.
  set (new := mkInstance _ _ _ _ _ _ _ _).
  set (g0 := set_next _ g).
  assert (H0 : Inv g0) by (by apply (Inv_ext g)).
  set (g1 := set_heap (g_heap g0 ++ [new]) g0).
  assert (H1 : Inv g1).
  { destruct H0 as [Hnd Hin Hout]. split; cbn; [done|..].
    - intros b Hb. destruct (Hin b Hb) as (i & Hi & Hok).
      exists i. split; [|done]. by apply lookup_app_l_Some.
    - intros b i Hi Hb. apply lookup_snoc_Some in Hi as [[_ Hi]|[_ <-]]; [|done].
      eauto. }
  pose proof (processDeadline_Inv g1 (length (g_heap g0)) initial H1) as H2.
  by destruct (processDeadline g1 _ initial) as [g2 [err|]].
Qed.

Lemma run_txn_Inv g t : Inv g → Inv (run_txn g t).
Proof.
  intros HI. unfold run_txn.
  set (p := match t with TxClockTick => _ | TxEvent ev => _ | TxRead => _ end).
  assert (Hp : Inv p.1).
  { subst p. destruct t; [|by apply handleEvent_Inv|done].
    unfold handleClockTick. apply drain_Inv. by apply (Inv_ext g). }
  destruct p as [g' [err|]]; [by apply handleError_Inv|done].
Qed.

Lemma step_Inv g g' : step g g' → Inv g → Inv g'.
Proof.
  intros Hstep HI. destruct Hstep.
  - by apply alloc_Inv.
  - unfold signal. destruct (signals _ !! _); [|done]. by apply (Inv_ext g).
  - by apply (Inv_ext g).
  - by apply (Inv_ext g).
  - by apply (Inv_ext g).
  - by apply (Inv_ext g).
  - apply (Inv_ext (run_txn g t)); try done. by apply run_txn_Inv.
  - unfold Stop. destruct (g_running g); [|done]. by apply (Inv_ext g).
Qed.

Lemma newRunner_Inv s optional g :
  newRunner s optional = Returns (Some g, None) → Inv g.
Proof.
  unfold newRunner. destruct (if decide _ then _ else _) as [s' [err|]]; [done|].
  case_decide; [done|].
  intros [= <-]. split; cbn.
  - apply NoDup_nil_2.
  - intros a Ha. by apply elem_of_nil in Ha.
  - done.
Qed.

Lemma reachable_Inv s optional g : reachable s optional g → Inv g.
Proof.
  induction 1 as [g Hnew | g g' _ IH Hstep].
  - apply (Inv_ext g); try done. by eapply newRunner_Inv.
  - by eapply step_Inv.
Qed.

End RunnerFacts.

(** ** The transition handler *)

Section HandlerFacts.
Context {F : Type} `{!FlapLog F}.
Implicit Types (g : runner F) (i inst : instance F) (a b : nat).

Lemma expiry_of_state s state st :
  states s !! state = Some st →
  ∃ exp, expiry s state = (exp, None) ∧ from_option TTL 0 exp = ttl_of st.
Proof.
  intros Hst. unfold expiry, ttl_of. rewrite Hst.
  case_decide; eexists; (split; [reflexivity|done]).
Qed.

(** Landing in a defined state: the instance is updated, the queue is
    reconciled, and the visit-cap event is posted exactly when the cap test
    holds. *)
Lemma land_spec g a target inst st :
  wf_spec (g_spec g) →
  states (g_spec g) !! target = Some st →
  g_heap g !! a = Some inst →
  let inst' := update inst target (g_now g) (ttl_of st) in
  ∃ g' k,
    land g a target = (g', None) ∧
    g_heap g' !! a = Some (set_index k inst') ∧
    chan g' =
      chan (if decide (capped st target inst')
            then send (visit_event st a inst') g else g) ∧
    g_errors g' = g_errors g ∧ g_spec g' = g_spec g ∧ g_now g' = g_now g ∧
    g_options g' = g_options g ∧ g_events g' = g_events g.
Proof.
  intros Hwf Hst Ha inst'.
  destruct (expiry_of_state _ _ _ Hst) as (exp & Hexp & Httl).
  destruct (processDeadline_lookup g a target exp inst Hexp Ha)
    as (g1 & k & Hpd & Hl & Hs & Ho & Hn & _ & _ & He & Ht & Her).
  rewrite Httl in Hl. fold inst' in Hl.
  unfold land. rewrite Hpd. unfold processVisitLimit, visit. rewrite Hs, Hst, Hl.
  unfold capped. cbn [set_index i_visits].
  destruct (decide (0 < Value (Visit st))) as [Hv|Hv].
  - destruct (decide (0 < Value (Visit st) ∧ _)) as [Hc|Hc].
    + destruct (wf_visit_raise _ Hwf target st Hst Hv) as [x Hx].
      unfold raise. rewrite Hs, Hx. eexists _, k. split; [reflexivity|].
      cbn [fst]. unfold id_at. rewrite Hl. cbn [from_option i_id set_index].
      change (TxEvent _) with (visit_event st a inst').
      pose proof (send_frame (visit_event st a inst') g1) as (? & ? & ? & ? & ? & ? & ? & ? & ?).
      split; [congruence|]. split; [by apply send_chan_ext|].
      repeat split; congruence.
    + exists g1, k. repeat split; done.
  - rewrite decide_False by tauto. exists g1, k. repeat split; done.
Qed.

Lemma transition_ok s current sig next action :
  transition s current sig = (next, action, None) →
  ∃ st, states s !! current = Some st ∧ is_Some (signals s !! sig) ∧
        Transitions st !! sig = Some next ∧
        action = default None (Actions st !! sig).
Proof.
  unfold transition. destruct (states s !! current) as [st|]; [|done].
  case_decide; [done|].
  destruct (signals s !! sig) eqn:Hsig; [|done].
  destruct (Transitions st !! sig) eqn:Htr; [|done].
  intros [= -> <-]. exists st. eauto.
Qed.

Lemma attach_data_spec g a ev inst :
  g_heap g !! a = Some inst →
  let g' := attach_data g a ev in
  g_heap g' !! a = Some (attached ev inst) ∧
  g_spec g' = g_spec g ∧ g_options g' = g_options g ∧ g_now g' = g_now g ∧
  g_deadlines g' = g_deadlines g ∧ g_events g' = g_events g ∧
  chan g' = chan g ∧ g_errors g' = g_errors g.
Proof.
  intros Ha. unfold attach_data, attached. destruct (e_data ev); cbn; [|done].
  by rewrite list_lookup_alter_eq, Ha.
Qed.

(** The three ways the action step ends. *)
Lemma invoke_action_quiet g a ev current next action inst :
  g_heap g !! a = Some inst →
  (∀ act : ActionFn, action = Some act → act (i_id inst) (i_data inst) = None) →
  invoke_action g a ev current next action = (g, next).
Proof.
  intros Ha Hq. unfold invoke_action. rewrite Ha.
  destruct action as [act|]; [|done]. by rewrite (Hq act eq_refl).
Qed.

Lemma invoke_action_redirect g a ev current next (act : ActionFn) inst msg alt :
  g_heap g !! a = Some inst →
  act (i_id inst) (i_data inst) = Some msg →
  error (g_spec g) current (e_signal ev) = (alt, None) →
  invoke_action g a ev current next (Some act) = (g, alt).
Proof. intros Ha Hf He. unfold invoke_action. by rewrite Ha, Hf, He. Qed.

Lemma invoke_action_unhandled g a ev current next (act : ActionFn) inst msg x err :
  g_heap g !! a = Some inst →
  act (i_id inst) (i_data inst) = Some msg →
  error (g_spec g) current (e_signal ev) = (x, Some err) →
  invoke_action g a ev current next (Some act) = (handleError g err, next).
Proof. intros Ha Hf He. unfold invoke_action. by rewrite Ha, Hf, He. Qed.

(** Whatever the action does, the step leaves the store, the queue, the
    spec and the channels alone; only the errors channel may get an offer. *)
Lemma invoke_action_frame g a ev current next action :
  let g' := (invoke_action g a ev current next action).1 in
  g_spec g' = g_spec g ∧ g_options g' = g_options g ∧ g_now g' = g_now g ∧
  g_deadlines g' = g_deadlines g ∧ g_heap g' = g_heap g ∧
  g_events g' = g_events g ∧ chan g' = chan g.
Proof.
  unfold invoke_action. destruct action as [act|]; [|done].
  destruct (g_heap g !! a) as [inst|]; [|done].
  destruct (act _ _); [|done].
  destruct (error _ _ _) as [alt [err|]]; [|done].
  pose proof (handleError_frame g err) as (? & ? & ? & ? & ? & ? & ? & ? & ?).
  cbn [fst]. repeat split; done.
Qed.

(** Where the action step leaves [next]. *)
Lemma invoke_action_lands g a ev current next action inst st :
  g_heap g !! a = Some inst →
  states (g_spec g) !! current = Some st →
  is_Some (signals (g_spec g) !! e_signal ev) →
  (invoke_action g a ev current next action).2 =
    landing st (e_signal ev) next (failed action inst).
Proof.
  intros Ha Hst [x Hx]. unfold invoke_action, landing, failed. rewrite Ha.
  destruct action as [act|]; [|done].
  destruct (act (i_id inst) (i_data inst)); [|done].
  unfold error. rewrite Hst, Hx. by destruct (Errors st !! e_signal ev).
Qed.

Lemma landing_defined s (cur : Index) st sig next (fl : bool) :
  wf_spec s → states s !! cur = Some st → is_Some (states s !! next) →
  is_Some (states s !! landing st sig next fl).
Proof.
  intros Hwf Hst Hnext. unfold landing. destruct fl; [|done].
  destruct (Errors st !! sig) as [alt|] eqn:Halt; [|done].
  by apply (wf_errors _ Hwf cur st sig alt).
Qed.

(** When the flap test does not trip, [handleEvent] is the rest of the
    handler run on the instance with its flap bookkeeping done. *)
Lemma handleEvent_proceeds g a ev inst next action :
  g_heap g !! a = Some inst →
  transition (g_spec g) (i_state inst) (e_signal ev) = (next, action, None) →
  ¬ flap_trips (g_spec g) (i_state inst) next (i_flaps inst) →
  ∃ g1,
    handleEvent g a ev = complete g1 a ev (i_state inst) next action ∧
    g_heap g1 !! a = Some (recorded (g_spec g) (i_state inst) next inst) ∧
    g_spec g1 = g_spec g ∧ g_options g1 = g_options g ∧ g_now g1 = g_now g ∧
    g_deadlines g1 = g_deadlines g ∧ g_events g1 = g_events g ∧
    chan g1 = chan g ∧ g_errors g1 = g_errors g.
Proof.
  intros Ha Htr Hno. unfold handleEvent, recorded. rewrite Ha, Htr.
  destruct (flap _ _ _) as [limit|] eqn:Hfl; [|by exists g].
  case_decide as Hc; [|by exists g].
  case_decide as Hn.
  { exfalso. apply Hno. exists limit. done. }
  eexists. split; [reflexivity|]. cbn.
  by rewrite list_lookup_alter_eq, Ha.
Qed.

(** When it trips, the handler records, raises and returns. *)
Lemma handleEvent_trips g a ev inst next action limit :
  g_heap g !! a = Some inst →
  transition (g_spec g) (i_state inst) (e_signal ev) = (next, action, None) →
  flap (g_spec g) (i_state inst) next = Some limit →
  0 < Count limit →
  Count limit ≤ count (i_state inst) next (record (i_state inst) next (i_flaps inst)) →
  ∃ g',
    handleEvent g a ev = (g', None) ∧
    g_heap g' =
      alter (λ i, set_flaps (record (i_state inst) next (i_flaps i)) i) a (g_heap g) ∧
    chan g' =
      chan (match signals (g_spec g) !! Flap_Raise limit with
            | Some _ => send (flap_event limit a inst) g
            | None => g
            end) ∧
    g_spec g' = g_spec g ∧ g_options g' = g_options g ∧ g_now g' = g_now g ∧
    g_next g' = g_next g ∧ g_deadlines g' = g_deadlines g ∧
    g_events g' = g_events g ∧ g_errors g' = g_errors g.
Proof.
  intros Ha Htr Hfl Hc Hn. unfold handleEvent. rewrite Ha, Htr, Hfl.
  rewrite !decide_True by done.
  eexists. split; [reflexivity|]. unfold raise. cbn [g_spec set_heap].
  destruct (signals (g_spec g) !! Flap_Raise limit) eqn:Hs; cbn [fst]; [|done].
  set (g1 := set_heap _ g).
  assert (Hid : id_at (g_heap g1) a = i_id inst).
  { unfold id_at, g1. cbn [g_heap set_heap]. by rewrite list_lookup_alter_eq, Ha. }
  rewrite Hid. change (TxEvent _) with (flap_event limit a inst).
  pose proof (send_frame (flap_event limit a inst) g1) as (? & ? & ? & ? & ? & ? & ? & ? & ?).
  split; [done|]. split; [by apply send_chan_ext|]. repeat split; done.
Qed.

(** The rest of the handler, once the landing state is known to be defined. *)
Lemma complete_spec g a ev current next action inst target st :
  wf_spec (g_spec g) →
  g_heap g !! a = Some inst →
  (invoke_action (attach_data g a ev) a ev current next action).2 = target →
  states (g_spec g) !! target = Some st →
  let inst' := update (attached ev inst) target (g_now g) (ttl_of st) in
  ∃ g' k,
    complete g a ev current next action = (g', None) ∧
    g_heap g' !! a = Some (set_index k inst') ∧
    chan g' =
      chan (if decide (capped st target inst')
            then send (visit_event st a inst') g else g) ∧
    g_errors g' =
      g_errors (invoke_action (attach_data g a ev) a ev current next action).1 ∧
    g_spec g' = g_spec g ∧ g_now g' = g_now g ∧ g_options g' = g_options g.
Proof.
  intros Hwf Ha Htgt Hst inst'.
  destruct (attach_data_spec g a ev inst Ha) as (Ha1 & Hs1 & Ho1 & Hn1 & Hq1 & He1 & Ht1 & Her1).
  pose proof (invoke_action_frame (attach_data g a ev) a ev current next action)
    as (Hs2 & Ho2 & Hn2 & Hq2 & Hh2 & He2 & Ht2).
  unfold complete.
  destruct (invoke_action (attach_data g a ev) a ev current next action) as [g2 tgt].
  cbn [fst snd] in *. subst tgt.
  destruct (land_spec g2 a target (attached ev inst) st) as (g' & k & Hl & Hh & Ht & Her & Hs & Hn & Ho & _).
  { by rewrite Hs2, Hs1. }
  { by rewrite Hs2, Hs1. }
  { by rewrite Hh2. }
  exists g', k. cbn zeta in Hh, Ht. rewrite Hn2, Hn1 in Hh, Ht. fold inst' in Hh, Ht.
  split; [done|]. split; [done|]. split.
  { rewrite Ht. case_decide; [|congruence].
    apply send_chan_ext; congruence. }
  repeat split; congruence.
Qed.

End HandlerFacts.

(** ** Properties of the handlers *)

Section HandlerTheorems.
Context {F : Type} `{!FlapLog F}.
Implicit Types (g : runner F) (i inst : instance F) (a b : nat).

Lemma recorded_fields s current next inst :
  i_id (recorded s current next inst) = i_id inst ∧
  i_state (recorded s current next inst) = i_state inst ∧
  i_data (recorded s current next inst) = i_data inst ∧
  i_visits (recorded s current next inst) = i_visits inst ∧
  i_deadline (recorded s current next inst) = i_deadline inst ∧
  i_index (recorded s current next inst) = i_index inst.
Proof.
  unfold recorded. destruct (flap s current next); [|done]. by case_decide.
Qed.

Lemma attached_fields ev inst :
  i_id (attached ev inst) = i_id inst ∧
  i_state (attached ev inst) = i_state inst ∧
  i_flaps (attached ev inst) = i_flaps inst ∧
  i_visits (attached ev inst) = i_visits inst ∧
  i_data (attached ev inst) = (match e_data ev with Some d => Some d | None => i_data inst end).
Proof. unfold attached. by destruct (e_data ev). Qed.

Lemma attached_recorded_data ev s current next inst :
  i_data (attached ev (recorded s current next inst)) = i_data (attached ev inst).
Proof.
  destruct (attached_fields ev (recorded s current next inst)) as (_ & _ & _ & _ & ->).
  destruct (attached_fields ev inst) as (_ & _ & _ & _ & ->).
  by destruct (recorded_fields s current next inst) as (_ & _ & -> & _).
Qed.

(** C2 (as amended): when the action invoked by the transition handler
    returns an error, an alternate declared in the current state's Errors map
    for the signal becomes the state the instance lands in, and nothing is
    offered on the errors channel; without such an entry the instance lands
    in the originally computed next state, and the failed lookup
    (UnknownTransition) is offered on the errors channel unless the option
    IgnoreUndefinedTransitions is set, in which case nothing is reported. *)
Theorem action_error_redirects g a ev inst st next (act : ActionFn) msg :
  wf_spec (g_spec g) →
  g_heap g !! a = Some inst →
  states (g_spec g) !! i_state inst = Some st →
  transition (g_spec g) (i_state inst) (e_signal ev) = (next, Some act, None) →
  ¬ flap_trips (g_spec g) (i_state inst) next (i_flaps inst) →
  act (i_id inst) (i_data (attached ev inst)) = Some msg →
  (∀ alt, Errors st !! e_signal ev = Some alt →
     ∃ g' inst', handleEvent g a ev = (g', None) ∧
       g_heap g' !! a = Some inst' ∧ i_state inst' = alt ∧
       g_errors g' = g_errors g) ∧
  (Errors st !! e_signal ev = None →
     ∃ g' inst', handleEvent g a ev = (g', None) ∧
       g_heap g' !! a = Some inst' ∧ i_state inst' = next ∧
       g_errors g' =
         if IgnoreUndefinedTransitions (g_options g) then g_errors g
         else g_errors g ++ [ErrUnknownTransition (e_signal ev) (i_state inst)]).
Proof.
  intros Hwf Ha Hst Htr Hno Hact.
  destruct (handleEvent_proceeds g a ev inst next (Some act) Ha Htr Hno)
    as (g1 & Hhe & Ha1 & Hs1 & Ho1 & Hn1 & Hq1 & He1 & Ht1 & Her1).
  set (r := recorded (g_spec g) (i_state inst) next inst) in *.
  destruct (transition_ok _ _ _ _ _ Htr) as (st' & Hst' & [x Hsig] & Hnext & _).
  rewrite Hst in Hst'. injection Hst' as <-.
  destruct (attach_data_spec g1 a ev r Ha1) as (Ha2 & Hs2 & Ho2 & _ & _ & _ & _ & Her2).
  assert (Hfail : act (i_id (attached ev r)) (i_data (attached ev r)) = Some msg).
  { subst r. rewrite attached_recorded_data.
    destruct (attached_fields ev (recorded (g_spec g) (i_state inst) next inst)) as (-> & _).
    by destruct (recorded_fields (g_spec g) (i_state inst) next inst) as (-> & _). }
  rewrite Hhe. split.
  - intros alt Halt.
    assert (Herr : error (g_spec (attach_data g1 a ev)) (i_state inst) (e_signal ev) = (alt, None)).
    { unfold error. by rewrite Hs2, Hs1, Hst, Hsig, Halt. }
    pose proof (invoke_action_redirect _ a ev _ next act _ msg alt Ha2 Hfail Herr) as Hia.
    destruct (wf_errors _ Hwf _ _ _ _ Hst Halt) as [stA HstA].
    destruct (complete_spec g1 a ev (i_state inst) next (Some act) r alt stA)
      as (g' & k & Hc & Hh & _ & Her & _).
    1: by rewrite Hs1. 1: done. 1: by rewrite Hia. 1: by rewrite Hs1.
    exists g', (set_index k (update (attached ev r) alt (g_now g1) (ttl_of stA))).
    repeat split; try done. rewrite Her, Hia. cbn. congruence.
  - intros Hnone.
    assert (Herr : error (g_spec (attach_data g1 a ev)) (i_state inst) (e_signal ev)
                   = (0, Some (ErrUnknownTransition (e_signal ev) (i_state inst)))).
    { unfold error. by rewrite Hs2, Hs1, Hst, Hsig, Hnone. }
    pose proof (invoke_action_unhandled _ a ev _ next act _ msg _ _ Ha2 Hfail Herr) as Hia.
    destruct (wf_transitions _ Hwf _ _ _ _ Hst Hnext) as [stN HstN].
    destruct (complete_spec g1 a ev (i_state inst) next (Some act) r next stN)
      as (g' & k & Hc & Hh & _ & Her & _).
    1: by rewrite Hs1. 1: done. 1: by rewrite Hia. 1: by rewrite Hs1.
    exists g', (set_index k (update (attached ev r) next (g_now g1) (ttl_of stN))).
    repeat split; try done. rewrite Her, Hia. cbn.
    unfold handleError. rewrite Ho2, Ho1.
    destruct (IgnoreUndefinedTransitions (g_options g)); cbn; congruence.
Qed.

(** A transition that passes the flap check completes: the instance lands
    in [next] or in the alternate of a failed action, a state of the spec,
    and the one send the handler may make is that of the visit-cap event of
    that state. *)
Lemma handleEvent_completes g a ev inst st0 next action :
  wf_spec (g_spec g) →
  g_heap g !! a = Some inst →
  states (g_spec g) !! i_state inst = Some st0 →
  transition (g_spec g) (i_state inst) (e_signal ev) = (next, action, None) →
  ¬ flap_trips (g_spec g) (i_state inst) next (i_flaps inst) →
  let r := recorded (g_spec g) (i_state inst) next inst in
  let target := landing st0 (e_signal ev) next (failed action (attached ev inst)) in
  ∃ g' k st,
    handleEvent g a ev = (g', None) ∧
    states (g_spec g) !! target = Some st ∧
    g_heap g' !! a =
      Some (set_index k (update (attached ev r) target (g_now g) (ttl_of st))) ∧
    chan g' =
      chan (if decide (capped st target
                         (update (attached ev r) target (g_now g) (ttl_of st)))
            then send (visit_event st a
                         (update (attached ev r) target (g_now g) (ttl_of st))) g
            else g).
Proof.
  intros Hwf Ha Hst0 Htr Hno r target.
  destruct (handleEvent_proceeds g a ev inst next action Ha Htr Hno)
    as (g1 & Hhe & Ha1 & Hs1 & Ho1 & Hn1 & Hq1 & He1 & Ht1 & Her1).
  fold r in Ha1.
  destruct (transition_ok _ _ _ _ _ Htr) as (st' & Hst' & Hsig & Hnext & _).
  rewrite Hst0 in Hst'. injection Hst' as <-.
  destruct (attach_data_spec g1 a ev r Ha1) as (Ha2 & Hs2 & _).
  assert (Hfl : failed action (attached ev r) = failed action (attached ev inst)).
  { unfold failed, r. rewrite attached_recorded_data.
    destruct (attached_fields ev (recorded (g_spec g) (i_state inst) next inst)) as (-> & _).
    destruct (attached_fields ev inst) as (-> & _).
    by destruct (recorded_fields (g_spec g) (i_state inst) next inst) as (-> & _). }
  assert (Htgt : (invoke_action (attach_data g1 a ev) a ev (i_state inst) next action).2
                 = target).
  { rewrite (invoke_action_lands _ a ev _ next action (attached ev r) st0 Ha2).
    - unfold target. by rewrite Hfl.
    - by rewrite Hs2, Hs1.
    - by rewrite Hs2, Hs1. }
  destruct (landing_defined (g_spec g) (i_state inst) st0 (e_signal ev) next
              (failed action (attached ev inst)) Hwf Hst0) as [st Hst].
  { by apply (wf_transitions _ Hwf _ _ _ _ Hst0 Hnext). }
  fold target in Hst.
  destruct (complete_spec g1 a ev (i_state inst) next action r target st)
    as (g' & k & Hc & Hh & Ht & _).
  1: by rewrite Hs1. 1: done. 1: done. 1: by rewrite Hs1.
  cbn zeta in Hh, Ht. rewrite Hn1 in Hh, Ht.
  exists g', k, st. rewrite Hhe. split; [done|]. split; [done|]. split; [done|].
  rewrite Ht. case_decide; [|done]. by apply send_chan_ext.
Qed.

(** C5 (as amended): after a completed transition the handler makes the
    send of the visit-cap event of the state the instance landed in iff that
    state declares a Visit limit with Value > 0 and the instance's visit
    counter for it equals Value at that point, and it makes no other send.
    The send is on the bounded transaction channel: with room in the buffer
    the event is posted and the handler returns; on a full buffer the
    worker blocks in the send.  A state with Visit.Value = 0 never triggers
    the raise. *)
Theorem visit_cap_raised_iff g a ev inst next action :
  wf_spec (g_spec g) →
  g_heap g !! a = Some inst →
  transition (g_spec g) (i_state inst) (e_signal ev) = (next, action, None) →
  ¬ flap_trips (g_spec g) (i_state inst) next (i_flaps inst) →
  ∃ g' inst' st,
    handleEvent g a ev = (g', None) ∧
    g_heap g' !! a = Some inst' ∧
    states (g_spec g) !! i_state inst' = Some st ∧
    chan g' =
      chan (if decide (capped st (i_state inst') inst')
            then send (visit_event st a inst') g else g) ∧
    (room g →
       g_blocked g' = g_blocked g ∧
       (g_transactions g' = g_transactions g ++ [visit_event st a inst'] ↔
          0 < Value (Visit st) ∧
          default 0 (i_visits inst' !! i_state inst') = Value (Visit st)) ∧
       (g_transactions g' = g_transactions g ∨
        g_transactions g' = g_transactions g ++ [visit_event st a inst'])) ∧
    (¬ room g →
       g_transactions g' = g_transactions g ∧
       (0 < Value (Visit st) ∧
        default 0 (i_visits inst' !! i_state inst') = Value (Visit st) →
        g_blocked g' = true)) ∧
    (Value (Visit st) = 0 → chan g' = chan g).
Proof.
  intros Hwf Ha Htr Hno.
  destruct (transition_ok _ _ _ _ _ Htr) as (st0 & Hst0 & _).
  destruct (handleEvent_completes g a ev inst st0 next action Hwf Ha Hst0 Htr Hno)
    as (g' & k & st & Hhe & Hst & Hh & Hch).
  set (target := landing st0 (e_signal ev) next (failed action (attached ev inst))) in *.
  set (inst' := update _ target (g_now g) (ttl_of st)) in *.
  exists g', (set_index k inst'), st.
  split; [done|]. split; [done|]. split; [done|].
  change (i_state (set_index k inst')) with target.
  change (i_visits (set_index k inst')) with (i_visits inst').
  change (visit_event st a (set_index k inst')) with (visit_event st a inst').
  change (capped st target (set_index k inst')) with (capped st target inst').
  split; [done|].
  fold (capped st target inst').
  destruct (decide (capped st target inst')) as [Hcap|Hcap].
  - split; [|split].
    + intros Hr. rewrite (send_room _ _ Hr) in Hch. injection Hch as Ht Hb.
      split; [done|]. split; [done|]. by right.
    + intros Hr. rewrite (send_full _ _ Hr) in Hch. by injection Hch as Ht Hb.
    + destruct Hcap as [Hv _]. lia.
  - injection Hch as Ht Hb. split; [|split].
    + intros _. split; [done|]. split; [|by left]. split; [|done].
      intros Heq. rewrite Ht in Heq.
      apply (f_equal length) in Heq. rewrite length_app in Heq. cbn in Heq. lia.
    + intros _. done.
    + intros _. unfold chan. by rewrite Ht, Hb.
Qed.

(** C4 (as amended): when a Flap record with Count > 0 exists for the pair
    (current, next), the handler records the transition in the instance's
    flap log.  When the count after recording has reached the threshold it
    completes nothing of the transition and makes the send of the flap's
    signal, if that is a known signal of the spec: with room in the
    transaction buffer the event is posted and the handler returns, on a
    full buffer the worker blocks in the send; for an unknown signal nothing
    is sent.  Below the threshold the ordinary transition proceeds: the
    instance takes the event's data and lands in [next], or in the Errors
    alternate when its action fails, with its visit counter for that state
    incremented and its timer set by that state; no flap signal is raised,
    the only send being that of the visit-cap event of the state landed
    in. *)
Theorem flap_threshold g a ev inst st0 next action limit :
  wf_spec (g_spec g) →
  g_heap g !! a = Some inst →
  states (g_spec g) !! i_state inst = Some st0 →
  transition (g_spec g) (i_state inst) (e_signal ev) = (next, action, None) →
  flap (g_spec g) (i_state inst) next = Some limit →
  0 < Count limit →
  let log := record (i_state inst) next (i_flaps inst) in
  (Count limit ≤ count (i_state inst) next log →
     ∃ g', handleEvent g a ev = (g', None) ∧
       g_heap g' !! a = Some (set_flaps log inst) ∧
       (is_Some (signals (g_spec g) !! Flap_Raise limit) → room g →
          g_transactions g' = g_transactions g ++ [flap_event limit a inst] ∧
          g_blocked g' = g_blocked g) ∧
       (is_Some (signals (g_spec g) !! Flap_Raise limit) → ¬ room g →
          g_transactions g' = g_transactions g ∧ g_blocked g' = true) ∧
       (signals (g_spec g) !! Flap_Raise limit = None → chan g' = chan g)) ∧
  (count (i_state inst) next log < Count limit →
     ∃ g' inst' st,
       handleEvent g a ev = (g', None) ∧
       g_heap g' !! a = Some inst' ∧
       i_flaps inst' = log ∧
       i_state inst' =
         landing st0 (e_signal ev) next (failed action (attached ev inst)) ∧
       Data_of inst' = Data_of (attached ev inst) ∧
       states (g_spec g) !! i_state inst' = Some st ∧
       i_visits inst' !! i_state inst' =
         Some (wrap64 (default 0 (i_visits inst !! i_state inst') + 1)) ∧
       i_start inst' = g_now g ∧
       i_deadline inst' =
         (if decide (0 < TTL (State_TTL st))
          then wrap64 (g_now g + TTL (State_TTL st)) else 0) ∧
       chan g' =
         chan (if decide (capped st (i_state inst') inst')
               then send (visit_event st a inst') g else g)).
Proof.
  intros Hwf Ha Hst0 Htr Hfl Hc log. split.
  - intros Hn.
    destruct (handleEvent_trips g a ev inst next action limit Ha Htr Hfl Hc Hn)
      as (g' & Hhe & Hh & Ht & _).
    exists g'. split; [done|].
    split; [by rewrite Hh, list_lookup_alter_eq, Ha|].
    destruct (signals (g_spec g) !! Flap_Raise limit) as [x|].
    + split; [|split; [|done]].
      * intros _ Hr. rewrite (send_room _ _ Hr) in Ht. by injection Ht as ? ?.
      * intros _ Hr. rewrite (send_full _ _ Hr) in Ht. by injection Ht as ? ?.
    + split; [by intros [? ?]|]. split; [by intros [? ?]|]. done.
  - intros Hn.
    assert (Hno : ¬ flap_trips (g_spec g) (i_state inst) next (i_flaps inst)).
    { intros (l & Hl & _ & Hle). rewrite Hfl in Hl. injection Hl as <-.
      fold log in Hle. lia. }
    destruct (handleEvent_completes g a ev inst st0 next action Hwf Ha Hst0 Htr Hno)
      as (g' & k & st & Hhe & Hst & Hh & Hch).
    assert (Hr : recorded (g_spec g) (i_state inst) next inst = set_flaps log inst).
    { unfold recorded. by rewrite Hfl, decide_True. }
    rewrite Hr in Hh, Hch.
    set (target := landing st0 (e_signal ev) next (failed action (attached ev inst))) in *.
    set (inst' := update _ target (g_now g) (ttl_of st)) in *.
    exists g', (set_index k inst'), st.
    split; [done|]. split; [done|].
    split; [subst inst'; cbn; unfold attached; by destruct (e_data ev)|].
    split; [done|].
    split; [subst inst'; unfold Data_of; cbn; unfold attached; by destruct (e_data ev)|].
    split; [done|].
    split.
    { subst inst'. cbn. rewrite lookup_insert_eq. unfold attached.
      by destruct (e_data ev). }
    split; [done|].
    split; [subst inst'; cbn; unfold ttl_of; repeat case_decide; try done; lia|].
    done.
Qed.

(** C10: when the flap threshold is reached the handler returns before the
    data-attachment step: the event's data is discarded (Data() still gives
    the previous value) and the instance keeps its state, visit counters,
    deadline, start time and queue position; the queue and the other
    instances are untouched; the only thing posted is the flap event, which
    carries no data and is handled as a later transaction. *)
Theorem flap_trip_leaves_instance g a ev inst next action limit :
  g_heap g !! a = Some inst →
  transition (g_spec g) (i_state inst) (e_signal ev) = (next, action, None) →
  flap (g_spec g) (i_state inst) next = Some limit →
  0 < Count limit →
  Count limit ≤ count (i_state inst) next (record (i_state inst) next (i_flaps inst)) →
  ∃ g' inst' new,
    handleEvent g a ev = (g', None) ∧
    g_heap g' !! a = Some inst' ∧
    Data_of inst' = Data_of inst ∧
    i_state inst' = i_state inst ∧
    i_visits inst' = i_visits inst ∧
    i_deadline inst' = i_deadline inst ∧
    i_start inst' = i_start inst ∧
    i_index inst' = i_index inst ∧
    g_deadlines g' = g_deadlines g ∧
    (∀ b, b ≠ a → g_heap g' !! b = g_heap g !! b) ∧
    g_transactions g' = g_transactions g ++ new ∧
    (new = [] ∨ new = [TxEvent (mkEvent (i_id inst) a (Flap_Raise limit) None)]).
Proof.
  intros Ha Htr Hfl Hc Hn.
  destruct (handleEvent_trips g a ev inst next action limit Ha Htr Hfl Hc Hn)
    as (g' & Hhe & Hh & Ht & _ & _ & _ & _ & Hq & _).
  assert (Hnew : ∃ new, g_transactions g' = g_transactions g ++ new ∧
            (new = [] ∨ new = [TxEvent (mkEvent (i_id inst) a (Flap_Raise limit) None)])).
  { destruct (signals (g_spec g) !! Flap_Raise limit).
    - destruct (decide (room g)) as [Hr|Hr].
      + rewrite (send_room _ _ Hr) in Ht. injection Ht as Ht _.
        exists [flap_event limit a inst]. split; [done|by right].
      + rewrite (send_full _ _ Hr) in Ht. injection Ht as Ht _.
        exists []. rewrite app_nil_r. split; [done|by left].
    - injection Ht as Ht _. exists []. rewrite app_nil_r. split; [done|by left]. }
  destruct Hnew as (new & Hnew & Hshape).
  eexists g', _, new. split; [done|].
  split; [by rewrite Hh, list_lookup_alter_eq, Ha|].
  repeat (split; [done|]).
  split; [intros b Hb; by rewrite Hh, list_lookup_alter_ne|].
  split; [exact Hnew|exact Hshape].
Qed.

(** C8: [signal] (the body of FSM.Signal) returns UnknownSignal iff the
    signal is not a known signal of the spec; for a known signal it returns
    nil once the event is on the events channel, whatever the state of the
    instance: the store, the queue and the transaction channel are as
    before, so no transition has been processed. *)
Theorem signal_unknown_iff g (sig : Signal) a (d : option Data) :
  let r := signal g sig a d in
  (kind_of <$> r.2 = Some UnknownSignal ↔ signals (g_spec g) !! sig = None) ∧
  (r.2 = None ↔ is_Some (signals (g_spec g) !! sig)) ∧
  (is_Some (signals (g_spec g) !! sig) →
     g_events r.1 = g_events g ++ [mkEvent (id_at (g_heap g) a) a sig d] ∧
     g_heap r.1 = g_heap g ∧ g_deadlines r.1 = g_deadlines g ∧
     g_transactions r.1 = g_transactions g ∧ g_errors r.1 = g_errors g).
Proof.
  unfold signal. destruct (signals (g_spec g) !! sig) as [x|] eqn:Hs; cbn.
  - repeat split; try done; eauto.
  - repeat split; try done; by intros [? ?].
Qed.

End HandlerTheorems.

(** ** Allocation and the facade *)

Section AllocTheorems.
Context {F : Type} `{!FlapLog F}.
Implicit Types (g : runner F) (i inst : instance F) (a b : nat) (m : machines F).

(** Which entries the queue holds after [processDeadline]. *)
Lemma processDeadline_queue g a state exp inst :
  expiry (g_spec g) state = (exp, None) →
  g_heap g !! a = Some inst →
  (a ∈ g_deadlines g ↔ -1 < i_index inst) →
  let g' := (processDeadline g a state).1 in
  (a ∈ g_deadlines g' ↔
     0 < i_deadline (update inst state (g_now g) (from_option TTL 0 exp))) ∧
  (∀ b, b ≠ a → b ∈ g_deadlines g' ↔ b ∈ g_deadlines g).
Proof.
  intros Hexp Ha Hiff. unfold processDeadline. rewrite Hexp. cbn [set_heap g_heap].
  rewrite list_lookup_alter_eq, Ha. cbn [fmap option_fmap option_map].
  change (i_index (update inst state (ct g) (from_option TTL 0 exp))) with (i_index inst).
  unfold ct.
  repeat case_decide; cbn.
  - split; [tauto|done].
  - split.
    + rewrite list_elem_of_filter. tauto.
    + intros b Hb. rewrite list_elem_of_filter. tauto.
  - split.
    + rewrite elem_of_app, list_elem_of_singleton. tauto.
    + intros b Hb. rewrite elem_of_app, list_elem_of_singleton. tauto.
  - split; [tauto|done].
Qed.

(** C6 (what the code does): for a defined initial state, [alloc] returns an
    instance in that state, without data, with the deadline given by the
    state's TTL and queued iff that deadline is positive; its visit count for
    the initial state is 2, not 1: the literal in [alloc] sets it to 1 and
    the [update] called by [processDeadline] counts the state again. *)
Theorem alloc_result g initial st :
  Inv g →
  states (g_spec g) !! initial = Some st →
  ∃ g' a inst,
    alloc g initial = (g', Some a, None) ∧
    g_heap g' !! a = Some inst ∧
    i_id inst = g_next g ∧
    i_state inst = initial ∧
    Data_of inst = None ∧
    i_deadline inst =
      (if decide (0 < TTL (State_TTL st)) then wrap64 (g_now g + TTL (State_TTL st)) else 0) ∧
    (a ∈ g_deadlines g' ↔ 0 < i_deadline inst) ∧
    i_visits inst !! initial = Some 2.
Proof.
  intros HI Hst. unfold alloc.
  set (new := mkInstance _ _ _ _ _ _ _ _).
  set (g0 := set_next _ g).
  set (g1 := set_heap (g_heap g0 ++ [new]) g0).
  set (a := length (g_heap g0)).
  destruct (expiry_of_state (g_spec g1) initial st Hst) as (exp & Hexp & Httl).
  assert (Ha : g_heap g1 !! a = Some new) by apply list_lookup_middle, eq_refl.
  destruct (processDeadline_lookup g1 a initial exp new Hexp Ha)
    as (g' & k & Hpd & Hl & _).
  assert (Hfresh : a ∉ g_deadlines g1).
  { intros Hq. destruct (inv_queued _ HI a Hq) as (i & Hi & _).
    apply lookup_lt_Some in Hi. subst a. cbn in *. lia. }
  destruct (processDeadline_queue g1 a initial exp new Hexp Ha) as [Hq _].
  { cbn. split; [done|lia]. }
  rewrite Hpd in Hq |- *. cbn [fst] in Hq.
  set (inst := update new initial (g_now g1) (from_option TTL 0 exp)) in *.
  assert (Hdl : i_deadline inst =
    (if decide (0 < TTL (State_TTL st)) then wrap64 (g_now g + TTL (State_TTL st)) else 0)).
  { subst inst. cbn. rewrite Httl. unfold ttl_of.
    destruct (decide (0 < TTL (State_TTL st)));
      [by rewrite decide_True | by rewrite decide_False by lia]. }
  exists g', a, (set_index k inst).
  split; [done|]. split; [done|].
  repeat split; try done.
  - apply Hq.
  - apply Hq.
  - subst inst new. cbn. by rewrite lookup_insert_eq, lookup_singleton_eq.
Qed.

(** [alloc] refuses exactly the undefined states. *)
Lemma alloc_error_iff g initial :
  (states (g_spec g) !! initial = None →
     (alloc g initial).1.2 = None ∧ (alloc g initial).2 = Some (ErrUnknownState initial)) ∧
  (is_Some (states (g_spec g) !! initial) →
     (alloc g initial).1.2 = Some (length (g_heap g)) ∧ (alloc g initial).2 = None).
Proof.
  unfold alloc, processDeadline, expiry. cbn [g_spec set_heap set_next].
  destruct (states (g_spec g) !! initial) as [st|]; split.
  - done.
  - intros _. case_decide; cbn; repeat case_match; done.
  - done.
  - by intros [? ?].
Qed.

(** C9 (as amended): once [Run] has set the runner, [New] returns the error
    UnknownState and no instance when the initial state is not defined, and
    an instance without error when it is, whether or not the runner is
    running; before [Run] the call panics on the nil runner. *)
Theorem New_error_iff_undefined m initial :
  (∀ g, m_runner m = Some g →
     (states (g_spec g) !! initial = None →
        ∃ m', New m initial = Returns (m', None, Some (ErrUnknownState initial))) ∧
     (is_Some (states (g_spec g) !! initial) →
        ∃ m' fsm, New m initial = Returns (m', Some fsm, None))) ∧
  (m_runner m = None → New m initial = Panics).
Proof.
  split.
  - intros g Hg. unfold New. rewrite Hg.
    destruct (alloc_error_iff g initial) as [Hu Hd].
    destruct (alloc g initial) as [[g' fsm] err]. cbn in *. split.
    + intros Hn. destruct (Hu Hn) as [-> ->]. eauto.
    + intros Hs. destruct (Hd Hs) as [-> ->]. eauto.
  - intros Hn. unfold New. by rewrite Hn.
Qed.

End AllocTheorems.

(** ** The clock tick *)

Section ListFacts.
Context {A : Type} `{!EqDecision A}.
Implicit Types (l : list A) (P Q : A → Prop).







End ListFacts.

Section TickFacts.
Context {F : Type} `{!FlapLog F}.
Implicit Types (g : runner F) (i inst : instance F) (a b : nat).



End TickFacts.

(** ** The tick transaction and the queue in reachable configurations *)

Section TickTheorems.
Context {F : Type} `{!FlapLog F}.
Implicit Types (g : runner F) (i inst : instance F) (a b : nat).




(** C7: in every configuration the runner can reach, an instance with a
    positive deadline is in the deadline queue iff its index is ≥ 0 (this
    holds of every instance, whatever its deadline), and an instance sitting
    in a state whose TTL is 0 is not in the queue. *)
Theorem queued_iff_indexed s optional g a inst :
  reachable s optional g →
  g_heap g !! a = Some inst →
  (0 < i_deadline inst → (a ∈ g_deadlines g ↔ 0 ≤ i_index inst)) ∧
  (a ∈ g_deadlines g ↔ 0 ≤ i_index inst) ∧
  (∀ st, states (g_spec g) !! i_state inst = Some st →
         TTL (State_TTL st) = 0 → a ∉ g_deadlines g).
Proof.
  intros Hreach Ha. apply reachable_Inv in Hreach as [Hnd Hin Hout].
  assert (Hiff : a ∈ g_deadlines g ↔ 0 ≤ i_index inst).
  { split.
    - intros Hq. destruct (Hin a Hq) as (i & Hi & Hidx & _).
      rewrite Ha in Hi. by injection Hi as <-.
    - intros Hidx. destruct (decide (a ∈ g_deadlines g)) as [|Hn]; [done|].
      specialize (Hout a inst Ha Hn). lia. }
  split; [done|]. split; [done|].
  intros st Hst Httl Hq.
  destruct (Hin a Hq) as (i & Hi & _ & _ & exp & Hexp).
  rewrite Ha in Hi. injection Hi as <-.
  unfold expiry in Hexp. rewrite Hst in Hexp. case_decide; [lia|done].
Qed.

End TickTheorems.

(** ** What [build] establishes *)

Section BuildFacts.

Lemma foldM_steps {A B : Type} (R : B → B → Prop) `{!Reflexive R} `{!Transitive R}
    (f : B → A → Err + B) (l : list A) :
  (∀ b x b', f b x = inr b' → R b b') →
  ∀ b b', foldM f b l = inr b' →
    R b b' ∧ ∀ x, x ∈ l → ∃ b1 b2, f b1 x = inr b2 ∧ R b b1 ∧ R b2 b'.
Proof.
  intros Hf. induction l as [|y l IH]; intros b b' Hfold; cbn in Hfold.
  - injection Hfold as <-. split; [done|]. intros x Hx. by apply elem_of_nil in Hx.
  - destruct (f b y) as [e|b1] eqn:Hy; [done|].
    destruct (IH b1 b' Hfold) as [Hr Hall].
    pose proof (Hf _ _ _ Hy) as Hby.
    split; [by transitivity b1|].
    intros x [->|Hx]%elem_of_cons.
    + exists b, b1. done.
    + destruct (Hall x Hx) as (c1 & c2 & Hc & Hc1 & Hc2).
      exists c1, c2. split; [done|]. split; [by transitivity b1|done].
Qed.

#[local] Instance known_le_refl : Reflexive known_le.
Proof. by intros m k. Qed.

#[local] Instance known_le_trans : Transitive known_le.
Proof. intros m1 m2 m3 H12 H23 k Hk. by apply H23, H12. Qed.

#[local] Instance always_refl {B : Type} : Reflexive (λ _ _ : B, True).
Proof. done. Qed.

#[local] Instance always_trans {B : Type} : Transitive (λ _ _ : B, True).
Proof. done. Qed.

Lemma known_le_insert (m : gmap Signal Signal) k : known_le m (<[k := k]> m).
Proof.
  intros j Hj. destruct (decide (k = j)) as [->|Hne].
  - rewrite lookup_insert_eq. by eexists.
  - by rewrite lookup_insert_ne.
Qed.

Lemma register_transfers_defined m (transfer : gmap Signal Index) sg sg' :
  foldM (register_transfer m) sg (map_to_list transfer) = inr sg' →
  ∀ sig n, transfer !! sig = Some n → is_Some (m !! n).
Proof.
  intros Hfold sig n Hn.
  destruct (foldM_steps (λ _ _, True) (register_transfer m) _ (λ _ _ _ _, I) _ _ Hfold)
    as [_ Hall].
  destruct (Hall (sig, n)) as (b1 & b2 & Hstep & _).
  { by apply elem_of_map_to_list. }
  unfold register_transfer in Hstep. cbn in Hstep.
  destruct (m !! n); [by eexists|done].
Qed.

Lemma register_state_defined m sg st sg' :
  register_state m sg st = inr sg' →
  (∀ sig n, Transitions st !! sig = Some n → is_Some (m !! n)) ∧
  (∀ sig n, Errors st !! sig = Some n → is_Some (m !! n)).
Proof.
  unfold register_state. cbn [foldM].
  destruct (foldM (register_transfer m) sg (map_to_list (Transitions st)))
    as [e|sg1] eqn:H1; [done|].
  destruct (foldM (register_transfer m) sg1 (map_to_list (Errors st)))
    as [e|sg2] eqn:H2; [done|].
  intros _. split; by eapply register_transfers_defined.
Qed.

Lemma register_raises_known sigs st sigs' :
  register_raises sigs st = inr sigs' →
  known_le sigs sigs' ∧
  (0 < TTL (State_TTL st) → is_Some (sigs' !! Expiry_Raise (State_TTL st))) ∧
  (0 < Value (Visit st) → is_Some (sigs' !! Limit_Raise (Visit st))).
Proof.
  unfold register_raises.
  destruct (decide (0 < TTL (State_TTL st))) as [Ht|Ht];
    [destruct (Transitions st !! Expiry_Raise (State_TTL st)); [|done]|];
    (destruct (decide (0 < Value (Visit st))) as [Hv|Hv];
      [destruct (Transitions st !! Limit_Raise (Visit st)); [|done]|]);
    intros [= <-]; (split; [|split]); try done; try lia.
  - etransitivity; apply known_le_insert.
  - intros _. apply known_le_insert. rewrite lookup_insert_eq. by eexists.
  - intros _. rewrite lookup_insert_eq. by eexists.
  - apply known_le_insert.
  - intros _. rewrite lookup_insert_eq. by eexists.
  - apply known_le_insert.
  - intros _. rewrite lookup_insert_eq. by eexists.
Qed.

Lemma elem_of_map_values (m : gmap Index State) st :
  st ∈ (map_to_list m).*2 ↔ ∃ i, m !! i = Some st.
Proof.
  rewrite list_elem_of_fmap. split.
  - intros ([i st'] & -> & Hin). exists i. by apply elem_of_map_to_list.
  - intros [i Hi]. exists (i, st). split; [done|]. by apply elem_of_map_to_list.
Qed.

Lemma compile_wf m sigs :
  compile m = inr sigs → wf_spec (mkSpec m sigs ∅).
Proof.
  unfold compile.
  destruct (foldM (register_state m) ∅ (map_to_list m).*2) as [e|sigs1] eqn:H1; [done|].
  destruct (foldM (check_actions sigs1) tt (map_to_list m).*2) as [e|u] eqn:H2; [done|].
  intros H3.
  destruct (foldM_steps (λ _ _, True) (register_state m) _ (λ _ _ _ _, I) _ _ H1)
    as [_ Hall1].
  destruct (foldM_steps known_le register_raises (map_to_list m).*2
              (λ b x b' Hs, proj1 (register_raises_known b x b' Hs)) _ _ H3)
    as [_ Hall3].
  split; cbn.
  - intros i st sig n Hst Hn.
    destruct (Hall1 st) as (b1 & b2 & Hstep & _); [apply elem_of_map_values; eauto|].
    destruct (register_state_defined _ _ _ _ Hstep) as [Htr _]. eauto.
  - intros i st sig n Hst Hn.
    destruct (Hall1 st) as (b1 & b2 & Hstep & _); [apply elem_of_map_values; eauto|].
    destruct (register_state_defined _ _ _ _ Hstep) as [_ Her]. eauto.
  - intros i st Hst Hpos.
    destruct (Hall3 st) as (b1 & b2 & Hstep & _ & Hle); [apply elem_of_map_values; eauto|].
    destruct (register_raises_known _ _ _ Hstep) as (_ & Ht & _). auto.
  - intros i st Hst Hpos.
    destruct (Hall3 st) as (b1 & b2 & Hstep & _ & Hle); [apply elem_of_map_values; eauto|].
    destruct (register_raises_known _ _ _ Hstep) as (_ & _ & Hv). auto.
Qed.

Lemma wf_spec_flaps s fl : wf_spec s → wf_spec (mkSpec (states s) (signals s) fl).
Proof. intros [H1 H2 H3 H4]. by split. Qed.

(** A spec that [build] returns without error is well formed. *)
Lemma build_wf s st more s' : build s st more = (s', None) → wf_spec s'.
Proof.
  unfold build.
  destruct (foldM add_state _ more) as [e|sts]; [done|].
  destruct (compile sts) as [e|sigs] eqn:Hc; [done|].
  intros [= <-]. apply (wf_spec_flaps (mkSpec sts sigs ∅)). by apply compile_wf.
Qed.

Lemma compileFlapping_wf s checks s' :
  wf_spec s → compileFlapping s checks = (s', None) → wf_spec s'.
Proof.
  intros Hwf. unfold compileFlapping.
  destruct (foldM (register_flap s) (flaps s) checks) as [e|fl]; [done|].
  intros [= <-]. by apply wf_spec_flaps.
Qed.

End BuildFacts.

Section ReachableFacts.
Context {F : Type} `{!FlapLog F}.
Implicit Types (g : runner F).

Lemma newRunner_wf s optional g :
  wf_spec s → newRunner s optional = Returns (Some g, None) → wf_spec (g_spec g).
Proof.
  intros Hwf. unfold newRunner.
  destruct (if decide (0 < length _)%nat then _ else _) as [s' [e|]] eqn:Hc; [done|].
  destruct (decide (BufferSize _ < 0)) as [|_]; [done|]. intros [= <-]. cbn.
  match type of Hc with (if ?d then _ else _) = _ => destruct d end;
    [by eapply compileFlapping_wf | by injection Hc as <-].
Qed.

End ReachableFacts.

(** ** The spec of a running machine never changes *)

Section SpecFrame.
Context {F : Type} `{!FlapLog F}.
Implicit Types (g : runner F).

Lemma processDeadline_spec g a state : g_spec (processDeadline g a state).1 = g_spec g.
Proof.
  unfold processDeadline. destruct (expiry (g_spec g) state) as [exp [err|]]; [done|].
  cbn [set_heap g_heap]. destruct (_ !! a); [|done]. by repeat case_decide.
Qed.

Lemma raise_spec g a sig current : g_spec (raise g a sig current).1 = g_spec g.
Proof. by destruct (raise_frame g a sig current) as [? _]. Qed.

Lemma handleError_spec g err : g_spec (handleError g err) = g_spec g.
Proof. by destruct (handleError_frame g err) as [? _]. Qed.

Lemma processVisitLimit_spec g a state : g_spec (processVisitLimit g a state).1 = g_spec g.
Proof.
  unfold processVisitLimit.
  destruct (visit (g_spec g) state) as [[limit|] [err|]]; try done.
  destruct (g_heap g !! a); [|done]. case_decide; [|done]. apply raise_spec.
Qed.

Lemma complete_keeps_spec g a ev current next action :
  g_spec (complete g a ev current next action).1 = g_spec g.
Proof.
  unfold complete, land.
  pose proof (invoke_action_frame (attach_data g a ev) a ev current next action) as [Hs _].
  destruct (invoke_action _ _ _ _ _ _) as [g2 next']. cbn in Hs.
  pose proof (processDeadline_spec g2 a next') as Hp.
  destruct (processDeadline g2 a next') as [g3 [err|]]; cbn in Hp |- *.
  - rewrite Hp, Hs. unfold attach_data. by destruct (e_data ev).
  - rewrite processVisitLimit_spec, Hp, Hs. unfold attach_data. by destruct (e_data ev).
Qed.

Lemma handleEvent_spec g a ev : g_spec (handleEvent g a ev).1 = g_spec g.
Proof.
  unfold handleEvent. destruct (g_heap g !! a) as [inst|]; [|done].
  destruct (transition _ _ _) as [[next action] [err|]]; [done|].
  destruct (flap _ _ _) as [limit|]; [|apply complete_keeps_spec].
  case_decide; [|apply complete_keeps_spec].
  case_decide; [cbn [fst]; by rewrite raise_spec | by rewrite complete_keeps_spec].
Qed.

Lemma drain_keeps_spec n now : ∀ g, g_spec (drain n now g).1 = g_spec g.
Proof.
  induction n as [|n IH]; intros g; cbn [drain]; [done|].
  destruct (peek _ _) as [a|]; [|done]. case_decide; [done|].
  destruct (_ !! a) as [inst|]; [|done].
  case_decide; [|by rewrite IH].
  destruct (expiry _ _) as [[ttl|] [err|]]; try done.
  - cbn zeta. destruct (g_blocked _); cbn [fst]; [|rewrite IH; cbn]; by rewrite raise_spec.
  - by rewrite IH.
Qed.

Lemma alloc_spec g initial : g_spec (alloc g initial).1.1 = g_spec g.
Proof.
  unfold alloc.
  pose proof (processDeadline_spec
    (set_heap (g_heap (set_next (wrapU64 (g_next g + 1)) g) ++
       [mkInstance (g_next g) initial None newFlaps 0 0 (-1) {[initial := 1]}])
       (set_next (wrapU64 (g_next g + 1)) g))
    (length (g_heap (set_next (wrapU64 (g_next g + 1)) g))) initial) as Hp.
  by destruct (processDeadline _ _ _) as [g' [err|]].
Qed.

Lemma run_txn_spec g t : g_spec (run_txn g t) = g_spec g.
Proof.
  unfold run_txn.
  assert (Hp : g_spec (match t with
                       | TxClockTick => handleClockTick g
                       | TxEvent ev => handleEvent g (e_ref ev) ev
                       | TxRead => (g, None)
                       end).1 = g_spec g).
  { destruct t; [|apply handleEvent_spec|done].
    unfold handleClockTick. by rewrite drain_keeps_spec. }
  destruct (match t with TxClockTick => _ | TxEvent ev => _ | TxRead => _ end)
    as [g' [err|]]; [by rewrite handleError_spec|done].
Qed.

Lemma step_spec g g' : step g g' → g_spec g' = g_spec g.
Proof.
  intros Hstep. destruct Hstep; try done.
  - apply alloc_spec.
  - unfold signal. by destruct (signals _ !! _).
  - cbn. by rewrite run_txn_spec.
  - unfold Stop. by destruct (g_running g).
Qed.

Lemma reachable_wf s optional g :
  wf_spec s → reachable s optional g → wf_spec (g_spec g).
Proof.
  intros Hwf. induction 1 as [g Hnew | g g' _ IH Hstep].
  - change (wf_spec (g_spec g)). by eapply newRunner_wf.
  - by rewrite (step_spec _ _ Hstep).
Qed.

End SpecFrame.

(** ** The theorems at work on the machines of the tests *)

Lemma sp_act_built :
  build newSpec st_up [st_down; st_retrying; st_unavailable] = (sp_act, None).
Proof. vm_compute. reflexivity. Qed.

Lemma sp_use_built : build newSpec st_running [st_down'] = (sp_use, None).
Proof. vm_compute. reflexivity. Qed.

Lemma sp_ttl_built : build newSpec st_wait [st_run] = (sp_ttl, None).
Proof. vm_compute. reflexivity. Qed.

Lemma started_reachable s o :
  newRunner s (Some o) = Returns (Some (fresh s o), None) →
  reachable s (Some o) (started s o).
Proof. intros Hnew. by apply reach_start. Qed.

Lemma g_ttl0_reachable : reachable sp_ttl (Some DefaultOptions) g_ttl0.
Proof. apply started_reachable. vm_compute. reflexivity. Qed.

Lemma g_ttl1_reachable : reachable sp_ttl (Some DefaultOptions) g_ttl1.
Proof. eapply reach_step; [apply g_ttl0_reachable | apply step_alloc]. Qed.

Lemma g_flap_reachable : reachable sp_use (Some opts_flap) g_flap.
Proof.
  eapply reach_step; [|apply step_alloc].
  apply started_reachable. vm_compute. reflexivity.
Qed.

(** The moves as functions lead from reachable configurations to reachable
    ones. *)
Lemma signalled_reachable s o sig a (g : runner pair_log) :
  reachable s o g → is_Some (g_heap g !! a) → reachable s o (signalled sig a g).
Proof.
  intros Hreach [inst Ha]. eapply reach_step; [exact Hreach|].
  by apply (step_signal g sig a inst None).
Qed.


Lemma forwarded_read_reachable s o (g : runner pair_log) :
  reachable s o g → room g → reachable s o (forwarded TxRead g).
Proof. intros Hreach Hr. eapply reach_step; [exact Hreach|]. by apply step_forward_read. Qed.

Lemma forwarded_event_reachable s o (g : runner pair_log) :
  reachable s o g → room g → reachable s o (forwarded_event g).
Proof.
  intros Hreach Hr. unfold forwarded_event.
  destruct (g_events g) as [|ev evs] eqn:He; [done|].
  eapply reach_step; [exact Hreach|]. by apply step_forward_event.
Qed.

Lemma taken_reachable s o (g : runner pair_log) :
  reachable s o g → g_taken g = None → g_blocked g = false → reachable s o (taken g).
Proof.
  intros Hreach Ht Hb. unfold taken.
  destruct (g_transactions g) as [|t ts] eqn:Hq; [done|].
  eapply reach_step; [exact Hreach|]. by apply step_worker_take.
Qed.

Lemma ran_reachable s o (g : runner pair_log) :
  reachable s o g → g_blocked g = false → reachable s o (ran g).
Proof.
  intros Hreach Hb. unfold ran.
  destruct (g_taken g) as [t|] eqn:Ht; [|done].
  eapply reach_step; [exact Hreach|]. by apply step_worker_run.
Qed.


Lemma handled_reachable s o sig a (g : runner pair_log) :
  reachable s o g →
  is_Some (g_heap g !! a) →
  room (signalled sig a g) →
  g_taken g = None → g_blocked g = false →
  reachable s o (handled sig a g).
Proof.
  intros Hreach Ha Hr Ht Hb. unfold handled.
  assert (H1 : reachable s o (signalled sig a g)) by (by apply signalled_reachable).
  assert (H2 : reachable s o (forwarded_event (signalled sig a g)))
    by (by apply forwarded_event_reachable).
  assert (Hb2 : g_blocked (forwarded_event (signalled sig a g)) = false).
  { unfold forwarded_event, signalled, signal.
    destruct (signals _ !! _); cbn; [|by destruct (g_events g)].
    by destruct (g_events g ++ _). }
  assert (Ht2 : g_taken (forwarded_event (signalled sig a g)) = None).
  { unfold forwarded_event, signalled, signal.
    destruct (signals _ !! _); cbn; [|by destruct (g_events g)].
    by destruct (g_events g ++ _). }
  apply ran_reachable; [by apply taken_reachable|].
  unfold taken. by destruct (g_transactions _).
Qed.





(** The configuration of the counterexample to C5 is one the runner can
    reach. *)
Lemma g_cap_full_reachable : reachable sp_act (Some opts_one) g_cap_full.
Proof.
  unfold g_cap_full.
  apply forwarded_read_reachable; [|unfold room; vm_compute; reflexivity].
  apply taken_reachable; [|vm_compute; reflexivity..].
  apply forwarded_event_reachable; [|unfold room; vm_compute; reflexivity].
  apply signalled_reachable; [|vm_compute; by eexists].
  unfold g_cap3.
  do 2 (apply handled_reachable;
        [|vm_compute; by eexists|unfold room; vm_compute; reflexivity
         |vm_compute; reflexivity..]).
  eapply reach_step; [|apply step_alloc].
  apply started_reachable. vm_compute. reflexivity.
Qed.

Lemma g_act2_wf : wf_spec (g_spec g_act2).
Proof. apply (build_wf newSpec st_up [st_down; st_retrying; st_unavailable]). vm_compute. reflexivity. Qed.

Lemma g_act3_wf : wf_spec (g_spec g_act3).
Proof. apply (build_wf newSpec st_up [st_down; st_retrying; st_unavailable]). vm_compute. reflexivity. Qed.

Lemma g_flap_wf : wf_spec (g_spec g_flap).
Proof.
  apply (reachable_wf sp_use (Some opts_flap)); [|apply g_flap_reachable].
  apply (build_wf _ _ _ _ sp_use_built).
Qed.

(** Witness of C2: [startup] in [down], whose action fails, lands the
    instance in [retrying] (1), the alternate declared in Errors. *)
Lemma action_error_redirects_witness :
  ∃ g' inst', handleEvent g_act2 0%nat ev_startup = (g', None) ∧
    g_heap g' !! 0%nat = Some inst' ∧ i_state inst' = 1 ∧
    g_errors g' = g_errors g_act2.
Proof.
  destruct (action_error_redirects g_act2 0%nat ev_startup inst_act2 st_down 0
              failing "error"%string) as [H _].
  - exact g_act2_wf.
  - vm_compute. reflexivity.
  - vm_compute. reflexivity.
  - vm_compute. reflexivity.
  - intros (l & Hl & _). vm_compute in Hl. discriminate.
  - reflexivity.
  - apply (H 1). vm_compute. reflexivity.
Defined.

(** Counterexample to C2 as stated: [warn] in [down] has a failing action
    and no Errors entry; with IgnoreUndefinedTransitions set (as the options
    of TestActionErrors have it) the instance lands in the original next
    state [retrying] and nothing at all is offered on the errors channel. *)
Lemma action_error_unreported :
  let r := handleEvent g_act2 0%nat ev_warn in
  g_heap g_act2 !! 0%nat = Some inst_act2 ∧
  transition (g_spec g_act2) (i_state inst_act2) (e_signal ev_warn)
    = (1, Some failing, None) ∧
  failing (i_id inst_act2) (e_data ev_warn) = Some "error"%string ∧
  Errors st_down !! e_signal ev_warn = None ∧
  IgnoreUndefinedTransitions (g_options g_act2) = true ∧
  r.2 = None ∧
  i_state <$> g_heap r.1 !! 0%nat = Some 1 ∧
  g_errors g_act2 = [] ∧
  g_errors r.1 = [].
Proof. vm_compute. repeat split; reflexivity. Qed.

(** Witness of C5: the second entry into [retrying], whose Visit limit is
    {2, cordon}, makes the send of the cordon event. *)
Lemma visit_cap_raised_iff_witness :
  ∃ g' inst' st,
    handleEvent g_act3 0%nat ev_startup = (g', None) ∧
    g_heap g' !! 0%nat = Some inst' ∧
    states (g_spec g_act3) !! i_state inst' = Some st ∧
    chan g' =
      chan (if decide (capped st (i_state inst') inst')
            then send (visit_event st 0%nat inst') g_act3 else g_act3) ∧
    (room g_act3 →
       g_blocked g' = g_blocked g_act3 ∧
       (g_transactions g' = g_transactions g_act3 ++ [visit_event st 0%nat inst'] ↔
          0 < Value (Visit st) ∧
          default 0 (i_visits inst' !! i_state inst') = Value (Visit st)) ∧
       (g_transactions g' = g_transactions g_act3 ∨
        g_transactions g' = g_transactions g_act3 ++ [visit_event st 0%nat inst'])) ∧
    (¬ room g_act3 →
       g_transactions g' = g_transactions g_act3 ∧
       (0 < Value (Visit st) ∧
        default 0 (i_visits inst' !! i_state inst') = Value (Visit st) →
        g_blocked g' = true)) ∧
    (Value (Visit st) = 0 → chan g' = chan g_act3).
Proof.
  apply (visit_cap_raised_iff g_act3 0%nat ev_startup inst_act3 0 (Some failing)).
  - exact g_act3_wf.
  - vm_compute. reflexivity.
  - vm_compute. reflexivity.
  - intros (l & Hl & _). vm_compute in Hl. discriminate.
Defined.

(** The same event evaluated: with the default buffer the cordon event is
    posted. *)
Lemma visit_cap_posted_on_g_act3 :
  let r := handleEvent g_act3 0%nat ev_startup in
  r.2 = None ∧
  i_state <$> g_heap r.1 !! 0%nat = Some 1 ∧
  g_transactions g_act3 = [] ∧
  g_transactions r.1 = [TxEvent (mkEvent 0 0%nat 3 None)] ∧
  g_blocked r.1 = false.
Proof. vm_compute. repeat split; reflexivity. Qed.

(** Counterexample to C5 as stated: with a buffer of one, the worker has
    received the second [startup] of the instance in [retrying] and the
    dispatcher has then forwarded a read, so the buffer is full when the
    handler runs.  The instance enters [retrying] for the second time, which
    is its Visit limit, but the cordon event is not posted: the send blocks
    and the worker never returns. *)
Lemma visit_cap_not_posted_on_full_buffer :
  let g := g_cap_full in
  let r := handleEvent g 0%nat ev_startup in
  reachable sp_act (Some opts_one) g ∧
  g_taken g = Some (TxEvent ev_startup) ∧
  g_blocked g = false ∧
  BufferSize (g_options g) = 1 ∧
  g_transactions g = [TxRead] ∧
  i_state <$> g_heap g !! 0%nat = Some 1 ∧
  Visit st_retrying = mkLimit 2 3 ∧
  is_Some (signals (g_spec g) !! 3) ∧
  r.2 = None ∧
  i_state <$> g_heap r.1 !! 0%nat = Some 1 ∧
  (λ i, i_visits i !! 1) <$> g_heap r.1 !! 0%nat = Some (Some 2) ∧
  g_transactions r.1 = [TxRead] ∧
  g_blocked r.1 = true ∧
  ran g = set_taken None r.1.
Proof.
  cbv zeta. split; [exact g_cap_full_reachable|].
  vm_compute. repeat split; try reflexivity. by eexists.
Qed.

(** Witness of C4: with the flap's signal known and room in the buffer, the
    first transition of the pair (threshold 1) posts it and the instance
    stays in [running]. *)
Lemma flap_threshold_witness :
  ∃ g', handleEvent g_flap 0%nat ev_unhealthy = (g', None) ∧
    g_heap g' !! 0%nat = Some (set_flaps [(10, 11)] inst_flap) ∧
    g_transactions g' = g_transactions g_flap ++ [flap_event flap_known 0%nat inst_flap] ∧
    g_blocked g' = g_blocked g_flap.
Proof.
  destruct (flap_threshold g_flap 0%nat ev_unhealthy inst_flap st_running 11 None flap_known)
    as [H _].
  - exact g_flap_wf.
  - vm_compute. reflexivity.
  - vm_compute. reflexivity.
  - vm_compute. reflexivity.
  - vm_compute. reflexivity.
  - reflexivity.
  - destruct H as (g' & Hhe & Hh & Hroom & _).
    { vm_compute. discriminate. }
    exists g'. split; [exact Hhe|]. split; [exact Hh|]. apply Hroom.
    + vm_compute. by eexists.
    + unfold room. vm_compute. reflexivity.
Defined.

(** Counterexample to C4 as stated: the flap rule of TestUsage names no
    signal, so its Raise is signal 0, which the spec does not know; when the
    threshold is reached the handler drops the transition and posts nothing. *)
Lemma flap_signal_not_posted :
  let r := handleEvent g_use 0%nat ev_unhealthy in
  g_heap g_use !! 0%nat = Some inst_flap ∧
  transition (g_spec g_use) (i_state inst_flap) (e_signal ev_unhealthy)
    = (11, None, None) ∧
  flap (g_spec g_use) (i_state inst_flap) 11 = Some flap_use ∧
  0 < Count flap_use ∧
  Count flap_use ≤ count 10 11 (record 10 11 (i_flaps inst_flap)) ∧
  signals (g_spec g_use) !! Flap_Raise flap_use = None ∧
  r.2 = None ∧
  i_state <$> g_heap r.1 !! 0%nat = Some 10 ∧
  g_transactions g_use = [] ∧
  g_transactions r.1 = [].
Proof. vm_compute. repeat split; (reflexivity || discriminate). Qed.

(** Witness of C10: the event that trips the flap carries data [42]; the
    instance keeps its (absent) data, state, visits and deadline. *)
Lemma flap_trip_leaves_instance_witness :
  ∃ g' inst' new,
    handleEvent g_flap 0%nat ev_unhealthy = (g', None) ∧
    g_heap g' !! 0%nat = Some inst' ∧
    Data_of inst' = Data_of inst_flap ∧
    i_state inst' = i_state inst_flap ∧
    i_visits inst' = i_visits inst_flap ∧
    i_deadline inst' = i_deadline inst_flap ∧
    i_start inst' = i_start inst_flap ∧
    i_index inst' = i_index inst_flap ∧
    g_deadlines g' = g_deadlines g_flap ∧
    (∀ b, b ≠ 0%nat → g_heap g' !! b = g_heap g_flap !! b) ∧
    g_transactions g' = g_transactions g_flap ++ new ∧
    (new = [] ∨ new = [TxEvent (mkEvent (i_id inst_flap) 0%nat (Flap_Raise flap_known) None)]).
Proof.
  apply (flap_trip_leaves_instance g_flap 0%nat ev_unhealthy inst_flap 11 None flap_known).
  - vm_compute. reflexivity.
  - vm_compute. reflexivity.
  - vm_compute. reflexivity.
  - reflexivity.
  - vm_compute. discriminate.
Defined.



(** The same tick evaluated: at time 4 it moves [now] to 5; the instance due
    at 5 and the stale one leave the queue and are reset, the one due at 8
    stays; one TTL event is posted, for the first. *)
Lemma clock_tick_on_g_due :
  let g' := (handleClockTick g_due).1 in
  (handleClockTick g_due).2 = None ∧
  g_now g' = 5 ∧
  g_deadlines g_due = [0; 1; 2]%nat ∧
  deadline_at (g_heap g_due) <$> g_deadlines g_due = [5; 0; 8] ∧
  g_deadlines g' = [2%nat] ∧
  g_transactions g' = [TxEvent (mkEvent 0 0%nat 0 None)] ∧
  (λ i, (i_deadline i, i_index i)) <$> g_heap g' = [(-1, -1); (-1, -1); (8, 0)].
Proof. vm_compute. repeat split; reflexivity. Qed.


(** Witness of C7: the instance allocated in [wait] (TTL 5) is queued at
    position 0 with deadline 5. *)
Lemma queued_iff_indexed_witness :
  (0 < i_deadline inst_ttl1 → (0%nat ∈ g_deadlines g_ttl1 ↔ 0 ≤ i_index inst_ttl1)) ∧
  (0%nat ∈ g_deadlines g_ttl1 ↔ 0 ≤ i_index inst_ttl1) ∧
  (∀ st, states (g_spec g_ttl1) !! i_state inst_ttl1 = Some st →
         TTL (State_TTL st) = 0 → 0%nat ∉ g_deadlines g_ttl1).
Proof.
  apply (queued_iff_indexed sp_ttl (Some DefaultOptions) g_ttl1 0%nat inst_ttl1).
  - apply g_ttl1_reachable.
  - vm_compute. reflexivity.
Defined.

(** Witness of C6's theorem, which is also the failing input of the claim:
    the first instance allocated in [wait] has visited [wait] twice. *)
Lemma alloc_result_witness :
  ∃ g' a inst,
    alloc g_ttl0 1 = (g', Some a, None) ∧
    g_heap g' !! a = Some inst ∧
    i_id inst = g_next g_ttl0 ∧
    i_state inst = 1 ∧
    Data_of inst = None ∧
    i_deadline inst =
      (if decide (0 < TTL (State_TTL st_wait))
       then wrap64 (g_now g_ttl0 + TTL (State_TTL st_wait)) else 0) ∧
    (a ∈ g_deadlines g' ↔ 0 < i_deadline inst) ∧
    i_visits inst !! 1 = Some 2.
Proof.
  apply (alloc_result g_ttl0 1 st_wait).
  - apply (reachable_Inv sp_ttl (Some DefaultOptions)). apply g_ttl0_reachable.
  - vm_compute. reflexivity.
Defined.

(** The failing input of C6 evaluated: visits[wait] is 2 right after [alloc]. *)
Lemma alloc_counts_initial_twice :
  (alloc g_ttl0 1).2 = None ∧
  g_heap (alloc g_ttl0 1).1.1 !! 0%nat = Some inst_ttl1 ∧
  i_visits inst_ttl1 !! 1 = Some 2.
Proof. vm_compute. repeat split; reflexivity. Qed.

(** Counterexample to C9 as stated: after [Run] and [Done] the runner is not
    running, and [New] on a defined state still returns an instance and no
    error. *)
Lemma New_on_stopped_runner :
  define st_wait [st_run] = (Some m_ttl0, None) ∧
  Run m_ttl0 (Some mkClock) DefaultOptions = Returns (m_ttl1, None) ∧
  Done m_ttl1 = Returns m_ttl2 ∧
  g_running <$> m_runner m_ttl2 = Some false ∧
  is_Some (states (m_spec m_ttl2) !! 1) ∧
  match New m_ttl2 1 with
  | Returns (_, fsm, err) => fsm = Some 0%nat ∧ err = None
  | Panics => False
  end.
Proof. vm_compute. repeat split; try reflexivity. by eexists. Qed.

(** TestSetFlapping's remark "This does no checking": the instance of
    [g_act2] is in [down], which has no transition on [shutdown] (1); the
    signal is known to the spec, so [signal] accepts it; signal 9 is used by
    no state and is refused. *)
Lemma signal_does_no_checking :
  i_state <$> g_heap g_act2 !! 0%nat = Some 2 ∧
  kind_of <$> tr_err (transition (g_spec g_act2) 2 1) = Some UnknownTransition ∧
  (signal g_act2 1 0%nat None).2 = None ∧
  (signal g_act2 9 0%nat None).2 = Some (ErrUnknownSignal 9 0).
Proof. vm_compute. repeat split; reflexivity. Qed.

(** ** Further properties: build, the instance calls, the store, the facade *)

(** ** [build] succeeds exactly on the machines that pass its checks *)

Section BuildComplete.

#[local] Instance top_refl {B : Type} : Reflexive (λ _ _ : B, True).
Proof. done. Qed.

#[local] Instance top_trans {B : Type} : Transitive (λ _ _ : B, True).
Proof. done. Qed.

#[local] Instance known_le_preorder_refl : Reflexive known_le.
Proof. by intros m k. Qed.

#[local] Instance known_le_preorder_trans : Transitive known_le.
Proof. intros m1 m2 m3 H12 H23 k Hk. by apply H23, H12. Qed.

Lemma foldM_total {A B : Type} (f : B → A → Err + B) (l : list A) :
  (∀ b x, x ∈ l → ∃ b', f b x = inr b') →
  ∀ b, ∃ b', foldM f b l = inr b'.
Proof.
  induction l as [|y l IH]; intros Hall b; cbn; [by eexists|].
  destruct (Hall b y) as [b1 Hb1]; [left|]. rewrite Hb1.
  apply IH. intros b0 x Hx. apply Hall. by right.
Qed.

Lemma foldM_invariant {A B : Type} (Q : B → Prop) (f : B → A → Err + B) (l : list A) :
  (∀ b x b', x ∈ l → Q b → f b x = inr b' → Q b') →
  ∀ b b', Q b → foldM f b l = inr b' → Q b'.
Proof.
  induction l as [|y l IH]; intros Hstep b b' Hb Hfold; cbn in Hfold.
  - by injection Hfold as <-.
  - destruct (f b y) as [e|b1] eqn:Hy; [done|].
    apply (IH (λ b0 x b2 Hx, Hstep b0 x b2 (list_elem_of_further _ _ _ Hx)) b1 b');
      [|done].
    eapply Hstep; [left|done|done].
Qed.

(** A loop fails when one of its elements fails whatever has been
    accumulated; its error is one the body can produce. *)
Lemma foldM_fails {A B : Type} (P : Err → Prop) (f : B → A → Err + B) (l : list A) :
  (∀ b x e, x ∈ l → f b x = inl e → P e) →
  (∃ x, x ∈ l ∧ ∀ b, ∃ e, f b x = inl e) →
  ∀ b, ∃ e, foldM f b l = inl e ∧ P e.
Proof.
  induction l as [|y l IH]; intros Herr (x & Hx & Hbad) b.
  - by apply elem_of_nil in Hx.
  - cbn. destruct (f b y) as [e|b1] eqn:Hy.
    + exists e. split; [done|]. eapply Herr; [left|done].
    + apply elem_of_cons in Hx as [->|Hx].
      * destruct (Hbad b) as [e He]. congruence.
      * apply IH; [|by exists x].
        intros b0 z e Hz. apply Herr. by right.
Qed.

(** *** The first loop of [build] *)

Lemma add_states_spec more : ∀ m m',
  foldM add_state m more = inr m' →
  NoDup (State_Index <$> more) ∧
  (∀ x, x ∈ more → m !! State_Index x = None) ∧
  (∀ i x, m' !! i = Some x ↔ m !! i = Some x ∨ (x ∈ more ∧ State_Index x = i)).
Proof.
  induction more as [|y more IH]; intros m m' Hfold; cbn in Hfold.
  - injection Hfold as <-. split; [constructor|]. split.
    + intros x Hx. by apply elem_of_nil in Hx.
    + intros i x. split; [by left|]. intros [?|[Hx _]]; [done|].
      by apply elem_of_nil in Hx.
  - unfold add_state in Hfold at 1.
    destruct (m !! State_Index y) as [z|] eqn:Hy; [done|].
    destruct (IH _ _ Hfold) as (Hnd & Hfree & Hlook).
    assert (Hyfree : ∀ x, x ∈ more → State_Index x ≠ State_Index y).
    { intros x Hx Heq. specialize (Hfree x Hx).
      rewrite Heq, lookup_insert_eq in Hfree. done. }
    split; [|split].
    + rewrite fmap_cons. constructor; [|done].
      intros (x & Heq & Hx)%list_elem_of_fmap. by apply (Hyfree x Hx).
    + intros x [->|Hx]%elem_of_cons; [done|].
      specialize (Hfree x Hx). rewrite lookup_insert_ne in Hfree; [done|].
      intros Heq. by apply (Hyfree x Hx).
    + intros i x. rewrite Hlook. split.
      * intros [Hin|[Hx Hi]].
        -- destruct (decide (State_Index y = i)) as [<-|Hne].
           ++ rewrite lookup_insert_eq in Hin. injection Hin as <-.
              right. split; [left|done].
           ++ rewrite lookup_insert_ne in Hin by done. by left.
        -- right. split; [by right|done].
      * intros [Hm|[[->|Hx]%elem_of_cons Hi]].
        -- left. rewrite lookup_insert_ne; [done|]. intros <-. congruence.
        -- left. rewrite <- Hi. apply lookup_insert_eq.
        -- right. done.
Qed.

Lemma add_states_total more : ∀ m,
  NoDup (State_Index <$> more) →
  (∀ x, x ∈ more → m !! State_Index x = None) →
  ∃ m', foldM add_state m more = inr m'.
Proof.
  induction more as [|y more IH]; intros m Hnd Hfree; cbn; [by eexists|].
  unfold add_state at 1. rewrite (Hfree y) by left.
  rewrite fmap_cons in Hnd. apply NoDup_cons in Hnd as [Hy Hnd].
  apply IH; [done|]. intros x Hx.
  rewrite lookup_insert_ne; [apply Hfree; by right|].
  intros Heq. apply Hy. apply list_elem_of_fmap. by exists x.
Qed.

(** The only error of the first loop names an index that some state given
    earlier already has. *)
Lemma add_states_error more : ∀ m e,
  foldM add_state m more = inl e →
  ∃ i, e = ErrDuplicateState i ∧
    ¬ (NoDup (State_Index <$> more) ∧ ∀ x, x ∈ more → m !! State_Index x = None).
Proof.
  intros m e Hfold.
  assert (∃ i, e = ErrDuplicateState i) as [i ->].
  { revert m Hfold. induction more as [|y more IH]; intros m Hfold; [done|].
    cbn in Hfold. unfold add_state in Hfold at 1.
    destruct (m !! State_Index y); [injection Hfold as <-; by eexists|]. eauto. }
  exists i. split; [done|]. intros [Hnd Hfree].
  destruct (add_states_total more m Hnd Hfree) as [m' Hm']. congruence.
Qed.

(** *** The three loops of [compile] *)

Lemma register_transfers_known m (l : list (Signal * Index)) : ∀ sg sg',
  foldM (register_transfer m) sg l = inr sg' →
  (∀ k, is_Some (sg' !! k) ↔ is_Some (sg !! k) ∨ ∃ n, (k, n) ∈ l) ∧
  (ident sg → ident sg').
Proof.
  induction l as [|[k0 n0] l IH]; intros sg sg' Hfold; cbn in Hfold.
  - injection Hfold as <-. split; [|done]. intros k. split; [by left|].
    intros [?|[n Hn]]; [done|]. by apply elem_of_nil in Hn.
  - unfold register_transfer in Hfold at 1. cbn in Hfold.
    destruct (m !! n0); [|done].
    destruct (IH _ _ Hfold) as [Hk Hid]. split.
    + intros k. rewrite Hk. destruct (decide (k0 = k)) as [->|Hne].
      * rewrite lookup_insert_eq. split; [|by eauto].
        intros _. right. exists n0. left.
      * rewrite lookup_insert_ne by done. split.
        -- intros [?|[n Hn]]; [by left|]. right. exists n. by right.
        -- intros [?|[n [Heq|Hn]%elem_of_cons]]; [by left|congruence|].
           right. by exists n.
    + intros Hsg. apply Hid. intros k v.
      destruct (decide (k0 = k)) as [->|Hne].
      * rewrite lookup_insert_eq. congruence.
      * rewrite lookup_insert_ne by done. apply Hsg.
Qed.

Lemma register_state_known m sg st sg' :
  register_state m sg st = inr sg' →
  (∀ k, is_Some (sg' !! k) ↔
        is_Some (sg !! k) ∨ is_Some (Transitions st !! k) ∨ is_Some (Errors st !! k)) ∧
  (ident sg → ident sg').
Proof.
  unfold register_state. cbn [foldM].
  destruct (foldM (register_transfer m) sg (map_to_list (Transitions st)))
    as [e|sg1] eqn:H1; [done|].
  destruct (foldM (register_transfer m) sg1 (map_to_list (Errors st)))
    as [e|sg2] eqn:H2; [done|].
  intros [= <-].
  destruct (register_transfers_known _ _ _ _ H1) as [Hk1 Hi1].
  destruct (register_transfers_known _ _ _ _ H2) as [Hk2 Hi2].
  split; [|auto]. intros k. rewrite Hk2, Hk1.
  assert (Hl : ∀ (tr : gmap Signal Index), (∃ n, (k, n) ∈ map_to_list tr) ↔ is_Some (tr !! k)).
  { intros tr. split.
    - intros [n Hn]. exists n. by apply elem_of_map_to_list.
    - intros [n Hn]. exists n. by apply elem_of_map_to_list. }
  rewrite !Hl. tauto.
Qed.

Lemma register_states_known m (l : list State) : ∀ sg sg',
  foldM (register_state m) sg l = inr sg' →
  (∀ k, is_Some (sg' !! k) ↔
        is_Some (sg !! k) ∨
        ∃ st, st ∈ l ∧ (is_Some (Transitions st !! k) ∨ is_Some (Errors st !! k))) ∧
  (ident sg → ident sg').
Proof.
  induction l as [|y l IH]; intros sg sg' Hfold; cbn [foldM] in Hfold.
  - injection Hfold as <-. split; [|done]. intros k. split; [by left|].
    intros [?|(st & Hst & _)]; [done|]. by apply elem_of_nil in Hst.
  - destruct (register_state m sg y) as [e|sg1] eqn:Hy; [done|].
    destruct (register_state_known _ _ _ _ Hy) as [Hk1 Hi1].
    destruct (IH _ _ Hfold) as [Hk Hi]. split; [|auto].
    intros k. rewrite Hk, Hk1. split.
    + intros [[?|Hy']|(st & Hst & Hkey)]; [by left| |].
      * right. exists y. split; [left|done].
      * right. exists st. split; [by right|done].
    + intros [?|(st & [->|Hst]%elem_of_cons & Hkey)]; [by left; left| |].
      * left. by right.
      * right. by exists st.
Qed.

Lemma insert_raise_known (sg : gmap Signal Signal) (tr : gmap Signal Index) r :
  is_Some (tr !! r) →
  (∀ k, is_Some (<[r := r]> sg !! k) → is_Some (sg !! k) ∨ is_Some (tr !! k)) ∧
  (ident sg → ident (<[r := r]> sg)).
Proof.
  intros Hr. split.
  - intros k. destruct (decide (r = k)) as [->|Hne].
    + intros _. by right.
    + rewrite lookup_insert_ne by done. by left.
  - intros Hid k v. destruct (decide (r = k)) as [->|Hne].
    + rewrite lookup_insert_eq. congruence.
    + rewrite lookup_insert_ne by done. apply Hid.
Qed.

Lemma register_raises_spec sg st sg' :
  register_raises sg st = inr sg' →
  (0 < TTL (State_TTL st) → is_Some (Transitions st !! Expiry_Raise (State_TTL st))) ∧
  (0 < Value (Visit st) → is_Some (Transitions st !! Limit_Raise (Visit st))) ∧
  (∀ k, is_Some (sg' !! k) → is_Some (sg !! k) ∨ is_Some (Transitions st !! k)) ∧
  (ident sg → ident sg').
Proof.
  unfold register_raises.
  destruct (decide (0 < TTL (State_TTL st))) as [Ht|Ht].
  - destruct (Transitions st !! Expiry_Raise (State_TTL st)) as [n|] eqn:Htr; [|done].
    assert (Hr1 : is_Some (Transitions st !! Expiry_Raise (State_TTL st))) by eauto.
    destruct (insert_raise_known sg _ _ Hr1) as [Hk1 Hi1].
    destruct (decide (0 < Value (Visit st))) as [Hv|Hv].
    + destruct (Transitions st !! Limit_Raise (Visit st)) as [n'|] eqn:Hvr; [|done].
      assert (Hr2 : is_Some (Transitions st !! Limit_Raise (Visit st))) by eauto.
      destruct (insert_raise_known (<[Expiry_Raise (State_TTL st) := Expiry_Raise (State_TTL st)]> sg)
                  _ _ Hr2) as [Hk2 Hi2].
      intros [= <-]. repeat split; auto.
      intros k Hk. destruct (Hk2 k Hk) as [?|?]; auto.
    + intros [= <-]. repeat split; auto. lia.
  - destruct (decide (0 < Value (Visit st))) as [Hv|Hv].
    + destruct (Transitions st !! Limit_Raise (Visit st)) as [n'|] eqn:Hvr; [|done].
      assert (Hr2 : is_Some (Transitions st !! Limit_Raise (Visit st))) by eauto.
      destruct (insert_raise_known sg _ _ Hr2) as [Hk2 Hi2].
      intros [= <-]. repeat split; auto. lia.
    + intros [= <-]. repeat split; auto; lia.
Qed.

Lemma valid_register_raises defined sg st :
  valid_state defined st → ∃ sg', register_raises sg st = inr sg'.
Proof.
  intros (_ & _ & _ & Ht & Hv). unfold register_raises.
  destruct (decide (0 < TTL (State_TTL st))) as [Hp|Hp].
  - destruct (Ht Hp) as [x ->].
    destruct (decide (0 < Value (Visit st))) as [Hq|Hq]; [|by eexists].
    destruct (Hv Hq) as [y ->]. by eexists.
  - destruct (decide (0 < Value (Visit st))) as [Hq|Hq]; [|by eexists].
    destruct (Hv Hq) as [y ->]. by eexists.
Qed.

Lemma check_actions_spec sigs st u :
  check_actions sigs tt st = inr u →
  ∀ sig (a : Action), Actions st !! sig = Some a →
    is_Some (Transitions st !! sig) ∧ is_Some a.
Proof.
  unfold check_actions. intros Hfold sig a Ha.
  destruct (foldM_steps (λ _ _, True) (check_action sigs st) _ (λ _ _ _ _, I) _ _ Hfold)
    as [_ Hall].
  destruct (Hall (sig, a)) as (b1 & b2 & Hstep & _); [by apply elem_of_map_to_list|].
  unfold check_action in Hstep. cbn in Hstep.
  destruct (Transitions st !! sig); [|done]. destruct a; [|done]. eauto.
Qed.

(** [compile] accepts exactly the valid machines. *)
Lemma compile_ok_iff m : (∃ sigs, compile m = inr sigs) ↔ valid_machine m.
Proof.
  unfold compile. split.
  - intros [sigs Hc].
    destruct (foldM (register_state m) ∅ (map_to_list m).*2) as [e|sigs1] eqn:H1; [done|].
    destruct (foldM (check_actions sigs1) tt (map_to_list m).*2) as [e|u] eqn:H2; [done|].
    destruct (foldM_steps (λ _ _, True) (register_state m) _ (λ _ _ _ _, I) _ _ H1)
      as [_ Hall1].
    destruct (foldM_steps (λ _ _, True) (check_actions sigs1) _ (λ _ _ _ _, I) _ _ H2)
      as [_ Hall2].
    destruct (foldM_steps (λ _ _, True) register_raises _ (λ _ _ _ _, I) _ _ Hc)
      as [_ Hall3].
    intros i st Hst.
    assert (Hin : st ∈ (map_to_list m).*2) by (apply elem_of_map_values; eauto).
    destruct (Hall1 st Hin) as (b1 & b2 & Hs1 & _).
    destruct (Hall2 st Hin) as ([] & c2 & Hs2 & _).
    destruct (Hall3 st Hin) as (d1 & d2 & Hs3 & _).
    destruct (register_state_defined _ _ _ _ Hs1) as [Htr Her].
    destruct (register_raises_spec _ _ _ Hs3) as (Ht & Hv & _).
    repeat split; eauto; by eapply check_actions_spec.
  - intros Hvalid.
    assert (Hval : ∀ st, st ∈ (map_to_list m).*2 → valid_state (λ n, is_Some (m !! n)) st).
    { intros st [i Hi]%elem_of_map_values. eauto. }
    destruct (foldM_total (register_state m) (map_to_list m).*2) with (b := (∅ : gmap Signal Signal))
      as [sigs1 H1].
    { intros b st Hst. destruct (Hval st Hst) as (Htr & Her & _).
      unfold register_state. cbn [foldM].
      destruct (foldM_total (register_transfer m) (map_to_list (Transitions st))) with (b := b)
        as [b1 Hb1].
      { intros b0 [k n] Hkn%elem_of_map_to_list. unfold register_transfer. cbn.
        destruct (Htr k n Hkn) as [x ->]. by eexists. }
      rewrite Hb1.
      destruct (foldM_total (register_transfer m) (map_to_list (Errors st))) with (b := b1)
        as [b2 Hb2].
      { intros b0 [k n] Hkn%elem_of_map_to_list. unfold register_transfer. cbn.
        destruct (Her k n Hkn) as [x ->]. by eexists. }
      rewrite Hb2. by eexists. }
    rewrite H1.
    destruct (register_states_known _ _ _ _ H1) as [Hknown _].
    destruct (foldM_total (check_actions sigs1) (map_to_list m).*2) with (b := tt)
      as [u H2].
    { intros [] st Hst. destruct (Hval st Hst) as (_ & _ & Hact & _).
      unfold check_actions.
      destruct (foldM_total (check_action sigs1 st) (map_to_list (Actions st))) with (b := tt)
        as [[] Hb]; [|by exists tt].
      intros [] [k a] Hka%elem_of_map_to_list. unfold check_action. cbn.
      destruct (Hact k a Hka) as [[n Hn] [f ->]]. rewrite Hn.
      assert (is_Some (sigs1 !! k)) as [v ->]; [|by eexists].
      apply Hknown. right. exists st. split; [done|]. left. by eexists. }
    rewrite H2.
    apply foldM_total. intros b st Hst.
    eapply valid_register_raises. by apply Hval.
Qed.

(** The signals a successful [compile] returns: each is mapped to itself,
    and the known ones are those used as a key of Transitions or Errors. *)
Lemma compile_signals m sigs :
  compile m = inr sigs →
  ∀ k, (is_Some (sigs !! k) ↔ used_signal m k) ∧ (∀ v, sigs !! k = Some v → v = k).
Proof.
  unfold compile. intros Hc.
  destruct (foldM (register_state m) ∅ (map_to_list m).*2) as [e|sigs1] eqn:H1; [done|].
  destruct (foldM (check_actions sigs1) tt (map_to_list m).*2) as [e|u] eqn:H2; [done|].
  destruct (register_states_known _ _ _ _ H1) as [Hknown Hid1].
  assert (Hused : ∀ k, is_Some (sigs1 !! k) ↔ used_signal m k).
  { intros k. rewrite Hknown. unfold used_signal. split.
    - intros [[? Hx]|(st & [i Hi]%elem_of_map_values & Hkey)]; [by rewrite lookup_empty in Hx|].
      eauto.
    - intros (i & st & Hi & Hkey). right. exists st. split; [|done].
      apply elem_of_map_values. eauto. }
  assert (Hinv : (∀ k, is_Some (sigs !! k) → used_signal m k) ∧ ident sigs).
  { apply (foldM_invariant (λ sg, (∀ k, is_Some (sg !! k) → used_signal m k) ∧ ident sg)
             register_raises (map_to_list m).*2) with (b := sigs1); [|split|done].
    - intros b st b' [i Hi]%elem_of_map_values [Hb Hidb] Hstep.
      destruct (register_raises_spec _ _ _ Hstep) as (_ & _ & Hk & Hid).
      split; [|auto]. intros k Hsome.
      destruct (Hk k Hsome) as [?|Htr]; [auto|].
      exists i, st. auto.
    - intros k. apply Hused.
    - apply Hid1. intros k v. by rewrite lookup_empty. }
  destruct Hinv as [Hsound Hident].
  destruct (foldM_steps known_le register_raises (map_to_list m).*2
              (λ b x b' Hs, proj1 (register_raises_known b x b' Hs)) _ _ Hc) as [Hle _].
  intros k. split; [split; [auto|]|by apply Hident].
  intros Hu. apply Hle. by apply Hused.
Qed.

Lemma valid_state_iff (d1 d2 : Index → Prop) st :
  (∀ n, d1 n ↔ d2 n) → valid_state d1 st → valid_state d2 st.
Proof.
  intros Hd (Htr & Her & Hact & Ht & Hv).
  split; [|split; [|split; [|split]]]; try done.
  - intros sig n Hn. apply Hd. eauto.
  - intros sig n Hn. apply Hd. eauto.
Qed.

(** The states map that [build] hands to [compile]. *)
Lemma build_states st more sts :
  foldM add_state {[State_Index st := st]} more = inr sts →
  NoDup (State_Index <$> st :: more) ∧
  ∀ i x, sts !! i = Some x ↔ x ∈ st :: more ∧ State_Index x = i.
Proof.
  intros Hfold. destruct (add_states_spec _ _ _ Hfold) as (Hnd & Hfree & Hlook).
  split.
  - rewrite fmap_cons. constructor; [|done].
    intros (x & Heq & Hx)%list_elem_of_fmap. specialize (Hfree x Hx).
    rewrite <- Heq, lookup_singleton_eq in Hfree. done.
  - intros i x. rewrite Hlook, elem_of_cons, lookup_singleton_Some. split.
    + intros [[<- <-]|[Hx Hi]]; [by split; [left|]|]. split; [by right|done].
    + intros [[->|Hx] Hi]; [by left|]. by right.
Qed.

Lemma valid_machine_states st more sts :
  (∀ i x, sts !! i = Some x ↔ x ∈ st :: more ∧ State_Index x = i) →
  valid_machine sts ↔ valid_states (st :: more).
Proof.
  intros Hlook.
  assert (Hd : ∀ n, is_Some (sts !! n) ↔ declared (st :: more) n).
  { intros n. unfold declared. split.
    - intros [x Hx]. exists x. by apply Hlook.
    - intros (x & Hx & Hn). exists x. by apply Hlook. }
  split.
  - intros Hv x Hx. eapply valid_state_iff; [exact Hd|].
    apply (Hv (State_Index x)). by apply Hlook.
  - intros Hv i x Hx. apply Hlook in Hx as [Hx _].
    eapply valid_state_iff; [intros n; symmetry; apply Hd|]. by apply Hv.
Qed.

Lemma build_ok (s : spec) (st : State) (more : list State) (s' : spec) :
  build s st more = (s', None) →
  NoDup (State_Index <$> st :: more) ∧
  valid_states (st :: more) ∧
  (∀ i x, states s' !! i = Some x ↔ x ∈ st :: more ∧ State_Index x = i) ∧
  (∀ k, is_Some (signals s' !! k) ↔
        ∃ x, x ∈ st :: more ∧
             (is_Some (Transitions x !! k) ∨ is_Some (Errors x !! k))) ∧
  ident (signals s') ∧
  flaps s' = flaps s.
Proof.
  unfold build.
  destruct (foldM add_state _ more) as [e|sts] eqn:Hadd; [done|].
  destruct (build_states _ _ _ Hadd) as [Hnd Hlook].
  destruct (compile sts) as [e|sigs] eqn:Hc; [done|].
  intros [= <-]. cbn. split; [done|]. split; [|split; [done|split; [|split; [|done]]]].
  - apply (valid_machine_states st more sts Hlook). apply compile_ok_iff. eauto.
  - intros k. destruct (compile_signals _ _ Hc k) as [-> _].
    unfold used_signal. split.
    + intros (i & x & Hx & Hkey). exists x. split; [|done].
      apply Hlook in Hx as [Hx _]. exact Hx.
    + intros (x & Hx & Hkey). exists (State_Index x), x. split; [|done]. by apply Hlook.
  - intros k v. destruct (compile_signals _ _ Hc k) as [_ Hid]. apply Hid.
Qed.

Lemma build_total (s : spec) (st : State) (more : list State) :
  NoDup (State_Index <$> st :: more) → valid_states (st :: more) →
  ∃ s', build s st more = (s', None).
Proof.
  intros Hnd Hvalid. unfold build.
  rewrite fmap_cons in Hnd. apply NoDup_cons in Hnd as [Hst Hnd].
  destruct (add_states_total more {[State_Index st := st]} Hnd) as [sts Hadd].
  { intros x Hx. apply lookup_singleton_None. intros Heq. apply Hst.
    apply list_elem_of_fmap. by exists x. }
  rewrite Hadd. destruct (build_states _ _ _ Hadd) as [_ Hlook].
  apply (valid_machine_states st more sts Hlook) in Hvalid.
  apply compile_ok_iff in Hvalid as [sigs ->]. eauto.
Qed.

(** X1: [build] returns no error exactly when the states given have pairwise
    distinct indices and each of them passes the checks of [compile]. *)
Theorem build_succeeds_iff (s : spec) (st : State) (more : list State) :
  (build s st more).2 = None ↔
  NoDup (State_Index <$> st :: more) ∧ valid_states (st :: more).
Proof.
  split.
  - intros Hok. destruct (build s st more) as [s' e] eqn:Hb. cbn in Hok. subst e.
    destruct (build_ok _ _ _ _ Hb) as (? & ? & _). done.
  - intros [Hnd Hvalid]. by destruct (build_total s st more Hnd Hvalid) as [s' ->].
Qed.

(** X2: what a successful [build] returns: the states map holds each given
    state under its own index and nothing else; the known signals are the
    keys of the Transitions and Errors maps of the given states, each
    recorded under itself; the flap table is the receiver's. *)
Theorem build_result (s : spec) (st : State) (more : list State) (s' : spec) :
  build s st more = (s', None) →
  (∀ i x, states s' !! i = Some x ↔ x ∈ st :: more ∧ State_Index x = i) ∧
  (∀ k, is_Some (signals s' !! k) ↔
        ∃ x, x ∈ st :: more ∧
             (is_Some (Transitions x !! k) ∨ is_Some (Errors x !! k))) ∧
  (∀ k v, signals s' !! k = Some v → v = k) ∧
  flaps s' = flaps s.
Proof.
  intros Hb. destruct (build_ok _ _ _ _ Hb) as (_ & _ & Hlook & Hknown & Hid & Hfl).
  done.
Qed.

Lemma foldM_error_origin {A B : Type} (f : B → A → Err + B) (l : list A) :
  ∀ b e, foldM f b l = inl e → ∃ b0 x, x ∈ l ∧ f b0 x = inl e.
Proof.
  induction l as [|y l IH]; intros b e Hfold; cbn in Hfold; [done|].
  destruct (f b y) as [e'|b1] eqn:Hy.
  - injection Hfold as <-. exists b, y. split; [left|done].
  - destruct (IH _ _ Hfold) as (b0 & x & Hx & Hf). exists b0, x. split; [by right|done].
Qed.

(** The first duplicate: the index that [build] reports is declared at two
    positions of the list it is given. *)
Lemma add_states_dup more : ∀ m e,
  foldM add_state m more = inl e →
  ∃ j y, more !! j = Some y ∧ e = ErrDuplicateState (State_Index y) ∧
    (is_Some (m !! State_Index y) ∨
     ∃ j' x, (j' < j)%nat ∧ more !! j' = Some x ∧ State_Index x = State_Index y).
Proof.
  induction more as [|y0 more IH]; intros m e Hfold; [done|].
  cbn in Hfold. unfold add_state in Hfold at 1.
  destruct (m !! State_Index y0) as [z|] eqn:Hy0.
  - injection Hfold as <-. exists 0%nat, y0. split; [done|]. split; [done|].
    left. by rewrite Hy0.
  - destruct (IH _ _ Hfold) as (j & y & Hj & -> & Hwhy).
    exists (S j), y. split; [done|]. split; [done|].
    destruct Hwhy as [Hm|(j' & x & Hlt & Hj' & Heq)].
    + destruct (decide (State_Index y0 = State_Index y)) as [Heq|Hne].
      * right. exists 0%nat, y0. split; [lia|]. done.
      * left. by rewrite lookup_insert_ne in Hm.
    + right. exists (S j'), x. split; [lia|]. done.
Qed.

(** X3: when two of the given states share an index, [build] stops at the
    duplicate check: it returns the receiver as it was, with the error
    ErrDuplicateState for an index declared at two positions, whatever else
    is wrong with the machine. *)
Theorem build_duplicate (s : spec) (st : State) (more : list State) :
  ¬ NoDup (State_Index <$> st :: more) →
  ∃ i j1 j2,
    build s st more = (s, Some (ErrDuplicateState i)) ∧
    (j1 < j2)%nat ∧
    (State_Index <$> st :: more) !! j1 = Some i ∧
    (State_Index <$> st :: more) !! j2 = Some i.
Proof.
  intros Hdup. unfold build.
  destruct (foldM add_state _ more) as [e|sts] eqn:Hadd.
  2:{ destruct (build_states _ _ _ Hadd) as [Hnd _]. done. }
  destruct (add_states_dup _ _ _ Hadd) as (j & y & Hj & -> & Hwhy).
  assert (Hjy : (State_Index <$> st :: more) !! S j = Some (State_Index y)).
  { change ((State_Index <$> more) !! j = Some (State_Index y)).
    by rewrite list_lookup_fmap, Hj. }
  destruct Hwhy as [[z Hz]|(j' & x & Hlt & Hj' & Heq)].
  - apply lookup_singleton_Some in Hz as [Hz _].
    exists (State_Index y), 0%nat, (S j). split; [done|]. split; [lia|].
    split; [|done]. cbn. by rewrite Hz.
  - exists (State_Index y), (S j'), (S j). split; [done|]. split; [lia|].
    split; [|done]. change ((State_Index <$> more) !! j' = Some (State_Index y)).
    by rewrite list_lookup_fmap, Hj', <- Heq.
Qed.

Lemma register_transfers_error m (tr : gmap Signal Index) sg e :
  foldM (register_transfer m) sg (map_to_list tr) = inl e →
  ∃ sig n, tr !! sig = Some n ∧ m !! n = None ∧ e = ErrUnknownState n.
Proof.
  intros Hfold. destruct (foldM_error_origin _ _ _ _ Hfold) as (b0 & [sig n] & Hin & Hf).
  apply elem_of_map_to_list in Hin. unfold register_transfer in Hf. cbn in Hf.
  destruct (m !! n) eqn:Hn; [done|]. injection Hf as <-. eauto.
Qed.

Lemma register_transfers_dangling m (tr : gmap Signal Index) sg sig n :
  tr !! sig = Some n → m !! n = None →
  ∃ e, foldM (register_transfer m) sg (map_to_list tr) = inl e.
Proof.
  intros Htr Hn.
  destruct (foldM_fails (λ _, True) (register_transfer m) (map_to_list tr)) with (b := sg)
    as (e & He & _); [done| |by exists e].
  exists (sig, n). split; [by apply elem_of_map_to_list|].
  intros b. unfold register_transfer. cbn. rewrite Hn. by eexists.
Qed.

(** X4: when the indices are distinct and some Transitions or Errors entry
    targets an index that no given state declares, [build] returns the
    receiver as it was with ErrUnknownState for such a dangling target. *)
Theorem build_dangling (s : spec) (st : State) (more : list State) :
  NoDup (State_Index <$> st :: more) →
  (∃ x sig n, x ∈ st :: more ∧
     (Transitions x !! sig = Some n ∨ Errors x !! sig = Some n) ∧
     ¬ declared (st :: more) n) →
  ∃ x sig n,
    build s st more = (s, Some (ErrUnknownState n)) ∧
    x ∈ st :: more ∧
    (Transitions x !! sig = Some n ∨ Errors x !! sig = Some n) ∧
    ¬ declared (st :: more) n.
Proof.
  intros Hnd (x & sig & n & Hx & Htgt & Hundecl). unfold build.
  rewrite fmap_cons in Hnd. apply NoDup_cons in Hnd as [Hst Hnd].
  destruct (add_states_total more {[State_Index st := st]} Hnd) as [sts Hadd].
  { intros y Hy. apply lookup_singleton_None. intros Heq. apply Hst.
    apply list_elem_of_fmap. by exists y. }
  rewrite Hadd. destruct (build_states _ _ _ Hadd) as [_ Hlook].
  assert (Hd : ∀ k, sts !! k = None ↔ ¬ declared (st :: more) k).
  { intros k. rewrite eq_None_not_Some. unfold declared. split.
    - intros Hk (y & Hy & Hi). apply Hk. exists y. by apply Hlook.
    - intros Hk [y Hy]. apply Hk. exists y. by apply Hlook. }
  set (P := λ e, ∃ y sig' n', e = ErrUnknownState n' ∧ y ∈ st :: more ∧
                  (Transitions y !! sig' = Some n' ∨ Errors y !! sig' = Some n') ∧
                  sts !! n' = None).
  destruct (foldM_fails P (register_state sts) (map_to_list sts).*2)
    with (b := (∅ : gmap Signal Signal)) as (e & He & (y & sig' & n' & -> & Hy & Htg & Hn')).
  - intros b y e [i Hi]%elem_of_map_values. apply Hlook in Hi as [Hy _].
    unfold register_state. cbn [foldM].
    destruct (foldM (register_transfer sts) b (map_to_list (Transitions y)))
      as [e1|b1] eqn:H1.
    + intros [= <-]. destruct (register_transfers_error _ _ _ _ H1) as (k & t & Hk & Ht & ->).
      exists y, k, t. auto.
    + destruct (foldM (register_transfer sts) b1 (map_to_list (Errors y)))
        as [e2|b2] eqn:H2; [|done].
      intros [= <-]. destruct (register_transfers_error _ _ _ _ H2) as (k & t & Hk & Ht & ->).
      exists y, k, t. auto.
  - exists x. split; [apply elem_of_map_values; exists (State_Index x); by apply Hlook|].
    intros b. unfold register_state. cbn [foldM].
    destruct (foldM (register_transfer sts) b (map_to_list (Transitions x)))
      as [e1|b1] eqn:H1; [by eexists|].
    destruct Htgt as [Htr|Her].
    + destruct (register_transfers_dangling sts (Transitions x) b sig n Htr) as [e He'];
        [by apply Hd|]. congruence.
    + destruct (register_transfers_dangling sts (Errors x) b1 sig n Her) as [e He'];
        [by apply Hd|]. rewrite He'. by eexists.
  - unfold compile. rewrite He. exists y, sig', n'. split; [done|]. split; [done|].
    split; [done|]. by apply Hd.
Qed.

(** X5: on a spec returned by [build], [transition] from a state succeeds
    exactly on the keys of that state's Transitions map; in particular the
    signal raised by a positive TTL and the one raised by a positive Visit
    limit always have a transition from the state that declares them. *)
Theorem built_transition_ok_iff (s : spec) (st : State) (more : list State)
    (s' : spec) (i : Index) (x : State) :
  build s st more = (s', None) →
  states s' !! i = Some x →
  (∀ sig, tr_err (transition s' i sig) = None ↔ is_Some (Transitions x !! sig)) ∧
  (0 < TTL (State_TTL x) →
     tr_err (transition s' i (Expiry_Raise (State_TTL x))) = None) ∧
  (0 < Value (Visit x) →
     tr_err (transition s' i (Limit_Raise (Visit x))) = None).
Proof.
  intros Hb Hx.
  destruct (build_ok _ _ _ _ Hb) as (_ & Hvalid & Hlook & Hknown & _).
  pose proof Hx as Hx'. apply Hlook in Hx' as [Hin Hi].
  destruct (Hvalid x Hin) as (_ & _ & _ & Ht & Hv).
  assert (Hiff : ∀ sig, tr_err (transition s' i sig) = None ↔ is_Some (Transitions x !! sig)).
  { intros sig. unfold transition. rewrite Hx. split.
    - case_decide; [done|]. destruct (signals s' !! sig); [|done].
      destruct (Transitions x !! sig); [by eexists|done].
    - intros [n Hn].
      rewrite decide_False.
      2:{ intros Hsz%map_size_empty_iff. rewrite Hsz in Hn. by rewrite lookup_empty in Hn. }
      assert (is_Some (signals s' !! sig)) as [v ->].
      { apply Hknown. exists x. split; [done|]. left. by eexists. }
      by rewrite Hn. }
  split; [done|]. split; intros Hp; apply Hiff; auto.
Qed.

End BuildComplete.

(** ** What the operations do to the instances of the store *)

Section Keeps.
Context {F : Type} `{!FlapLog F}.
Implicit Types (g : runner F) (i inst : instance F) (a b : nat) (h : list (instance F)).

Variable R : nat → instance F → instance F → Prop.
Hypothesis R_refl : ∀ b i, R b i i.
Hypothesis R_trans : ∀ b i1 i2 i3, R b i1 i2 → R b i2 i3 → R b i1 i3.
Hypothesis R_index : ∀ b k i, R b i (set_index k i).

Lemma keeps_refl h : keeps R h h.
Proof. split; [done|]. eauto. Qed.

Lemma keeps_trans h1 h2 h3 : keeps R h1 h2 → keeps R h2 h3 → keeps R h1 h3.
Proof.
  intros [Hl1 H1] [Hl2 H2]. split; [congruence|].
  intros b i Hi. destruct (H1 b i Hi) as (i2 & Hi2 & Hr1).
  destruct (H2 b i2 Hi2) as (i3 & Hi3 & Hr2). eauto.
Qed.

Lemma keeps_alter h a (f : instance F → instance F) :
  (∀ i, R a i (f i)) → keeps R h (alter f a h).
Proof.
  intros Hf. split; [apply length_alter|]. intros b i Hi.
  destruct (decide (a = b)) as [->|Hne].
  - exists (f i). by rewrite list_lookup_alter_eq, Hi.
  - exists i. by rewrite list_lookup_alter_ne.
Qed.

Lemma keeps_reindex q k h : keeps R h (reindex k q h).
Proof.
  split; [apply reindex_length|]. intros b i Hi.
  destruct (reindex_lookup q k h b i Hi) as (k' & Hk' & _). eauto.
Qed.

Lemma keeps_remove a q h : keeps R h (remove a q h).2.
Proof.
  unfold remove. cbn [snd].
  eapply keeps_trans; [apply (keeps_alter h a (set_index (-1)))|apply keeps_reindex].
  intros i. apply R_index.
Qed.

Lemma processDeadline_keeps g a state :
  (∀ i exp, expiry (g_spec g) state = (exp, None) →
            R a i (update i state (g_now g) (from_option TTL 0 exp))) →
  keeps R (g_heap g) (g_heap (processDeadline g a state).1).
Proof.
  intros Hupd. unfold processDeadline.
  destruct (expiry (g_spec g) state) as [exp [err|]] eqn:Hexp; [apply keeps_refl|].
  cbn [set_heap g_heap].
  assert (H1 : keeps R (g_heap g)
                 (alter (λ i, update i state (ct g) (from_option TTL 0 exp)) a (g_heap g))).
  { apply keeps_alter. intros i. by apply Hupd. }
  destruct (_ !! a) as [inst|]; [|exact H1].
  repeat case_decide; cbn; try exact H1; (eapply keeps_trans; [exact H1|]).
  - apply keeps_reindex.
  - apply keeps_remove.
  - apply keeps_reindex.
Qed.

Lemma processVisitLimit_heap g a state :
  g_heap (processVisitLimit g a state).1 = g_heap g.
Proof.
  unfold processVisitLimit.
  destruct (visit (g_spec g) state) as [[limit|] [err|]]; try done.
  destruct (g_heap g !! a); [|done]. case_decide; [|done].
  by destruct (raise_frame g a (Limit_Raise limit) (i_state i)) as (_ & _ & _ & _ & _ & _ & ? & _).
Qed.

Lemma land_keeps g a next :
  (∀ i exp, expiry (g_spec g) next = (exp, None) →
            R a i (update i next (g_now g) (from_option TTL 0 exp))) →
  keeps R (g_heap g) (g_heap (land g a next).1).
Proof.
  intros Hupd. unfold land.
  pose proof (processDeadline_keeps g a next Hupd) as Hk.
  destruct (processDeadline g a next) as [g1 [err|]]; [exact Hk|].
  by rewrite processVisitLimit_heap.
Qed.

Lemma complete_keeps g a ev current next action :
  (∀ i n exp, expiry (g_spec g) n = (exp, None) →
              R a i (update i n (g_now g) (from_option TTL 0 exp))) →
  (∀ i, R a i (attached ev i)) →
  keeps R (g_heap g) (g_heap (complete g a ev current next action).1).
Proof.
  intros Hupd Hatt. unfold complete.
  assert (H1 : keeps R (g_heap g) (g_heap (attach_data g a ev))).
  { unfold attach_data. destruct (e_data ev) as [d|] eqn:Hd; [|apply keeps_refl].
    apply keeps_alter. intros i. specialize (Hatt i). unfold attached in Hatt.
    by rewrite Hd in Hatt. }
  pose proof (invoke_action_frame (attach_data g a ev) a ev current next action)
    as (Hs & _ & Hn & _ & Hh & _).
  destruct (invoke_action _ _ _ _ _ _) as [g2 next']. cbn in Hs, Hn, Hh.
  eapply keeps_trans; [exact H1|]. rewrite <- Hh. apply land_keeps.
  intros i exp Hexp. rewrite Hn.
  assert (Hs' : g_spec (attach_data g a ev) = g_spec g)
    by (unfold attach_data; by destruct (e_data ev)).
  assert (Hn' : g_now (attach_data g a ev) = g_now g)
    by (unfold attach_data; by destruct (e_data ev)).
  rewrite Hn'. apply Hupd. by rewrite <- Hs', <- Hs.
Qed.

Lemma handleEvent_keeps g a ev :
  (∀ i n exp, expiry (g_spec g) n = (exp, None) →
              R a i (update i n (g_now g) (from_option TTL 0 exp))) →
  (∀ i, R a i (attached ev i)) →
  (∀ i l, R a i (set_flaps l i)) →
  keeps R (g_heap g) (g_heap (handleEvent g a ev).1).
Proof.
  intros Hupd Hatt Hfl. unfold handleEvent.
  destruct (g_heap g !! a) as [inst|]; [|apply keeps_refl].
  destruct (transition _ _ _) as [[next action] [err|]]; [apply keeps_refl|].
  destruct (flap _ _ _) as [limit|]; [|by apply complete_keeps].
  case_decide; [|by apply complete_keeps].
  assert (H1 : keeps R (g_heap g)
            (alter (λ i, set_flaps (record (i_state inst) next (i_flaps i)) i) a (g_heap g))).
  { apply keeps_alter. intros i. apply Hfl. }
  case_decide.
  - cbn [fst].
    destruct (raise_frame (set_heap (alter (λ i, set_flaps (record (i_state inst) next (i_flaps i)) i)
                                       a (g_heap g)) g) a (Flap_Raise limit) (i_state inst))
      as (_ & _ & _ & _ & _ & _ & -> & _). exact H1.
  - eapply keeps_trans; [exact H1|]. by apply complete_keeps.
Qed.

Hypothesis R_deadline : ∀ b d i, R b i (set_deadline d i).

Lemma reset_keeps a h :
  keeps R h (alter (λ i, set_index (-1) (set_deadline (-1) i)) a h).
Proof.
  apply keeps_alter. intros i. eapply R_trans; [apply R_deadline|apply R_index].
Qed.

Lemma drain_keeps n now : ∀ g, keeps R (g_heap g) (g_heap (drain n now g).1).
Proof.
  induction n as [|n IH]; intros g; cbn [drain]; [apply keeps_refl|].
  destruct (peek _ _) as [a|]; [|apply keeps_refl]. case_decide; [apply keeps_refl|].
  assert (H1 : keeps R (g_heap g) (g_heap (set_queue (dequeue (g_deadlines g) (g_heap g)).2 g))).
  { unfold dequeue. destruct (q_min _ _) as [a'|]; cbn; [|apply keeps_refl].
    apply keeps_remove. }
  set (g1 := set_queue (dequeue (g_deadlines g) (g_heap g)).2 g) in *.
  destruct (g_heap g1 !! a) as [inst|]; [|exact H1].
  assert (H2 : keeps R (g_heap g)
            (alter (λ i, set_index (-1) (set_deadline (-1) i)) a (g_heap g1))).
  { eapply keeps_trans; [exact H1|apply reset_keeps]. }
  case_decide.
  - destruct (expiry _ _) as [[ttl|] [err|]]; try exact H1.
    + destruct (raise_frame g1 a (Expiry_Raise ttl) (i_state inst))
        as (_ & _ & _ & _ & _ & _ & Hh & _).
      cbn zeta. destruct (g_blocked _); cbn [fst]; [by rewrite Hh|].
      eapply keeps_trans; [|apply IH].
      cbn [set_heap g_heap]. rewrite Hh. exact H2.
    + eapply keeps_trans; [|apply IH]. exact H2.
  - eapply keeps_trans; [|apply IH]. exact H2.
Qed.

Lemma handleClockTick_keeps g : keeps R (g_heap g) (g_heap (handleClockTick g).1).
Proof. unfold handleClockTick. apply (drain_keeps _ _ (tick g)). Qed.

End Keeps.

Section StoreTheorems.
Context {F : Type} `{!FlapLog F}.
Implicit Types (g : runner F) (i inst : instance F) (a b : nat) (h : list (instance F)).

Lemma keeps_backward (R : nat → instance F → instance F → Prop) h h' :
  keeps R h h' → ∀ b i', h' !! b = Some i' → ∃ i, h !! b = Some i ∧ R b i i'.
Proof.
  intros [Hlen Hfw] b i' Hi'.
  destruct (h !! b) as [i|] eqn:Hi.
  - destruct (Hfw b i Hi) as (i'' & Hi'' & Hr). exists i. split; [done|]. congruence.
  - apply lookup_ge_None in Hi. apply lookup_lt_Some in Hi'. lia.
Qed.

Lemma keeps_grows (R : nat → instance F → instance F → Prop) h h' :
  keeps R h h' → grows R h h'.
Proof. intros [Hlen Hfw]. split; [lia|done]. Qed.

(** [alloc] on the store: the instances already there are kept; a failed
    call leaves the store as it was, a successful one adds one instance. *)
Lemma alloc_store (R : nat → instance F → instance F → Prop) g initial :
  (∀ b i, R b i i) →
  (∀ b i1 i2 i3, R b i1 i2 → R b i2 i3 → R b i1 i3) →
  (∀ b k i, R b i (set_index k i)) →
  (∀ b i exp, expiry (g_spec g) initial = (exp, None) →
              R b i (update i initial (g_now g) (from_option TTL 0 exp))) →
  match alloc g initial with
  | (g', Some fsm, None) =>
      fsm = length (g_heap g) ∧
      keeps R (g_heap g ++ [mkInstance (g_next g) initial None newFlaps 0 0 (-1) {[initial := 1]}])
              (g_heap g') ∧
      is_Some (states (g_spec g) !! initial)
  | (g', _, _) => g_heap g' = g_heap g ∧ g_deadlines g' = g_deadlines g
  end.
Proof.
  intros Hrefl Htrans Hidx Hupd. unfold alloc.
  set (new := mkInstance _ _ _ _ _ _ _ _).
  set (g1 := set_heap _ _).
  pose proof (processDeadline_keeps R Hrefl Htrans Hidx g1 (length (g_heap g)) initial) as Hk.
  assert (Hdef : (processDeadline g1 (length (g_heap g)) initial).2 = None →
                 is_Some (states (g_spec g) !! initial)).
  { unfold processDeadline, expiry. cbn [g_spec g1 set_heap set_next].
    destruct (states (g_spec g) !! initial); [by eexists|done]. }
  cbn [set_next g_heap] in *.
  destruct (processDeadline g1 (length (g_heap g)) initial) as [g' [err|]]; [done|].
  split; [done|]. split; [|by apply Hdef]. apply Hk. intros i exp Hexp. by apply Hupd.
Qed.

Lemma alloc_grows (R : nat → instance F → instance F → Prop) g initial :
  (∀ b i, R b i i) →
  (∀ b i1 i2 i3, R b i1 i2 → R b i2 i3 → R b i1 i3) →
  (∀ b k i, R b i (set_index k i)) →
  (∀ b i exp, expiry (g_spec g) initial = (exp, None) →
              R b i (update i initial (g_now g) (from_option TTL 0 exp))) →
  grows R (g_heap g) (g_heap (alloc g initial).1.1).
Proof.
  intros Hrefl Htrans Hidx Hupd.
  pose proof (alloc_store R g initial Hrefl Htrans Hidx Hupd) as Hs.
  destruct (alloc g initial) as [[g' [fsm|]] [err|]]; cbn.
  - destruct Hs as [-> _]. split; [done|]. eauto.
  - destruct Hs as (_ & [Hlen Hfw] & _). split.
    + rewrite Hlen, length_app. lia.
    + intros b i Hi. apply Hfw. by apply lookup_app_l_Some.
  - destruct Hs as [-> _]. split; [done|]. eauto.
  - destruct Hs as [-> _]. split; [done|]. eauto.
Qed.

Lemma handleError_heap g err : g_heap (handleError g err) = g_heap g.
Proof. by destruct (handleError_frame g err) as (_ & _ & _ & _ & _ & _ & ? & _). Qed.

(** A transaction on the store, for a relation that every rewriting of the
    handlers respects. *)
Lemma run_txn_keeps (R : nat → instance F → instance F → Prop) g t :
  (∀ b i, R b i i) →
  (∀ b i1 i2 i3, R b i1 i2 → R b i2 i3 → R b i1 i3) →
  (∀ b k i, R b i (set_index k i)) →
  (∀ b d i, R b i (set_deadline d i)) →
  (∀ b i l, R b i (set_flaps l i)) →
  (∀ b i n exp, expiry (g_spec g) n = (exp, None) →
                R b i (update i n (g_now g) (from_option TTL 0 exp))) →
  (∀ ev b i, t = TxEvent ev → R b i (attached ev i)) →
  keeps R (g_heap g) (g_heap (run_txn g t)).
Proof.
  intros Hrefl Htrans Hidx Hdl Hfl Hupd Hatt. unfold run_txn.
  assert (Hk : keeps R (g_heap g)
            (g_heap (match t with
                     | TxClockTick => handleClockTick g
                     | TxEvent ev => handleEvent g (e_ref ev) ev
                     | TxRead => (g, None)
                     end).1)).
  { destruct t as [|ev|].
    - by apply handleClockTick_keeps.
    - apply handleEvent_keeps; eauto.
    - by apply keeps_refl. }
  destruct (match t with TxClockTick => _ | TxEvent ev => _ | TxRead => _ end)
    as [g' [err|]]; [by rewrite handleError_heap|done].
Qed.

Lemma step_grows (R : nat → instance F → instance F → Prop) g g' :
  (∀ b i, R b i i) →
  (∀ b i1 i2 i3, R b i1 i2 → R b i2 i3 → R b i1 i3) →
  (∀ b k i, R b i (set_index k i)) →
  (∀ b d i, R b i (set_deadline d i)) →
  (∀ b i l, R b i (set_flaps l i)) →
  (∀ b i d, R b i (set_data d i)) →
  (∀ b i n now exp, expiry (g_spec g) n = (exp, None) →
                    R b i (update i n now (from_option TTL 0 exp))) →
  step g g' → grows R (g_heap g) (g_heap g').
Proof.
  intros Hrefl Htrans Hidx Hdl Hfl Hdata Hupd Hstep.
  assert (Hsame : ∀ h, grows R h h) by (intros h; split; eauto).
  destruct Hstep; try apply Hsame.
  - apply alloc_grows; eauto.
  - unfold signal. destruct (signals _ !! _); apply Hsame.
  - apply keeps_grows. apply (run_txn_keeps R g t); eauto.
    intros ev b i _. unfold attached. destruct (e_data ev); [apply Hdata|apply Hrefl].
  - unfold Stop. destruct (g_running g); apply Hsame.
Qed.

(** X9: an instance is never lost and its id never changes: whatever moves
    the system makes from a configuration on, an instance of the store is
    still at its address, with the id it had. *)
Theorem instance_id_constant g g' a inst :
  rtc step g g' →
  g_heap g !! a = Some inst →
  ∃ inst', g_heap g' !! a = Some inst' ∧ i_id inst' = i_id inst.
Proof.
  intros Hsteps. revert inst. induction Hsteps as [g|g g1 g' Hstep _ IH]; intros inst Ha.
  - eauto.
  - assert (grows (λ _ i i', i_id i' = i_id i) (g_heap g) (g_heap g1)) as [_ Hfw].
    { apply step_grows; try done. intros; congruence. }
    destruct (Hfw a inst Ha) as (i1 & Hi1 & Hid1).
    destruct (IH i1 Hi1) as (i' & Hi' & Hid'). exists i'. split; [done|]. congruence.
Qed.

(** X12: an event for the instance at [a] leaves every other instance as it
    was, except possibly for its position in the deadline queue. *)
Theorem event_leaves_others g a ev b i :
  g_heap g !! b = Some i →
  b ≠ a →
  ∃ k, g_heap (handleEvent g a ev).1 !! b = Some (set_index k i).
Proof.
  intros Hb Hne.
  assert (keeps (λ c j j', c ≠ a → ∃ k, j' = set_index k j) (g_heap g)
            (g_heap (handleEvent g a ev).1)) as [_ Hfw].
  { apply handleEvent_keeps; try done.
    - intros c j _. exists (i_index j). by rewrite set_index_id.
    - intros c j1 j2 j3 H12 H23 Hc. destruct (H12 Hc) as [k1 ->].
      destruct (H23 Hc) as [k2 ->]. exists k2. by rewrite set_index_set_index.
    - intros c k j _. by exists k. }
  destruct (Hfw b i Hb) as (i' & Hi' & Hr). destruct (Hr Hne) as [k ->]. by exists k.
Qed.

(** X13: a clock tick only reschedules: every instance of the store keeps
    its id, state, data, flap log, start time and visit counters, whether or
    not it was due; states change only when the posted events are handled. *)
Theorem tick_only_reschedules g b i :
  g_heap g !! b = Some i →
  ∃ i', g_heap (handleClockTick g).1 !! b = Some i' ∧ same_but_schedule i i'.
Proof.
  intros Hb.
  assert (keeps (λ _ : nat, same_but_schedule) (g_heap g)
            (g_heap (handleClockTick g).1)) as [_ Hfw].
  { apply handleClockTick_keeps; try done.
    intros _ i1 i2 i3 (? & ? & ? & ? & ? & ?) (? & ? & ? & ? & ? & ?).
    repeat split; congruence. }
  by apply Hfw.
Qed.

(** X15: the data of an instance changes only through an event that carries
    data: a clock tick, a read, and an event without data (as every event
    raised by the runner itself is) leave Data() of every instance as it was. *)
Theorem data_changes_only_with_event_data g t b i :
  (∀ ev, t = TxEvent ev → e_data ev = None) →
  g_heap g !! b = Some i →
  ∃ i', g_heap (run_txn g t) !! b = Some i' ∧ Data_of i' = Data_of i.
Proof.
  intros Hnodata Hb.
  assert (keeps (λ _ j j', i_data j' = i_data j) (g_heap g)
            (g_heap (run_txn g t))) as [_ Hfw].
  { apply run_txn_keeps; try done.
    - intros; congruence.
    - intros ev c j Ht. unfold attached. by rewrite (Hnodata ev Ht). }
  by apply Hfw.
Qed.

End StoreTheorems.

Section Calls.
Context {F : Type} `{!FlapLog F}.
Implicit Types (g : runner F) (inst : instance F) (a : nat).

Lemma allocated_lt h s i x p :
  allocated h s → p_states s !! i = Some x → P_Actions x = Some p → (p < length h)%nat.
Proof. intros Hal Hx Hp. exact (Hal i x Hx p Hp). Qed.

Lemma SetAction_lookup h s state sig action st cur :
  allocated h s →
  p_states s !! state = Some st →
  states (spec_at (SetAction h s state sig action).1.1
            (SetAction h s state sig action).1.2) !! cur =
    (λ y, if written s state cur then with_action sig action y else y) <$>
      states (spec_at h s) !! cur.
Proof.
  intros Hal Hst. unfold SetAction, written, shares. rewrite Hst.
  destruct (P_Actions st) as [p|] eqn:Hp; cbn.
  - rewrite Hp. cbn. rewrite !lookup_fmap.
    assert (Hlt : (p < length h)%nat) by exact (allocated_lt _ _ _ _ _ Hal Hst Hp).
    destruct (lookup_lt_is_Some_2 h p Hlt) as [m Hm].
    destruct (decide (cur = state)) as [->|Hne].
    + rewrite lookup_insert_eq, Hst. cbn.
      rewrite bool_decide_eq_true_2 by done. cbn.
      unfold State_at, with_action. cbn. rewrite Hp. cbn.
      by rewrite list_lookup_alter_eq, Hm.
    + rewrite lookup_insert_ne by done.
      rewrite (bool_decide_eq_false_2 (cur = state)) by done. cbn.
      destruct (p_states s !! cur) as [x|] eqn:Hx; [|done]. cbn.
      destruct (P_Actions x) as [q|] eqn:Hq.
      * destruct (decide (p = q)) as [<-|Hpq].
        -- rewrite bool_decide_eq_true_2 by done.
           unfold State_at, with_action. cbn. rewrite Hq. cbn.
           by rewrite list_lookup_alter_eq, Hm.
        -- rewrite bool_decide_eq_false_2 by done.
           unfold State_at. rewrite Hq. cbn.
           by rewrite list_lookup_alter_ne.
      * unfold State_at. by rewrite Hq.
  - rewrite !lookup_fmap.
    assert (Hnew : alter (<[sig := action]>) (length h) (h ++ [∅])
                   = h ++ [ {[sig := action]} ]).
    { apply list_eq. intros n.
      destruct (decide (n = length h)) as [->|Hn].
      - rewrite list_lookup_alter_eq.
        rewrite !lookup_app_r by lia. by rewrite Nat.sub_diag.
      - rewrite list_lookup_alter_ne by done.
        destruct (decide (n < length h)%nat).
        + by rewrite !lookup_app_l.
        + rewrite !lookup_app_r by lia.
          destruct (n - length h)%nat as [|k] eqn:Hk; [lia|done]. }
    rewrite Hnew.
    destruct (decide (cur = state)) as [->|Hne].
    + rewrite lookup_insert_eq, Hst. cbn.
      rewrite bool_decide_eq_true_2 by done. cbn.
      unfold State_at, with_action. cbn. rewrite Hp. cbn.
      rewrite lookup_app_r by lia. by rewrite Nat.sub_diag.
    + rewrite lookup_insert_ne by done.
      rewrite (bool_decide_eq_false_2 (cur = state)) by done. cbn.
      destruct (p_states s !! cur) as [x|] eqn:Hx; [|done]. cbn.
      unfold State_at.
      destruct (P_Actions x) as [q|] eqn:Hq; [|done]. cbn.
      assert (Hlt : (q < length h)%nat) by exact (allocated_lt _ _ _ _ _ Hal Hx Hq).
      by rewrite lookup_app_l.
Qed.

Lemma SetAction_frame h s state sig action :
  p_signals (SetAction h s state sig action).1.2 = p_signals s ∧
  p_flaps (SetAction h s state sig action).1.2 = p_flaps s.
Proof.
  unfold SetAction. destruct (p_states s !! state) as [st|]; [|done].
  by destruct (P_Actions st).
Qed.

Lemma SetAction_allocated h s state sig action :
  allocated h s →
  allocated (SetAction h s state sig action).1.1 (SetAction h s state sig action).1.2.
Proof.
  intros Hal. unfold SetAction.
  destruct (p_states s !! state) as [st|] eqn:Hst; [|done].
  destruct (P_Actions st) as [p|] eqn:Hp; cbn.
  - rewrite Hp. cbn. intros i x Hx q Hq. rewrite length_alter. cbn in Hx.
    destruct (decide (i = state)) as [->|Hne].
    + rewrite lookup_insert_eq in Hx. injection Hx as <-.
      exact (allocated_lt _ _ _ _ _ Hal Hst Hq).
    + rewrite lookup_insert_ne in Hx by done.
      exact (allocated_lt _ _ _ _ _ Hal Hx Hq).
  - intros i x Hx q Hq. rewrite length_alter, length_app. cbn. cbn in Hx.
    destruct (decide (i = state)) as [->|Hne].
    + rewrite lookup_insert_eq in Hx. injection Hx as <-. cbn in Hq.
      injection Hq as <-. lia.
    + rewrite lookup_insert_ne in Hx by done.
      pose proof (allocated_lt _ _ _ _ _ Hal Hx Hq). lia.
Qed.

(** X6: [SetAction] on a state the spec does not have fails and leaves the
    spec and the map objects as they were.  On a state it has, it succeeds
    without any check and writes the action into the map object of that
    state's Actions: the transition on the signal now carries the new action
    in that state and in every state that was declared with the same Actions
    map, where the state has that transition at all.  Nothing else changes:
    where every transition leads and which are refused, the actions of the
    other signals and of the states that hold another map or none, and the
    error, expiry and visit lookups. *)
Theorem SetAction_writes_shared_map h s state sig action :
  allocated h s →
  (p_states s !! state = None →
     SetAction h s state sig action = (h, s, Some (NoSuchState state))) ∧
  (is_Some (p_states s !! state) →
     ∃ h' s', SetAction h s state sig action = (h', s', None) ∧
       allocated h' s' ∧
       (∀ cur k,
          tr_next (transition (spec_at h' s') cur k)
            = tr_next (transition (spec_at h s) cur k) ∧
          tr_err (transition (spec_at h' s') cur k)
            = tr_err (transition (spec_at h s) cur k)) ∧
       (∀ cur k, written s state cur = false ∨ k ≠ sig →
          transition (spec_at h' s') cur k = transition (spec_at h s) cur k) ∧
       (∀ cur, written s state cur = true →
          tr_err (transition (spec_at h s) cur sig) = None →
          tr_action (transition (spec_at h' s') cur sig) = action) ∧
       (∀ cur k, error (spec_at h' s') cur k = error (spec_at h s) cur k) ∧
       (∀ cur, expiry (spec_at h' s') cur = expiry (spec_at h s) cur ∧
               visit (spec_at h' s') cur = visit (spec_at h s) cur) ∧
       flaps (spec_at h' s') = flaps (spec_at h s) ∧
       (wf_spec (spec_at h s) → wf_spec (spec_at h' s'))).
Proof.
  intros Hal. split.
  { intros Hno. unfold SetAction. by rewrite Hno. }
  intros [st Hst].
  assert (Hlook : ∀ cur,
    states (spec_at (SetAction h s state sig action).1.1
              (SetAction h s state sig action).1.2) !! cur =
      (λ y, if written s state cur then with_action sig action y else y) <$>
        states (spec_at h s) !! cur).
  { intros cur. by apply (SetAction_lookup h s state sig action st cur). }
  destruct (SetAction_frame h s state sig action) as [Hsig Hfl].
  pose proof (SetAction_allocated h s state sig action Hal) as Hal'.
  assert (Herr : (SetAction h s state sig action).2 = None).
  { unfold SetAction. rewrite Hst. by destruct (P_Actions st). }
  destruct (SetAction h s state sig action) as [[h' s'] e]. cbn [fst snd] in *. subst e.
  exists h', s'. split; [done|]. split; [done|].
  assert (Hsg : signals (spec_at h' s') = signals (spec_at h s)) by exact Hsig.
  assert (Htr : ∀ cur k,
    tr_next (transition (spec_at h' s') cur k)
      = tr_next (transition (spec_at h s) cur k) ∧
    tr_err (transition (spec_at h' s') cur k)
      = tr_err (transition (spec_at h s) cur k) ∧
    (written s state cur = false ∨ k ≠ sig →
       transition (spec_at h' s') cur k = transition (spec_at h s) cur k) ∧
    (written s state cur = true → k = sig →
       tr_err (transition (spec_at h s) cur k) = None →
       tr_action (transition (spec_at h' s') cur k) = action)).
  { intros cur k. unfold transition. rewrite (Hlook cur), Hsg.
    destruct (states (spec_at h s) !! cur) as [y|]; [|by repeat split]. cbn.
    destruct (written s state cur); cbn.
    - destruct (decide (size (Transitions y) = 0%nat)) as [?|_]; [by repeat split|].
      destruct (p_signals s !! k); [|by repeat split].
      destruct (Transitions y !! k) as [nx|]; [|by repeat split].
      repeat split.
      + intros [?|Hk]; [done|]. by rewrite lookup_insert_ne.
      + intros _ -> _. unfold tr_action. cbn. by rewrite lookup_insert_eq.
    - repeat split; try done. }
  split; [|split; [|split; [|split; [|split; [|split]]]]].
  - intros cur k. destruct (Htr cur k) as (? & ? & _). done.
  - intros cur k Hne. by apply Htr.
  - intros cur Hw Hok. by apply Htr.
  - intros cur k. unfold error. rewrite (Hlook cur), Hsg.
    destruct (states (spec_at h s) !! cur) as [y|]; [|done]. cbn.
    by destruct (written s state cur).
  - intros cur. unfold expiry, visit. rewrite (Hlook cur).
    destruct (states (spec_at h s) !! cur) as [y|]; [|done]. cbn.
    by destruct (written s state cur).
  - exact Hfl.
  - intros [H1 H2 H3 H4].
    assert (Hdef : ∀ n, is_Some (states (spec_at h s) !! n) →
                        is_Some (states (spec_at h' s') !! n)).
    { intros n [y Hn]. rewrite (Hlook n), Hn. by eexists. }
    assert (Hview : ∀ i x, states (spec_at h' s') !! i = Some x →
      ∃ y, states (spec_at h s) !! i = Some y ∧
           Transitions x = Transitions y ∧ Errors x = Errors y ∧
           State_TTL x = State_TTL y ∧ Visit x = Visit y).
    { intros i x Hx. rewrite (Hlook i) in Hx.
      destruct (states (spec_at h s) !! i) as [y|]; [|done]. cbn in Hx.
      injection Hx as <-. exists y. split; [done|].
      by destruct (written s state i). }
    split.
    + intros i x k n Hx Hk. apply Hdef.
      destruct (Hview i x Hx) as (y & Hy & Et & _). rewrite Et in Hk.
      by apply (H1 i y k n).
    + intros i x k n Hx Hk. apply Hdef.
      destruct (Hview i x Hx) as (y & Hy & _ & Ee & _). rewrite Ee in Hk.
      by apply (H2 i y k n).
    + intros i x Hx Hk. rewrite Hsg.
      destruct (Hview i x Hx) as (y & Hy & _ & _ & El & _). rewrite El in Hk |- *.
      by apply (H3 i y).
    + intros i x Hx Hk. rewrite Hsg.
      destruct (Hview i x Hx) as (y & Hy & _ & _ & _ & Ev). rewrite Ev in Hk |- *.
      by apply (H4 i y).
Qed.

Lemma handleError_ignored g err :
  handleError g err =
    if ignored (g_options g) err then g else set_errors (g_errors g ++ [err]) g.
Proof. by destruct err. Qed.

Lemma invoke_action_target g a ev current next action st :
  wf_spec (g_spec g) →
  states (g_spec g) !! current = Some st →
  is_Some (states (g_spec g) !! next) →
  is_Some (states (g_spec g) !! (invoke_action g a ev current next action).2).
Proof.
  intros Hwf Hst Hnext. unfold invoke_action.
  destruct action as [act|]; [|done].
  destruct (g_heap g !! a) as [inst|]; [|done].
  destruct (act (i_id inst) (i_data inst)); [|done].
  unfold error. rewrite Hst.
  destruct (signals (g_spec g) !! e_signal ev); [|done].
  destruct (Errors st !! e_signal ev) as [alt|] eqn:Halt; [|done].
  cbn. by apply (wf_errors _ Hwf current st (e_signal ev) alt).
Qed.

Lemma attach_data_frame g a ev :
  g_spec (attach_data g a ev) = g_spec g.
Proof. unfold attach_data. by destruct (e_data ev). Qed.

Lemma complete_accepts g a ev current next action inst st :
  wf_spec (g_spec g) →
  g_heap g !! a = Some inst →
  states (g_spec g) !! current = Some st →
  is_Some (states (g_spec g) !! next) →
  (complete g a ev current next action).2 = None.
Proof.
  intros Hwf Ha Hst Hnext.
  pose proof (invoke_action_target (attach_data g a ev) a ev current next action st) as Ht.
  rewrite attach_data_frame in Ht. destruct (Ht Hwf Hst Hnext) as [st' Hst'].
  destruct (complete_spec g a ev current next action inst _ st' Hwf Ha eq_refl Hst')
    as (g' & k & -> & _). done.
Qed.

Lemma handleEvent_accepts g a ev inst next action :
  wf_spec (g_spec g) →
  g_heap g !! a = Some inst →
  transition (g_spec g) (i_state inst) (e_signal ev) = (next, action, None) →
  (handleEvent g a ev).2 = None.
Proof.
  intros Hwf Ha Htr.
  destruct (transition_ok _ _ _ _ _ Htr) as (st & Hst & _ & Hnext & _).
  assert (Hn : is_Some (states (g_spec g) !! next))
    by apply (wf_transitions _ Hwf _ _ _ _ Hst Hnext).
  unfold handleEvent. rewrite Ha, Htr.
  destruct (flap (g_spec g) (i_state inst) next) as [limit|].
  - destruct (decide (0 < Count limit)).
    + destruct (decide (Count limit ≤ _)); [done|].
      apply (complete_accepts _ a ev (i_state inst) next action
               (set_flaps (record (i_state inst) next (i_flaps inst)) inst) st);
        [done| |done|done].
      cbn. by rewrite list_lookup_alter_eq, Ha.
    + by apply (complete_accepts g a ev (i_state inst) next action inst st).
  - by apply (complete_accepts g a ev (i_state inst) next action inst st).
Qed.

(** X7: [CanReceive] tells what [handleEvent] will do with the signal: when it
    is true the event is handled without an error; when it is false the
    event is refused with the error of the transition lookup and nothing
    changes. *)
Theorem CanReceive_decides g a ev inst :
  wf_spec (g_spec g) →
  g_heap g !! a = Some inst →
  (CanReceive g a (e_signal ev) = true ↔ (handleEvent g a ev).2 = None) ∧
  (CanReceive g a (e_signal ev) = false →
     ∃ err, handleEvent g a ev = (g, Some err) ∧
            tr_err (transition (g_spec g) (i_state inst) (e_signal ev)) = Some err).
Proof.
  intros Hwf Ha. unfold CanReceive, State_of. rewrite Ha. cbn.
  destruct (transition (g_spec g) (i_state inst) (e_signal ev)) as [[next action] [err|]] eqn:Htr.
  - assert (He : handleEvent g a ev = (g, Some err)).
    { unfold handleEvent. by rewrite Ha, Htr. }
    cbn. rewrite He. split; [done|]. intros _. by exists err.
  - cbn. split; [|done]. split; [|done]. intros _. by eapply handleEvent_accepts.
Qed.

(** X8: an event for a signal the state of its instance cannot take changes
    nothing in the runner, except that the error of the lookup is offered on
    the errors channel, unless the options say to ignore errors of its
    class.  The error of a state without transitions is of no such class:
    it is always offered. *)
Theorem refused_event_only_reports g ev inst err :
  g_heap g !! e_ref ev = Some inst →
  tr_err (transition (g_spec g) (i_state inst) (e_signal ev)) = Some err →
  run_txn g (TxEvent ev) =
    (if ignored (g_options g) err then g else set_errors (g_errors g ++ [err]) g) ∧
  (∀ st, states (g_spec g) !! i_state inst = Some st →
         size (Transitions st) = 0%nat →
         err = ErrNoTransitions ∧
         run_txn g (TxEvent ev) = set_errors (g_errors g ++ [ErrNoTransitions]) g).
Proof.
  intros Ha Herr.
  assert (Hrun : run_txn g (TxEvent ev) = handleError g err).
  { unfold run_txn, handleEvent. rewrite Ha.
    destruct (transition (g_spec g) (i_state inst) (e_signal ev)) as [[next action] e].
    cbn in Herr. by subst e. }
  split.
  - by rewrite Hrun, handleError_ignored.
  - intros st Hst Hsize. unfold transition in Herr. rewrite Hst in Herr.
    destruct (decide (size (Transitions st) = 0%nat)); [|done].
    cbn in Herr. injection Herr as <-. by rewrite Hrun.
Qed.

End Calls.

Section StaticFrame.
Context {F : Type} `{!FlapLog F}.
Implicit Types (g : runner F) (inst : instance F) (a : nat).

Lemma processDeadline_static g a state : static (processDeadline g a state).1 = static g.
Proof.
  unfold processDeadline. destruct (expiry (g_spec g) state) as [exp [err|]]; [done|].
  cbn [set_heap g_heap]. destruct (_ !! a); [|done]. by repeat case_decide.
Qed.

Lemma raise_static g a sig current : static (raise g a sig current).1 = static g.
Proof.
  unfold raise, send. destruct (signals (g_spec g) !! sig); [|done]. by case_decide.
Qed.

Lemma handleError_static g err : static (handleError g err) = static g.
Proof. unfold handleError. by case_match. Qed.

Lemma processVisitLimit_static g a state :
  static (processVisitLimit g a state).1 = static g.
Proof.
  unfold processVisitLimit.
  destruct (visit (g_spec g) state) as [[limit|] [err|]]; try done.
  destruct (g_heap g !! a); [|done]. case_decide; [|done]. apply raise_static.
Qed.

Lemma processVisitLimit_deadlines g a state :
  g_deadlines (processVisitLimit g a state).1 = g_deadlines g.
Proof.
  unfold processVisitLimit.
  destruct (visit (g_spec g) state) as [[limit|] [err|]]; try done.
  destruct (g_heap g !! a); [|done]. case_decide; [|done].
  by destruct (raise_frame g a (Limit_Raise limit) (i_state i)) as (_ & _ & _ & _ & ? & _).
Qed.

Lemma land_deadlines g a next :
  g_deadlines (land g a next).1 = g_deadlines (processDeadline g a next).1.
Proof.
  unfold land. destruct (processDeadline g a next) as [g3 [err|]]; [done|].
  apply processVisitLimit_deadlines.
Qed.

Lemma attach_data_static g a ev : static (attach_data g a ev) = static g.
Proof. unfold attach_data. by destruct (e_data ev). Qed.

Lemma invoke_action_static g a ev current next action :
  static (invoke_action g a ev current next action).1 = static g.
Proof.
  unfold invoke_action. destruct action as [act|]; [|done].
  destruct (g_heap g !! a) as [inst|]; [|done].
  destruct (act _ _); [|done].
  destruct (error _ _ _) as [alt [err|]]; [|done]. apply handleError_static.
Qed.

Lemma complete_static g a ev current next action :
  static (complete g a ev current next action).1 = static g.
Proof.
  unfold complete, land.
  pose proof (invoke_action_static (attach_data g a ev) a ev current next action) as Hs.
  destruct (invoke_action _ _ _ _ _ _) as [g2 next']. cbn [fst] in Hs.
  pose proof (processDeadline_static g2 a next') as Hp.
  destruct (processDeadline g2 a next') as [g3 [err|]]; cbn [fst] in Hp |- *.
  - by rewrite Hp, Hs, attach_data_static.
  - by rewrite processVisitLimit_static, Hp, Hs, attach_data_static.
Qed.

Lemma handleEvent_static g a ev : static (handleEvent g a ev).1 = static g.
Proof.
  unfold handleEvent. destruct (g_heap g !! a) as [inst|]; [|done].
  destruct (transition _ _ _) as [[next action] [err|]]; [done|].
  destruct (flap _ _ _) as [limit|]; [|apply complete_static].
  case_decide; [|apply complete_static].
  case_decide; [cbn [fst]; by rewrite raise_static | by rewrite complete_static].
Qed.

Lemma drain_static n now : ∀ g, static (drain n now g).1 = static g.
Proof.
  induction n as [|n IH]; intros g; cbn [drain]; [done|].
  destruct (peek _ _) as [a|]; [|done]. case_decide; [done|].
  destruct (_ !! a) as [inst|]; [|done].
  case_decide; [|by rewrite IH].
  destruct (expiry _ _) as [[ttl|] [err|]]; try done; [|by rewrite IH].
  cbn zeta. destruct (g_blocked _); cbn [fst]; [|rewrite IH];
    exact (raise_static _ _ _ _).
Qed.

Lemma run_txn_static g t : static (run_txn g t) = static g.
Proof.
  unfold run_txn.
  assert (Hp : static (match t with
                       | TxClockTick => handleClockTick g
                       | TxEvent ev => handleEvent g (e_ref ev) ev
                       | TxRead => (g, None)
                       end).1 = static g).
  { destruct t; [|apply handleEvent_static|done].
    unfold handleClockTick. by rewrite drain_static. }
  destruct (match t with TxClockTick => _ | TxEvent ev => _ | TxRead => _ end)
    as [g' [err|]]; [by rewrite handleError_static|done].
Qed.

Lemma alloc_next g initial : g_next (alloc g initial).1.1 = wrapU64 (g_next g + 1).
Proof.
  unfold alloc.
  pose proof (processDeadline_static
    (set_heap (g_heap (set_next (wrapU64 (g_next g + 1)) g) ++
       [mkInstance (g_next g) initial None newFlaps 0 0 (-1) {[initial := 1]}])
       (set_next (wrapU64 (g_next g + 1)) g))
    (length (g_heap (set_next (wrapU64 (g_next g + 1)) g))) initial) as Hp.
  destruct (processDeadline _ _ _) as [g' [err|]]; [done|].
  cbn [fst] in *. by injection Hp.
Qed.

(** The store after a move: the instances that were there, or those and the
    one [alloc] made. *)
Lemma step_store (R : nat → instance F → instance F → Prop) g g' :
  (∀ b i, R b i i) →
  (∀ b i1 i2 i3, R b i1 i2 → R b i2 i3 → R b i1 i3) →
  (∀ b k i, R b i (set_index k i)) →
  (∀ b d i, R b i (set_deadline d i)) →
  (∀ b i l, R b i (set_flaps l i)) →
  (∀ b i d, R b i (set_data d i)) →
  (∀ b i n now exp, expiry (g_spec g) n = (exp, None) →
                    R b i (update i n now (from_option TTL 0 exp))) →
  step g g' →
  (keeps R (g_heap g) (g_heap g') ∧
   (g_next g' = g_next g ∨ g_next g' = wrapU64 (g_next g + 1))) ∨
  (∃ initial, is_Some (states (g_spec g) !! initial) ∧
     g_next g' = wrapU64 (g_next g + 1) ∧
     keeps R
       (g_heap g ++ [mkInstance (g_next g) initial None newFlaps 0 0 (-1) {[initial := 1]}])
       (g_heap g')).
Proof.
  intros Hrefl Htrans Hidx Hdl Hfl Hdata Hupd Hstep.
  assert (Hsame : ∀ h, keeps R h h) by (intros h; by apply keeps_refl).
  destruct Hstep as [g initial|g sig a inst d _|g ev evs _ _|g _|g _|g t ts _ _ _|g t _ _|g].
  - pose proof (alloc_store R g initial Hrefl Htrans Hidx) as Hs.
    pose proof (alloc_next g initial) as Hn.
    destruct (alloc g initial) as [[g' [fsm|]] [err|]]; cbn [fst] in *.
    + left. destruct Hs as [-> _]; eauto.
    + right. exists initial. destruct Hs as (_ & Hk & Hdef); eauto.
    + left. destruct Hs as [-> _]; eauto.
    + left. destruct Hs as [-> _]; eauto.
  - left. unfold signal. destruct (signals _ !! _); cbn; eauto.
  - left. cbn. eauto.
  - left. cbn. eauto.
  - left. cbn. eauto.
  - left. cbn. eauto.
  - left. split.
    + apply (run_txn_keeps R g t); eauto.
      intros ev b i _. unfold attached. destruct (e_data ev); [apply Hdata|apply Hrefl].
    + left. pose proof (run_txn_static g t) as Hs.
      by injection Hs.
  - left. unfold Stop. destruct (g_running g); cbn; eauto.
Qed.

Lemma newRunner_fields s optional g :
  newRunner s optional = Returns (Some g, None) →
  g_heap g = [] ∧ g_next g = 0 ∧ states (g_spec g) = states s ∧
  signals (g_spec g) = signals s.
Proof.
  unfold newRunner. intros Hnew.
  destruct (if decide (0 < length _)%nat then _ else _) as [s' [e|]] eqn:Hc; [done|].
  destruct (decide (BufferSize _ < 0)) as [|_]; [done|].
  injection Hnew as <-. cbn. split; [done|]. split; [done|].
  match type of Hc with (if ?d then _ else _) = _ => destruct d end;
    [|by injection Hc as <-].
  unfold compileFlapping in Hc. destruct (foldM _ _ _); [done|]. by injection Hc as <-.
Qed.

Lemma reachable_states s optional g :
  reachable s optional g → states (g_spec g) = states s ∧ signals (g_spec g) = signals s.
Proof.
  induction 1 as [g Hnew | g g' _ IH Hstep].
  - by destruct (newRunner_fields _ _ _ Hnew) as (_ & _ & ? & ?).
  - by rewrite (step_spec _ _ Hstep).
Qed.

(** X10: every instance of a running system is in a state the spec defines,
    and has a visit counter for it: State() never names an undefined state,
    and, unless the spec declares the index −99999 itself, never the invalid
    state. *)
Theorem state_always_defined s optional g a inst :
  reachable s optional g →
  g_heap g !! a = Some inst →
  State_of g a = i_state inst ∧
  is_Some (states s !! State_of g a) ∧
  is_Some (i_visits inst !! i_state inst) ∧
  (states s !! invalidState = None → IsInvalidState (State_of g a) = false).
Proof.
  intros Hreach Ha.
  assert (Hdef : ∀ b i, g_heap g !! b = Some i → in_defined_state (g_spec g) i).
  { clear a inst Ha. induction Hreach as [g Hnew | g g' _ IH Hstep].
    - destruct (newRunner_fields _ _ _ Hnew) as (Hh & _). cbn. by rewrite Hh.
    - intros b i' Hb. rewrite (step_spec _ _ Hstep).
      set (R := λ (_ : nat) (i1 i2 : instance F),
             in_defined_state (g_spec g) i1 → in_defined_state (g_spec g) i2).
      assert (Hupd : ∀ (c : nat) i n now exp, expiry (g_spec g) n = (exp, None) →
                R c i (update i n now (from_option TTL 0 exp))).
      { intros c i n now exp Hexp _. unfold in_defined_state, update. cbn.
        split; [|by rewrite lookup_insert_eq].
        unfold expiry in Hexp. by destruct (states (g_spec g) !! n). }
      destruct (step_store R g g') as [[Hk _]|(initial & Hinit & _ & Hk)];
        try done; unfold R; eauto.
      + destruct (keeps_backward _ _ _ Hk b i' Hb) as (i & Hi & Hr). apply Hr. eauto.
      + destruct (keeps_backward _ _ _ Hk b i' Hb) as (i & Hi & Hr). apply Hr.
        apply lookup_app_Some in Hi as [Hi|[_ Hi]]; [eauto|].
        apply list_lookup_singleton_Some in Hi as [_ <-].
        split; cbn; [done|by rewrite lookup_singleton_eq]. }
  destruct (reachable_states _ _ _ Hreach) as [<- _].
  unfold State_of. rewrite Ha. cbn. split; [done|].
  destruct (Hdef a inst Ha) as [Hsome Hvis]. split; [done|]. split; [done|].
  intros Hno. unfold IsInvalidState. apply bool_decide_eq_false. intros Heq.
  rewrite Heq, Hno in Hsome. by destruct Hsome.
Qed.

Lemma keeps_ids h h' :
  keeps (λ (_ : nat) (i i' : instance F), i_id i' = i_id i) h h' →
  i_id <$> h' = i_id <$> h.
Proof.
  intros [Hlen Hfw]. apply list_eq. intros b. rewrite !list_lookup_fmap.
  destruct (h !! b) as [i|] eqn:Hi.
  - destruct (Hfw b i Hi) as (i' & -> & Hid). cbn. by rewrite Hid.
  - apply lookup_ge_None in Hi.
    assert (Hn : h' !! b = None) by (apply lookup_ge_None; lia). by rewrite Hn.
Qed.

(** X14: a move of the system keeps the ids of the instances distinct and
    below the id counter, as long as the counter has not reached the end of
    its range. *)
Theorem ids_stay_unique g g' :
  ids_fresh g →
  g_next g < 2 ^ 64 - 1 →
  step g g' →
  ids_fresh g'.
Proof.
  intros (Hpos & Hnd & Hlt) Hmax Hstep.
  assert (Hw : wrapU64 (g_next g + 1) = g_next g + 1).
  { unfold wrapU64. apply Z.mod_small. lia. }
  assert (Hlt' : ∀ id, id ∈ i_id <$> g_heap g → 0 ≤ id < g_next g).
  { intros id (i & -> & Hi)%list_elem_of_fmap. by apply Hlt. }
  assert (Hback : ∀ h : list (instance F),
            (∀ id, id ∈ i_id <$> h → 0 ≤ id < g_next g') →
            ∀ inst, inst ∈ h → 0 ≤ i_id inst < g_next g').
  { intros h Hh inst Hi. apply Hh. apply list_elem_of_fmap. eauto. }
  destruct (step_store (λ _ i i', i_id i' = i_id i) g g')
    as [[Hk Hn]|(initial & _ & Hn & Hk)]; try done.
  - intros; congruence.
  - apply keeps_ids in Hk. unfold ids_fresh. split; [|split].
    + destruct Hn as [->| ->]; lia.
    + by rewrite Hk.
    + apply Hback. rewrite Hk. intros id Hid. apply Hlt' in Hid.
      destruct Hn as [->| ->]; lia.
  - apply keeps_ids in Hk. rewrite fmap_app in Hk. cbn in Hk.
    unfold ids_fresh. rewrite Hn, Hw. split; [lia|]. split.
    + rewrite Hk. apply NoDup_app. split; [done|]. split; [|apply NoDup_singleton].
      intros id Hid ->%list_elem_of_singleton. apply Hlt' in Hid. lia.
    + rewrite Hn, Hw in Hback. apply Hback. rewrite Hk. intros id Hid.
      apply elem_of_app in Hid as [Hid|Hid].
      * apply Hlt' in Hid. lia.
      * apply list_elem_of_singleton in Hid as ->. lia.
Qed.

End StaticFrame.

Section Composition.
Context {F : Type} `{!FlapLog F}.
Implicit Types (g : runner F) (inst : instance F) (a : nat).

(** X11: a transition into a state sets the timer of the instance by that
    state alone: the start time is the current time, the deadline is the
    current time plus the TTL of the new state, or 0 when it has none, and
    the instance is in the deadline queue exactly when its new deadline is
    positive, whatever it was before; the queue entries of the other
    instances stay. *)
Theorem transition_sets_timer g a ev inst next action st :
  Inv g →
  wf_spec (g_spec g) →
  g_heap g !! a = Some inst →
  transition (g_spec g) (i_state inst) (e_signal ev) = (next, action, None) →
  ¬ flap_trips (g_spec g) (i_state inst) next (i_flaps inst) →
  (∀ act : ActionFn, action = Some act →
     act (i_id inst) (i_data (attached ev inst)) = None) →
  states (g_spec g) !! next = Some st →
  ∃ g' inst',
    handleEvent g a ev = (g', None) ∧
    g_heap g' !! a = Some inst' ∧
    i_state inst' = next ∧
    i_start inst' = g_now g ∧
    i_deadline inst' =
      (if decide (0 < TTL (State_TTL st)) then wrap64 (g_now g + TTL (State_TTL st)) else 0) ∧
    (a ∈ g_deadlines g' ↔ 0 < i_deadline inst') ∧
    (∀ b, b ≠ a → b ∈ g_deadlines g' ↔ b ∈ g_deadlines g).
Proof.
  intros HInv Hwf Ha Htr Hflap Hquiet Hst.
  destruct (handleEvent_proceeds g a ev inst next action Ha Htr Hflap)
    as (g1 & -> & Ha1 & Hs1 & _ & Hn1 & Hq1 & _).
  set (inst1 := recorded (g_spec g) (i_state inst) next inst) in *.
  destruct (attach_data_spec g1 a ev inst1 Ha1) as (Ha2 & Hs2 & _ & Hn2 & Hq2 & _).
  cbn zeta in Ha2, Hs2, Hn2, Hq2.
  assert (Hinv : invoke_action (attach_data g1 a ev) a ev (i_state inst) next action =
                 (attach_data g1 a ev, next)).
  { apply (invoke_action_quiet _ a ev _ next action (attached ev inst1) Ha2).
    intros act Hact. unfold inst1.
    destruct (attached_fields ev (recorded (g_spec g) (i_state inst) next inst))
      as (-> & _).
    destruct (recorded_fields (g_spec g) (i_state inst) next inst) as (-> & _).
    rewrite attached_recorded_data. by apply Hquiet. }
  assert (Hwf1 : wf_spec (g_spec g1)) by (by rewrite Hs1).
  assert (Hst1 : states (g_spec g1) !! next = Some st) by (by rewrite Hs1).
  destruct (complete_spec g1 a ev (i_state inst) next action inst1 next st Hwf1 Ha1)
    as (g' & k & Hc & Ha' & _); [by rewrite Hinv|done|].
  cbn zeta in Ha'.
  exists g', (set_index k (update (attached ev inst1) next (g_now g1) (ttl_of st))).
  split; [done|]. split; [done|]. split; [done|]. split; [by rewrite <- Hn1|].
  assert (Hdl : i_deadline
            (set_index k (update (attached ev inst1) next (g_now g1) (ttl_of st))) =
          (if decide (0 < TTL (State_TTL st))
           then wrap64 (g_now g + TTL (State_TTL st)) else 0)).
  { cbn. rewrite Hn1. unfold ttl_of. repeat case_decide; try done; lia. }
  split; [done|]. rewrite Hdl.
  assert (Hq' : g_deadlines g' =
                g_deadlines (processDeadline (attach_data g1 a ev) a next).1).
  { unfold complete in Hc. rewrite Hinv in Hc.
    rewrite <- land_deadlines. by rewrite Hc. }
  rewrite Hq'.
  assert (Hst2 : states (g_spec (attach_data g1 a ev)) !! next = Some st)
    by (by rewrite Hs2).
  destruct (expiry_of_state _ _ _ Hst2) as (exp & Hexp & Httl).
  assert (Hidx : i_index (attached ev inst1) = i_index inst).
  { unfold attached. destruct (e_data ev); cbn;
      by destruct (recorded_fields (g_spec g) (i_state inst) next inst)
        as (_ & _ & _ & _ & _ & ?). }
  assert (Hmem : a ∈ g_deadlines (attach_data g1 a ev) ↔ -1 < i_index (attached ev inst1)).
  { rewrite Hq2, Hq1, Hidx. split.
    - intros Hin. destruct (inv_queued _ HInv a Hin) as (i & Hi & Hi0 & _).
      rewrite Ha in Hi. injection Hi as <-. lia.
    - intros Hi. destruct (decide (a ∈ g_deadlines g)) as [|Hnot]; [done|].
      pose proof (inv_idle _ HInv a inst Ha Hnot). lia. }
  destruct (processDeadline_queue (attach_data g1 a ev) a next exp (attached ev inst1)
              Hexp Ha2 Hmem) as [Hin Hother].
  cbn zeta in Hin, Hother. split.
  - rewrite Hin. cbn. rewrite Httl, Hn2, Hn1. unfold ttl_of.
    repeat case_decide; try done; lia.
  - intros b Hb. rewrite (Hother b Hb). by rewrite Hq2, Hq1.
Qed.


End Composition.

(** ** The added theorems on the machines of the tests *)

Lemma sp_ttl_wf : wf_spec sp_ttl.
Proof. apply (build_wf _ _ _ _ sp_ttl_built). Qed.

Lemma g_ttl1_wf : wf_spec (g_spec g_ttl1).
Proof. apply (reachable_wf sp_ttl (Some DefaultOptions)); [apply sp_ttl_wf|apply g_ttl1_reachable]. Qed.

Lemma g_ttl1_heap : g_heap g_ttl1 = [inst_ttl1].
Proof. vm_compute. reflexivity. Qed.

Lemma g_ttl1_to_g_ttl2 : step g_ttl1 g_ttl2.
Proof. unfold g_ttl2. apply step_alloc. Qed.

(** Witness of X2, on the machine of TestSetDeadlineTransition. *)
Lemma build_result_witness :
  (∀ i x, states sp_ttl !! i = Some x ↔ x ∈ [st_wait; st_run] ∧ State_Index x = i) ∧
  (∀ k, is_Some (signals sp_ttl !! k) ↔
        ∃ x, x ∈ [st_wait; st_run] ∧
             (is_Some (Transitions x !! k) ∨ is_Some (Errors x !! k))) ∧
  (∀ k v, signals sp_ttl !! k = Some v → v = k) ∧
  flaps sp_ttl = flaps newSpec.
Proof. apply (build_result newSpec st_wait [st_run] sp_ttl). exact sp_ttl_built. Defined.

(** Witness of X3: [up] declared twice. *)
Lemma build_duplicate_witness :
  ∃ i j1 j2,
    build newSpec st_up [st_down; st_up] = (newSpec, Some (ErrDuplicateState i)) ∧
    (j1 < j2)%nat ∧
    (State_Index <$> [st_up; st_down; st_up]) !! j1 = Some i ∧
    (State_Index <$> [st_up; st_down; st_up]) !! j2 = Some i.
Proof.
  apply (build_duplicate newSpec st_up [st_down; st_up]).
  intros Hnd. apply NoDup_cons in Hnd as [Hnot _]. apply Hnot.
  apply list_elem_of_further, list_elem_of_here.
Defined.

(** Witness of X4: [up] alone, whose transition on [shutdown] leads to the
    state 2, which is not declared. *)
Lemma build_dangling_witness :
  ∃ x sig n,
    build newSpec st_up [] = (newSpec, Some (ErrUnknownState n)) ∧
    x ∈ [st_up] ∧
    (Transitions x !! sig = Some n ∨ Errors x !! sig = Some n) ∧
    ¬ declared [st_up] n.
Proof.
  apply (build_dangling newSpec st_up []).
  - apply NoDup_singleton.
  - exists st_up, 1, 2. split; [apply list_elem_of_here|]. split.
    + left. vm_compute. reflexivity.
    + intros (y & Hy & Hi). apply list_elem_of_singleton in Hy. subst y. discriminate.
Defined.

(** Witness of X5: the state [wait], whose TTL raises [start]. *)
Lemma built_transition_ok_iff_witness :
  (∀ sig, tr_err (transition sp_ttl 1 sig) = None ↔ is_Some (Transitions st_wait !! sig)) ∧
  (0 < TTL (State_TTL st_wait) →
     tr_err (transition sp_ttl 1 (Expiry_Raise (State_TTL st_wait))) = None) ∧
  (0 < Value (Visit st_wait) →
     tr_err (transition sp_ttl 1 (Limit_Raise (Visit st_wait))) = None).
Proof.
  apply (built_transition_ok_iff newSpec st_wait [st_run] sp_ttl 1 st_wait).
  - exact sp_ttl_built.
  - vm_compute. reflexivity.
Defined.

(** Witness of X6: the states 0 and 1 of [sp_shared] hold one Actions map,
    state 2 holds none.  Setting the action of state 0 on signal 0 changes
    it in state 1 as well. *)
Lemma SetAction_writes_shared_map_witness :
  allocated store_shared sp_shared ∧
  written sp_shared 0 1 = true ∧
  written sp_shared 0 2 = false ∧
  ∃ h' s',
    SetAction store_shared sp_shared 0 0 (Some succeeding) = (h', s', None) ∧
    tr_action (transition (spec_at store_shared sp_shared) 1 0) = Some failing ∧
    tr_action (transition (spec_at h' s') 0 0) = Some succeeding ∧
    tr_action (transition (spec_at h' s') 1 0) = Some succeeding ∧
    transition (spec_at h' s') 1 1 = transition (spec_at store_shared sp_shared) 1 1 ∧
    transition (spec_at h' s') 2 1 = transition (spec_at store_shared sp_shared) 2 1.
Proof.
  assert (Hal : allocated store_shared sp_shared).
  { apply map_Forall_to_list. vm_compute.
    repeat (apply Forall_cons_2;
              [cbn; intros p Hp; try discriminate Hp; injection Hp as <-; lia|]).
    apply Forall_nil_2. }
  split; [exact Hal|].
  split; [vm_compute; reflexivity|].
  split; [vm_compute; reflexivity|].
  destruct (SetAction_writes_shared_map store_shared sp_shared 0 0 (Some succeeding) Hal)
    as [_ H].
  destruct H as (h' & s' & Heq & _ & _ & Hsame & Hact & _).
  { vm_compute. by eexists. }
  exists h', s'. split; [exact Heq|].
  split; [vm_compute; reflexivity|].
  split; [apply Hact; vm_compute; reflexivity|].
  split; [apply Hact; vm_compute; reflexivity|].
  split; apply Hsame.
  - right. discriminate.
  - left. vm_compute. reflexivity.
Defined.

(** Witness of X7: the instance of [g_act2], in [down], and [startup]. *)
Lemma CanReceive_decides_witness :
  (CanReceive g_act2 0%nat (e_signal ev_startup) = true ↔
     (handleEvent g_act2 0%nat ev_startup).2 = None) ∧
  (CanReceive g_act2 0%nat (e_signal ev_startup) = false →
     ∃ err, handleEvent g_act2 0%nat ev_startup = (g_act2, Some err) ∧
            tr_err (transition (g_spec g_act2) (i_state inst_act2) (e_signal ev_startup))
              = Some err).
Proof.
  apply (CanReceive_decides g_act2 0%nat ev_startup inst_act2).
  - exact g_act2_wf.
  - vm_compute. reflexivity.
Defined.

(** Witness of X8: [shutdown] for the instance of [g_act2], in [down], which
    has no transition on it; the options of the test ignore the error. *)
Lemma refused_event_only_reports_witness :
  run_txn g_act2 (TxEvent ev_shutdown) =
    (if ignored (g_options g_act2) (ErrUnknownTransition 1 2) then g_act2
     else set_errors (g_errors g_act2 ++ [ErrUnknownTransition 1 2]) g_act2) ∧
  (∀ st, states (g_spec g_act2) !! i_state inst_act2 = Some st →
         size (Transitions st) = 0%nat →
         ErrUnknownTransition 1 2 = ErrNoTransitions ∧
         run_txn g_act2 (TxEvent ev_shutdown) =
           set_errors (g_errors g_act2 ++ [ErrNoTransitions]) g_act2).
Proof.
  apply (refused_event_only_reports g_act2 ev_shutdown inst_act2 (ErrUnknownTransition 1 2)).
  - vm_compute. reflexivity.
  - vm_compute. reflexivity.
Defined.

(** Witness of X9: the first instance, across the allocation of a second. *)
Lemma instance_id_constant_witness :
  ∃ inst', g_heap g_ttl2 !! 0%nat = Some inst' ∧ i_id inst' = i_id inst_ttl1.
Proof.
  apply (instance_id_constant g_ttl1 g_ttl2 0%nat inst_ttl1).
  - apply rtc_once. exact g_ttl1_to_g_ttl2.
  - vm_compute. reflexivity.
Defined.

(** Witness of X10: the instance allocated in [wait]. *)
Lemma state_always_defined_witness :
  State_of g_ttl1 0%nat = i_state inst_ttl1 ∧
  is_Some (states sp_ttl !! State_of g_ttl1 0%nat) ∧
  is_Some (i_visits inst_ttl1 !! i_state inst_ttl1) ∧
  (states sp_ttl !! invalidState = None → IsInvalidState (State_of g_ttl1 0%nat) = false).
Proof.
  apply (state_always_defined sp_ttl (Some DefaultOptions) g_ttl1 0%nat inst_ttl1).
  - exact g_ttl1_reachable.
  - vm_compute. reflexivity.
Defined.

(** Witness of X11: [start] takes the queued instance from [wait] to
    [running], which has no TTL: its deadline becomes 0 and it leaves the
    queue. *)
Lemma transition_sets_timer_witness :
  ∃ g' inst',
    handleEvent g_ttl1 0%nat ev_startup = (g', None) ∧
    g_heap g' !! 0%nat = Some inst' ∧
    i_state inst' = 0 ∧
    i_start inst' = g_now g_ttl1 ∧
    i_deadline inst' =
      (if decide (0 < TTL (State_TTL st_run))
       then wrap64 (g_now g_ttl1 + TTL (State_TTL st_run)) else 0) ∧
    (0%nat ∈ g_deadlines g' ↔ 0 < i_deadline inst') ∧
    (∀ b, b ≠ 0%nat → b ∈ g_deadlines g' ↔ b ∈ g_deadlines g_ttl1).
Proof.
  apply (transition_sets_timer g_ttl1 0%nat ev_startup inst_ttl1 0 None st_run).
  - apply (reachable_Inv sp_ttl (Some DefaultOptions)). exact g_ttl1_reachable.
  - exact g_ttl1_wf.
  - vm_compute. reflexivity.
  - vm_compute. reflexivity.
  - intros (l & Hl & _). vm_compute in Hl. discriminate.
  - intros act Hact. discriminate.
  - vm_compute. reflexivity.
Defined.

(** Witness of X12: an event for the first of two instances. *)
Lemma event_leaves_others_witness :
  ∃ k, g_heap (handleEvent g_ttl2 0%nat ev_startup).1 !! 1%nat = Some (set_index k inst_ttl2).
Proof.
  apply (event_leaves_others g_ttl2 0%nat ev_startup 1%nat inst_ttl2).
  - vm_compute. reflexivity.
  - discriminate.
Defined.

(** Witness of X13: a tick on the runner with one queued instance. *)
Lemma tick_only_reschedules_witness :
  ∃ i', g_heap (handleClockTick g_ttl1).1 !! 0%nat = Some i' ∧
        same_but_schedule inst_ttl1 i'.
Proof.
  apply (tick_only_reschedules g_ttl1 0%nat inst_ttl1).
  vm_compute. reflexivity.
Defined.

(** Witness of X14: the allocation of the second instance. *)
Lemma ids_stay_unique_witness : ids_fresh g_ttl2.
Proof.
  apply (ids_stay_unique g_ttl1 g_ttl2).
  - unfold ids_fresh. rewrite g_ttl1_heap.
    assert (Hn : g_next g_ttl1 = 1) by (vm_compute; reflexivity). rewrite Hn.
    split; [lia|]. split; [apply NoDup_singleton|].
    intros inst Hi. apply list_elem_of_singleton in Hi. subst inst. cbn. lia.
  - assert (Hn : g_next g_ttl1 = 1) by (vm_compute; reflexivity). rewrite Hn. lia.
  - exact g_ttl1_to_g_ttl2.
Defined.

(** Witness of X15: an event without data. *)
Lemma data_changes_only_with_event_data_witness :
  ∃ i', g_heap (run_txn g_ttl1 (TxEvent ev_startup)) !! 0%nat = Some i' ∧
        Data_of i' = Data_of inst_ttl1.
Proof.
  apply (data_changes_only_with_event_data g_ttl1 (TxEvent ev_startup) 0%nat inst_ttl1).
  - intros ev [= <-]. reflexivity.
  - vm_compute. reflexivity.
Defined.


Section Expiry.
Context {F : Type} `{!FlapLog F}.
Implicit Types (g : runner F) (inst : instance F) (a : nat).


End Expiry.

